(** * aplus: a Promises/A+ implementation (src/aplus/__init__.py)

    A shallow embedding of the [Promise] class, its resolution algorithm
    ([fulfill], [_promisify]), the reaction dispatch ([_fulfill], [reject],
    [addCallback], [addErrback], [done], [then]) and the sequence combinator
    [listPromise] with its [CountdownLatch].

    - Python objects live in a heap, a list indexed by allocation order; a
      method is a function from a heap to a new heap and either a returned
      value or a raised exception.
    - The closures the module creates ([p.fulfill], [p.reject],
      [callAndFulfill], [callAndReject], [handleSuccess]) are first-order
      values that an interpreter applies.  Calls nest through these
      closures, so the interpreter [exec] takes a bound on the call depth;
      [exec_mono] shows that a larger bound never changes a result.
    - The functions of the caller ([UserFn]) return or raise as a function of
      their argument and leave the heap alone.
    - Execution is sequential: every [RLock] of the source is re-entrant and
      taken by the one running thread, so locking is a no-op here.  Of the
      code that needs threads, the embedding has what runs without them:
      [wait] and [get] on a settled promise (on a pending one they block on
      an [Event]), and the bodies that [background] and [spawn] hand to a
      thread or greenlet ([BackgroundThread.run], [process]); starting the
      thread is not modelled.  [dictPromise] is not part of the embedding
      (its values are dictionaries).
    - Assertions are enabled, and every exception is an [Exception], which
      is what all [except] clauses of the module catch. *)

From stdpp Require Import base list sets strings.
From Stdlib Require Import ZArith Lia.

Set Warnings "-register-all,-clear-no-such-hyp".

(** ** Values and heap objects *)

Abbreviation ref := nat.

(** Exception classes that occur; all of them derive from [Exception], which
    is what every [except Exception] clause of the module catches. *)
Inductive exc_class :=
| TypeError
| AssertionError
| AttributeError
| OtherError (name : string).

(** Python values.  [VPromise r] is an instance of [Promise] stored at [r];
    [VForeign r d t] is an object of some other class, stored at [r], that
    exposes a callable [done] attribute iff [d] and a callable [then]
    attribute iff [t]; [VLatch r] is an instance of [CountdownLatch]. *)
Inductive val :=
| VNone
| VInt (z : Z)
| VStr (s : string)
| VList (l : list val)
| VExc (cls : exc_class) (msg : string)
| VPromise (r : ref)
| VForeign (r : ref) (d t : bool)
| VLatch (r : ref)
| VFun (c : closure)
with closure :=
| BoundFulfill (self : ref)                      (* self.fulfill *)
| BoundReject (self : ref)                       (* self.reject *)
| CallAndFulfill (ret : ref) (success : val)     (* closure of Promise.then *)
| CallAndReject (ret : ref) (failure : val)      (* closure of Promise.then *)
| HandleSuccess (ret counter : ref) (promises : list val) (* of listPromise *)
| UserFn (f : nat).                              (* a function of the caller *)

(** Promise.PENDING = -1, Promise.REJECTED = 0, Promise.FULFILLED = 1 *)
Inductive pstate := PENDING | REJECTED | FULFILLED.

Record Promise := mkPromise {
  _state : pstate;
  value : val;
  reason : val;
  _callbacks : option (list val);   (* None once fulfilled *)
  _errbacks : option (list val)     (* None once rejected *)
}.

(** Which registration method a foreign thenable was called through. *)
Inductive regkind := ByDone | ByThen.

Inductive obj :=
| OPromise (pr : Promise)
| OLatch (_count : Z)                                 (* CountdownLatch *)
| OForeign (regs : list (regkind * val * val)).       (* a foreign thenable *)

Abbreviation heap := (list obj).

Global Instance pstate_eq_dec : EqDecision pstate.
Proof. solve_decision. Defined.

(** ** Results: a call returns a value or raises, in a new heap.
    [None] means that no result was produced (the call depth budget ran
    out, or a reference does not hold an object of the expected class). *)

Inductive outcome :=
| Return (v : val)
| Raise (e : val).

Definition M := heap → option (heap * outcome).

Definition return_ (v : val) : M := λ h, Some (h, Return v).
Definition raise (e : val) : M := λ h, Some (h, Raise e).

Definition bind (m : M) (k : val → M) : M := λ h,
  match m h with
  | Some (h', Return v) => k v h'
  | Some (h', Raise e) => Some (h', Raise e)
  | None => None
  end.

(** try: m  except Exception as e: handler(e) *)
Definition try_except (m : M) (handler : val → M) : M := λ h,
  match m h with
  | Some (h', Raise e) => handler e h'
  | r => r
  end.

(** try: m  except Exception: pass *)
Definition try_pass (m : M) : M := try_except m (λ _, return_ VNone).

Notation "x <~ m ;; k" := (bind m (λ x, k))
  (at level 100, m at next level, right associativity).
Notation "m1 ;;; m2" := (bind m1 (λ _, m2))
  (at level 100, right associativity).

Definition assertion_error : val := VExc AssertionError ""%string.
Definition self_resolution_error : val :=
  VExc TypeError "Cannot resolve promise with itself."%string.
Definition not_promise_like_error : val :=
  VExc TypeError "Object is not a Promise like object."%string.
Definition attribute_error : val := VExc AttributeError ""%string.
Definition not_callable_error : val := VExc TypeError "object is not callable"%string.
Definition not_iterable_error : val :=
  VExc TypeError "'NoneType' object is not iterable"%string.

(** assert b *)
Definition assert (b : bool) : M :=
  if b then return_ VNone else raise assertion_error.

(** ** Module-level predicates *)

(** _isFunction(v): v is not None and hasattr(v, "__call__") *)
Definition _isFunction (v : val) : bool :=
  match v with VFun _ => true | _ => false end.

Definition isinstance_Promise (v : val) : bool :=
  match v with VPromise _ => true | _ => false end.

(** hasattr(v, "done") and _isFunction(getattr(v, "done")) *)
Definition has_done (v : val) : bool :=
  match v with
  | VPromise _ => true
  | VForeign _ d _ => d
  | _ => false
  end.

(** hasattr(v, "then") and _isFunction(getattr(v, "then")) *)
Definition has_then (v : val) : bool :=
  match v with
  | VPromise _ => true
  | VForeign _ _ t => t
  | _ => false
  end.

Definition _isPromise (o : val) : bool :=
  isinstance_Promise o || has_done o || has_then o.

(** self is x *)
Definition is_ (self : ref) (x : val) : bool :=
  match x with VPromise r => bool_decide (r = self) | _ => false end.

(** v is not None *)
Definition is_not_None (v : val) : bool :=
  match v with VNone => false | _ => true end.

(** ** Object construction and the latch *)

(** Promise.__init__ *)
Definition new_Promise : Promise :=
  {| _state := PENDING; value := VNone; reason := VNone;
     _callbacks := Some []; _errbacks := Some [] |}.

(** Promise() *)
Definition Promise_new : M := λ h,
  Some (h ++ [OPromise new_Promise], Return (VPromise (length h))).

(** CountdownLatch(count) *)
Definition CountdownLatch (count : Z) : M :=
  assert (bool_decide (0 ≤ count)%Z) ;;;
  λ h, Some (h ++ [OLatch count], Return (VLatch (length h))).

(** CountdownLatch.dec *)
Definition dec (counter : ref) : M := λ h,
  match h !! counter with
  | Some (OLatch c) =>
      if bool_decide (0 < c)%Z
      then Some (<[counter := OLatch (c - 1)]> h, Return (VInt (c - 1)))
      else Some (h, Raise assertion_error)
  | _ => None
  end.

(** p.value, read off an arbitrary object *)
Definition get_value (p : val) : M := λ h,
  match p with
  | VPromise r =>
      match h !! r with
      | Some (OPromise pr) => Some (h, Return (value pr))
      | _ => None
      end
  | _ => Some (h, Raise attribute_error)
  end.

(** list(map(lambda p: p.value, promises)) *)
Fixpoint map_value (promises : list val) (acc : list val) : M :=
  match promises with
  | [] => return_ (VList acc)
  | p :: rest => v <~ get_value p ;; map_value rest (acc ++ [v])
  end.

(** A foreign thenable's [done]/[then]: the model of the environment is a
    deferred object that records the pair of handlers it is given and calls
    nothing by itself; its owner invokes a recorded handler later. *)
Definition foreign_register (k : regkind) (r : ref) (onF onR : val) : M := λ h,
  match h !! r with
  | Some (OForeign regs) =>
      Some (<[r := OForeign (regs ++ [(k, onF, onR)])]> h, Return VNone)
  | _ => None
  end.

(** ** The methods, with the recursive calls left open *)

Inductive call :=
| Call_fulfill (self : ref) (x : val)             (* self.fulfill(x) *)
| Call__fulfill (self : ref) (v : val)            (* self._fulfill(v) *)
| Call_reject (self : ref) (r : val)              (* self.reject(r) *)
| Call_addCallback (self : ref) (f : val)
| Call_addErrback (self : ref) (f : val)
| Call_done (self : ref) (success failure : val)
| Call_then (self : ref) (success failure : val)
| Call_value (x : val)                            (* Promise.value(x) *)
| Call_rejection (r : val)                        (* Promise.rejection(r) *)
| Call_promisify (o : val)                        (* _promisify(o) *)
| Call_listPromise (promises : list val)          (* listPromise( *promises) *)
| Call_apply (f : val) (arg : val).               (* f(arg) *)

Section Methods.
(** The behaviour of the caller's own functions: what [UserFn f] returns
    or raises on an argument. *)
Variable user_call : nat → val → outcome.
(** The recursive knot: how a nested call is run. *)
Variable rec : call → M.

(** o.done(a, b) on an arbitrary receiver *)
Definition invoke_done (o : val) (a b : val) : M :=
  match o with
  | VPromise r => rec (Call_done r a b)
  | VForeign r true _ => foreign_register ByDone r a b
  | _ => raise attribute_error
  end.

(** o.then(a, b) on an arbitrary receiver *)
Definition invoke_then (o : val) (a b : val) : M :=
  match o with
  | VPromise r => rec (Call_then r a b)
  | VForeign r _ true => foreign_register ByThen r a b
  | _ => raise attribute_error
  end.

(** for callback in callbacks: try: callback(arg) except Exception: pass *)
Fixpoint dispatch (callbacks : list val) (arg : val) : M :=
  match callbacks with
  | [] => return_ VNone
  | callback :: rest =>
      try_pass (rec (Call_apply callback arg)) ;;; dispatch rest arg
  end.

Definition fulfill (self : ref) (x : val) : M :=
  if is_ self x then raise self_resolution_error
  else if _isPromise x then
    try_except
      (q <~ rec (Call_promisify x) ;;
       invoke_done q (VFun (BoundFulfill self)) (VFun (BoundReject self)))
      (λ e, rec (Call_reject self e))
  else if has_then x then
    try_except
      (invoke_then x (VFun (BoundFulfill self)) (VFun (BoundReject self)))
      (λ e, rec (Call_reject self e))
  else rec (Call__fulfill self x).

Definition _fulfill (self : ref) (v : val) : M := λ h,
  match h !! self with
  | Some (OPromise pr) =>
      if bool_decide (_state pr = PENDING) then
        let h1 := <[self := OPromise
                     {| _state := FULFILLED; value := v; reason := reason pr;
                        _callbacks := None; _errbacks := _errbacks pr |}]> h in
        match _callbacks pr with
        | Some callbacks => dispatch callbacks v h1
        | None => Some (h1, Raise not_iterable_error)
        end
      else Some (h, Raise assertion_error)
  | _ => None
  end.

Definition reject (self : ref) (r : val) : M := λ h,
  match h !! self with
  | Some (OPromise pr) =>
      if bool_decide (_state pr = PENDING) then
        let h1 := <[self := OPromise
                     {| _state := REJECTED; value := value pr; reason := r;
                        _callbacks := _callbacks pr; _errbacks := None |}]> h in
        match _errbacks pr with
        | Some errbacks => dispatch errbacks r h1
        | None => Some (h1, Raise not_iterable_error)
        end
      else Some (h, Raise assertion_error)
  | _ => None
  end.

Definition addCallback (self : ref) (f : val) : M :=
  assert (_isFunction f) ;;;
  λ h,
  match h !! self with
  | Some (OPromise pr) =>
      match _state pr with
      | PENDING =>
          match _callbacks pr with
          | Some l =>
              Some (<[self := OPromise
                       {| _state := _state pr; value := value pr;
                          reason := reason pr;
                          _callbacks := Some (l ++ [f]);
                          _errbacks := _errbacks pr |}]> h, Return VNone)
          | None => Some (h, Raise attribute_error)
          end
      | FULFILLED => (rec (Call_apply f (value pr)) ;;; return_ VNone) h
      | REJECTED => Some (h, Return VNone)
      end
  | _ => None
  end.

Definition addErrback (self : ref) (f : val) : M :=
  assert (_isFunction f) ;;;
  λ h,
  match h !! self with
  | Some (OPromise pr) =>
      match _state pr with
      | PENDING =>
          match _errbacks pr with
          | Some l =>
              Some (<[self := OPromise
                       {| _state := _state pr; value := value pr;
                          reason := reason pr;
                          _callbacks := _callbacks pr;
                          _errbacks := Some (l ++ [f]) |}]> h, Return VNone)
          | None => Some (h, Raise attribute_error)
          end
      | REJECTED => (rec (Call_apply f (reason pr)) ;;; return_ VNone) h
      | FULFILLED => Some (h, Return VNone)
      end
  | _ => None
  end.

Definition done (self : ref) (success failure : val) : M :=
  (if is_not_None success then rec (Call_addCallback self success)
   else return_ VNone) ;;;
  (if is_not_None failure then rec (Call_addErrback self failure)
   else return_ VNone).

Definition then_ (self : ref) (success failure : val) : M :=
  r <~ Promise_new ;;
  match r with
  | VPromise ret_ =>
      rec (Call_done self (VFun (CallAndFulfill ret_ success))
                          (VFun (CallAndReject ret_ failure))) ;;;
      return_ (VPromise ret_)
  | _ => λ _, None
  end.

(** Promise.value (the static method) *)
Definition Promise_value (x : val) : M :=
  p <~ Promise_new ;;
  match p with
  | VPromise r => rec (Call_fulfill r x) ;;; return_ p
  | _ => λ _, None
  end.

(** Promise.rejection *)
Definition Promise_rejection (r : val) : M :=
  p <~ Promise_new ;;
  match p with
  | VPromise q => rec (Call_reject q r) ;;; return_ p
  | _ => λ _, None
  end.

Definition _promisify (o : val) : M :=
  if isinstance_Promise o then return_ o
  else if has_done o then
    p <~ Promise_new ;;
    match p with
    | VPromise r =>
        invoke_done o (VFun (BoundFulfill r)) (VFun (BoundReject r)) ;;; return_ p
    | _ => λ _, None
    end
  else if has_then o then
    p <~ Promise_new ;;
    match p with
    | VPromise r =>
        invoke_then o (VFun (BoundFulfill r)) (VFun (BoundReject r)) ;;; return_ p
    | _ => λ _, None
    end
  else raise not_promise_like_error.

(** the loop of listPromise:
    for p in promises: assert _isPromise(p)
                       _promisify(p).done(handleSuccess, ret.reject) *)
Fixpoint listPromise_loop (handleSuccess reject_ : val) (ps : list val) : M :=
  match ps with
  | [] => return_ VNone
  | p :: rest =>
      assert (_isPromise p) ;;;
      (q <~ rec (Call_promisify p) ;; invoke_done q handleSuccess reject_) ;;;
      listPromise_loop handleSuccess reject_ rest
  end.

Definition listPromise (promises : list val) : M :=
  if bool_decide (length promises = 0) then rec (Call_value (VList []))
  else
    let promises :=
      match promises with
      | [VList l] => l
      | _ => promises
      end in
    r <~ Promise_new ;;
    c <~ CountdownLatch (Z.of_nat (length promises)) ;;
    match r, c with
    | VPromise ret_, VLatch counter =>
        listPromise_loop
          (VFun (HandleSuccess ret_ counter promises))
          (VFun (BoundReject ret_)) promises ;;;
        return_ (VPromise ret_)
    | _, _ => λ _, None
    end.

(** callAndFulfill(v), the closure created by then *)
Definition callAndFulfill (ret_ : ref) (success : val) (v : val) : M :=
  try_except
    (if _isFunction success
     then w <~ rec (Call_apply success v) ;; rec (Call_fulfill ret_ w)
     else rec (Call_fulfill ret_ v))
    (λ e, rec (Call_reject ret_ e)).

(** callAndReject(r), the closure created by then *)
Definition callAndReject (ret_ : ref) (failure : val) (r : val) : M :=
  try_except
    (if _isFunction failure
     then w <~ rec (Call_apply failure r) ;; rec (Call_fulfill ret_ w)
     else rec (Call_reject ret_ r))
    (λ e, rec (Call_reject ret_ e)).

(** handleSuccess(_), the closure created by listPromise *)
Definition handleSuccess (ret_ counter : ref) (promises : list val) : M :=
  n <~ dec counter ;;
  match n with
  | VInt 0 => v <~ map_value promises [] ;; rec (Call_fulfill ret_ v) ;;; return_ VNone
  | _ => return_ VNone
  end.

(** f(arg) *)
Definition apply (f : val) (arg : val) : M :=
  match f with
  | VFun (BoundFulfill self) => rec (Call_fulfill self arg)
  | VFun (BoundReject self) => rec (Call_reject self arg)
  | VFun (CallAndFulfill ret_ success) => callAndFulfill ret_ success arg
  | VFun (CallAndReject ret_ failure) => callAndReject ret_ failure arg
  | VFun (HandleSuccess ret_ counter promises) =>
      handleSuccess ret_ counter promises
  | VFun (UserFn f) => λ h, Some (h, user_call f arg)
  | _ => raise not_callable_error
  end.

Definition step (c : call) : M :=
  match c with
  | Call_fulfill self x => fulfill self x
  | Call__fulfill self v => _fulfill self v
  | Call_reject self r => reject self r
  | Call_addCallback self f => addCallback self f
  | Call_addErrback self f => addErrback self f
  | Call_done self s f => done self s f
  | Call_then self s f => then_ self s f
  | Call_value x => Promise_value x
  | Call_rejection r => Promise_rejection r
  | Call_promisify o => _promisify o
  | Call_listPromise ps => listPromise ps
  | Call_apply f arg => apply f arg
  end.
End Methods.

(** [exec user n c]: run the call [c] with at most [n] nested calls. *)
Fixpoint exec (user_call : nat → val → outcome) (n : nat) (c : call) : M :=
  match n with
  | 0 => λ _, None
  | S n => step user_call (exec user_call n) c
  end.

(** ** Methods that only read *)

(** CountdownLatch.count (a property): return self._count *)
Definition count (counter : ref) (h : heap) : option Z :=
  match h !! counter with
  | Some (OLatch c) => Some c
  | _ => None
  end.

(** Promise.isPending: return self._state == self.PENDING *)
Definition isPending (self : ref) (h : heap) : option bool :=
  match h !! self with
  | Some (OPromise pr) => Some (bool_decide (_state pr = PENDING))
  | _ => None
  end.

(** Promise.isFulfilled: return self._state == self.FULFILLED *)
Definition isFulfilled (self : ref) (h : heap) : option bool :=
  match h !! self with
  | Some (OPromise pr) => Some (bool_decide (_state pr = FULFILLED))
  | _ => None
  end.

(** Promise.isRejected: return self._state == self.REJECTED *)
Definition isRejected (self : ref) (h : heap) : option bool :=
  match h !! self with
  | Some (OPromise pr) => Some (bool_decide (_state pr = REJECTED))
  | _ => None
  end.

(** Promise.wait(timeout): [if self._state != self.PENDING: return].  On a
    pending promise the method registers two reactions that set an [Event]
    and blocks on that event until another thread settles the promise or the
    timeout expires; threads and timeouts are outside this sequential
    embedding, so on a pending promise no result is produced here. *)
Definition wait (self : ref) : M := λ h,
  match h !! self with
  | Some (OPromise pr) =>
      if bool_decide (_state pr ≠ PENDING) then Some (h, Return VNone) else None
  | _ => None
  end.

Definition no_value_error : val :=
  VExc (OtherError "ValueError") "Calculation didn't yield a value"%string.

(** Promise.get(timeout):
      self.wait(timeout)
      if self._state == self.FULFILLED: return self.value
      else: raise ValueError("Calculation didn't yield a value") *)
Definition get (self : ref) : M :=
  wait self ;;;
  λ h,
  match h !! self with
  | Some (OPromise pr) =>
      if bool_decide (_state pr = FULFILLED) then Some (h, Return (value pr))
      else Some (h, Raise no_value_error)
  | _ => None
  end.

(** ** The body a worker runs

    BackgroundThread.run, the body of the thread that [background] starts:
      try: val = self.func(); self.promise.fulfill(val)
      except Exception as e: self.promise.reject(e)
    [func] is a function of the caller without arguments, given by what it
    returns or raises; [n] bounds the call depth of the two method calls.
    Starting the thread is not modelled: the body runs at some later point of
    the sequential execution. *)
Definition run (user_call : nat → val → outcome) (n : nat)
    (promise : ref) (func : outcome) : M :=
  try_except
    (val <~ (λ h, Some (h, func)) ;; exec user_call n (Call_fulfill promise val))
    (λ e, exec user_call n (Call_reject promise e)).

(** process(p, f), the body of the greenlet that [spawn] starts:
      try: val = f(); p.fulfill(val)
      except Exception as e: p.reject(e) *)
Definition process (user_call : nat → val → outcome) (n : nat)
    (p : ref) (f : outcome) : M :=
  try_except
    (val <~ (λ h, Some (h, f)) ;; exec user_call n (Call_fulfill p val))
    (λ e, exec user_call n (Call_reject p e)).

(** ** More call depth never changes a result *)

Definition Mle (m1 m2 : M) : Prop := ∀ h r, m1 h = Some r → m2 h = Some r.

Lemma Mle_refl m : Mle m m.
Proof. by intros h r. Qed.

Lemma Mle_bind m1 m2 k1 k2 :
  Mle m1 m2 → (∀ v, Mle (k1 v) (k2 v)) → Mle (bind m1 k1) (bind m2 k2).
Proof.
  intros Hm Hk h r. unfold bind.
  destruct (m1 h) as [[h1 [v|e]]|] eqn:E; [| |done]; rewrite (Hm _ _ E); auto.
  apply Hk.
Qed.

Lemma Mle_try_except m1 m2 k1 k2 :
  Mle m1 m2 → (∀ e, Mle (k1 e) (k2 e)) →
  Mle (try_except m1 k1) (try_except m2 k2).
Proof.
  intros Hm Hk h r. unfold try_except.
  destruct (m1 h) as [[h1 [v|e]]|] eqn:E; [| |done]; rewrite (Hm _ _ E); auto.
  apply Hk.
Qed.

Ltac mle_step :=
  first
    [ assumption
    | apply Mle_refl
    | apply Mle_bind; [|intros ?]
    | apply Mle_try_except; [|intros ?]
    | match goal with
      | H : ∀ c, Mle (?r1 c) (?r2 c) |- Mle (?r1 _) (?r2 _) => apply H
      | |- Mle (if ?b then _ else _) _ => destruct b
      | |- Mle (match ?x with _ => _ end) _ => destruct x
      end ].
Ltac mle := unfold try_pass; repeat mle_step.

Section Mono.
Variable user_call : nat → val → outcome.
Variables rec1 rec2 : call → M.
Hypothesis Hrec : ∀ c, Mle (rec1 c) (rec2 c).

Lemma dispatch_mono l v : Mle (dispatch rec1 l v) (dispatch rec2 l v).
Proof. induction l as [|f l IH]; simpl; mle. Qed.

Lemma listPromise_loop_mono a b l :
  Mle (listPromise_loop rec1 a b l) (listPromise_loop rec2 a b l).
Proof. induction l as [|f l IH]; simpl; unfold invoke_done; mle. Qed.

Lemma step_mono c : Mle (step user_call rec1 c) (step user_call rec2 c).
Proof.
  destruct c; simpl.
  - unfold fulfill, invoke_done, invoke_then. mle.
  - intros h r. unfold _fulfill.
    destruct (h !! self) as [[pr| |]|]; try done.
    case_bool_decide; [|done]. destruct (_callbacks pr); [|done].
    apply dispatch_mono.
  - intros h r'. unfold reject.
    destruct (h !! self) as [[pr| |]|]; try done.
    case_bool_decide; [|done]. destruct (_errbacks pr); [|done].
    apply dispatch_mono.
  - unfold addCallback. apply Mle_bind; [apply Mle_refl|]. intros _ h r.
    destruct (h !! self) as [[pr| |]|]; try done.
    destruct (_state pr); try done. revert h r. mle.
  - unfold addErrback. apply Mle_bind; [apply Mle_refl|]. intros _ h r.
    destruct (h !! self) as [[pr| |]|]; try done.
    destruct (_state pr); try done. revert h r. mle.
  - unfold done. mle.
  - unfold then_. mle.
  - unfold Promise_value. mle.
  - unfold Promise_rejection. mle.
  - unfold _promisify, invoke_done, invoke_then. mle.
  - unfold listPromise. case_bool_decide; [mle|].
    apply Mle_bind; [apply Mle_refl|]. intros r.
    apply Mle_bind; [apply Mle_refl|]. intros c.
    destruct r; try apply Mle_refl. destruct c; try apply Mle_refl.
    apply Mle_bind; [apply listPromise_loop_mono|]. intros; apply Mle_refl.
  - unfold apply, callAndFulfill, callAndReject, handleSuccess.
    destruct f; try apply Mle_refl. destruct c; mle.
Qed.
End Mono.

Lemma exec_S u n c : Mle (exec u n c) (exec u (S n) c).
Proof.
  revert c. induction n as [|n IH]; intros c; [by intros h r|].
  change (Mle (step u (exec u n) c) (step u (exec u (S n)) c)).
  by apply step_mono.
Qed.

Lemma exec_mono u n m c h r :
  exec u n c h = Some r → n ≤ m → exec u m c h = Some r.
Proof.
  intros H Hle. induction Hle as [|m Hle IH]; [done|]. by apply exec_S.
Qed.

(** ** What every call preserves

    [evolves h h']: the heap only grows, every object keeps its class, and a
    promise that is settled in [h] is the very same record in [h']. *)

Definition obj_le (o o' : obj) : Prop :=
  match o, o' with
  | OPromise pr, OPromise pr' => _state pr ≠ PENDING → pr' = pr
  | OLatch _, OLatch _ => True
  | OForeign _, OForeign _ => True
  | _, _ => False
  end.

Definition evolves (h h' : heap) : Prop :=
  length h ≤ length h' ∧
  ∀ r o, h !! r = Some o → ∃ o', h' !! r = Some o' ∧ obj_le o o'.

Lemma obj_le_refl o : obj_le o o.
Proof. by destruct o. Qed.

Lemma obj_le_trans o1 o2 o3 : obj_le o1 o2 → obj_le o2 o3 → obj_le o1 o3.
Proof.
  destruct o1, o2, o3; simpl; try done.
  intros H1 H2 Hs. specialize (H1 Hs). subst. auto.
Qed.

Lemma evolves_refl h : evolves h h.
Proof. split; [done|]. intros r o Hr. eauto using obj_le_refl. Qed.

Lemma evolves_trans h1 h2 h3 : evolves h1 h2 → evolves h2 h3 → evolves h1 h3.
Proof.
  intros [L1 H1] [L2 H2]. split; [lia|]. intros r o Hr.
  destruct (H1 _ _ Hr) as (o2 & Hr2 & Hle2).
  destruct (H2 _ _ Hr2) as (o3 & Hr3 & Hle3).
  eauto using obj_le_trans.
Qed.

Lemma evolves_alloc h o : evolves h (h ++ [o]).
Proof.
  split; [rewrite length_app; lia|]. intros r o' Hr.
  exists o'. split; [|apply obj_le_refl]. by apply lookup_app_l_Some.
Qed.

Lemma evolves_insert h r o o' :
  h !! r = Some o → obj_le o o' → evolves h (<[r:=o']> h).
Proof.
  intros Hr Hle. split; [by rewrite length_insert|]. intros r' o1 Hr'.
  destruct (decide (r = r')) as [->|Hne].
  - rewrite list_lookup_insert_eq; [|by eapply lookup_lt_Some].
    simplify_eq. eauto.
  - rewrite list_lookup_insert_ne; [|done]. eauto using obj_le_refl.
Qed.

Lemma evolves_settled h h' r pr :
  evolves h h' → h !! r = Some (OPromise pr) → _state pr ≠ PENDING →
  h' !! r = Some (OPromise pr).
Proof.
  intros [_ H] Hr Hs. destruct (H _ _ Hr) as (o' & Hr' & Hle).
  destruct o'; simpl in Hle; try done. by rewrite (Hle Hs) in Hr'.
Qed.

Definition Mpres (m : M) : Prop := ∀ h h' o, m h = Some (h', o) → evolves h h'.

Lemma Mpres_ret v : Mpres (return_ v).
Proof. intros h h' o [= <- _]. apply evolves_refl. Qed.

Lemma Mpres_raise e : Mpres (raise e).
Proof. intros h h' o [= <- _]. apply evolves_refl. Qed.

Lemma Mpres_none : Mpres (λ _, None).
Proof. by intros h h' o. Qed.

Lemma Mpres_bind m k : Mpres m → (∀ v, Mpres (k v)) → Mpres (bind m k).
Proof.
  intros Hm Hk h h' o. unfold bind.
  destruct (m h) as [[h1 [v|e]]|] eqn:E; [| |done].
  - intros Hkv. eapply evolves_trans; [by eapply Hm|by eapply Hk].
  - intros [= <- _]. by eapply Hm.
Qed.

Lemma Mpres_try_except m k :
  Mpres m → (∀ e, Mpres (k e)) → Mpres (try_except m k).
Proof.
  intros Hm Hk h h' o. unfold try_except.
  destruct (m h) as [[h1 [v|e]]|] eqn:E; [| |done].
  - intros [= <- _]. by eapply Hm.
  - intros Hkv. eapply evolves_trans; [by eapply Hm|by eapply Hk].
Qed.

Lemma Mpres_assert b : Mpres (assert b).
Proof. destruct b; [apply Mpres_ret|apply Mpres_raise]. Qed.

Lemma Mpres_Promise_new : Mpres Promise_new.
Proof. intros h h' o [= <- _]. apply evolves_alloc. Qed.

Lemma Mpres_CountdownLatch c : Mpres (CountdownLatch c).
Proof.
  apply Mpres_bind; [apply Mpres_assert|].
  intros _ h h' o [= <- _]. apply evolves_alloc.
Qed.

Lemma Mpres_dec c : Mpres (dec c).
Proof.
  intros h h' o. unfold dec.
  destruct (h !! c) as [[| |]|] eqn:E; try done.
  case_bool_decide; intros [= <- _]; [|apply evolves_refl].
  by eapply evolves_insert.
Qed.

Lemma Mpres_get_value p : Mpres (get_value p).
Proof.
  intros h h' o. unfold get_value. destruct p; try (intros [= <- _]; apply evolves_refl).
  destruct (h !! r) as [[| |]|]; try done. intros [= <- _]; apply evolves_refl.
Qed.

Lemma Mpres_map_value ps acc : Mpres (map_value ps acc).
Proof.
  revert acc. induction ps as [|p ps IH]; intros acc; simpl.
  - apply Mpres_ret.
  - apply Mpres_bind; [apply Mpres_get_value|]. intros v. apply IH.
Qed.

Lemma Mpres_foreign_register k r a b : Mpres (foreign_register k r a b).
Proof.
  intros h h' o. unfold foreign_register.
  destruct (h !! r) as [[| |]|] eqn:E; try done.
  intros [= <- _]. by eapply evolves_insert.
Qed.

Ltac mpres_step :=
  first
    [ assumption
    | apply Mpres_ret | apply Mpres_raise | apply Mpres_none
    | apply Mpres_assert | apply Mpres_Promise_new
    | apply Mpres_CountdownLatch | apply Mpres_dec
    | apply Mpres_map_value | apply Mpres_foreign_register
    | apply Mpres_bind; [|intros ?]
    | apply Mpres_try_except; [|intros ?]
    | match goal with
      | H : ∀ c, Mpres (?r c) |- Mpres (?r _) => apply H
      | |- Mpres (if ?b then _ else _) => destruct b
      | |- Mpres (match ?x with _ => _ end) => destruct x
      end ].
Ltac mpres := unfold try_pass; repeat mpres_step.

Section Preservation.
Variable user_call : nat → val → outcome.
Variable rec : call → M.
Hypothesis Hrec : ∀ c, Mpres (rec c).

Lemma Mpres_dispatch l v : Mpres (dispatch rec l v).
Proof. induction l as [|f l IH]; simpl; mpres. Qed.

Lemma Mpres_listPromise_loop a b l : Mpres (listPromise_loop rec a b l).
Proof. induction l as [|f l IH]; simpl; unfold invoke_done; mpres. Qed.

Lemma Mpres_settle h self pr pr' l v :
  h !! self = Some (OPromise pr) → _state pr = PENDING →
  ∀ h' o, dispatch rec l v (<[self := OPromise pr']> h) = Some (h', o) →
  evolves h h'.
Proof.
  intros Hs Hp h' o Hd. eapply evolves_trans; [|by eapply Mpres_dispatch].
  eapply evolves_insert; [done|]. simpl. congruence.
Qed.

Lemma step_pres c : Mpres (step user_call rec c).
Proof.
  destruct c; simpl.
  - unfold fulfill, invoke_done, invoke_then. mpres.
  - intros h h' o. unfold _fulfill.
    destruct (h !! self) as [[pr| |]|] eqn:E; try done.
    case_bool_decide; [|intros [= <- _]; apply evolves_refl].
    destruct (_callbacks pr).
    + by eapply Mpres_settle.
    + intros [= <- _]. eapply evolves_insert; [done|]. simpl. congruence.
  - intros h h' o. unfold reject.
    destruct (h !! self) as [[pr| |]|] eqn:E; try done.
    case_bool_decide; [|intros [= <- _]; apply evolves_refl].
    destruct (_errbacks pr).
    + by eapply Mpres_settle.
    + intros [= <- _]. eapply evolves_insert; [done|]. simpl. congruence.
  - unfold addCallback. apply Mpres_bind; [apply Mpres_assert|]. intros _ h h' o.
    destruct (h !! self) as [[pr| |]|] eqn:E; try done.
    destruct (_state pr) eqn:Es.
    + destruct (_callbacks pr); intros [= <- _]; [|apply evolves_refl].
      eapply evolves_insert; [done|]. simpl. congruence.
    + intros [= <- _]; apply evolves_refl.
    + revert h' o. clear E. revert h.
      change (Mpres (rec (Call_apply f (value pr)) ;;; return_ VNone)). mpres.
  - unfold addErrback. apply Mpres_bind; [apply Mpres_assert|]. intros _ h h' o.
    destruct (h !! self) as [[pr| |]|] eqn:E; try done.
    destruct (_state pr) eqn:Es.
    + destruct (_errbacks pr); intros [= <- _]; [|apply evolves_refl].
      eapply evolves_insert; [done|]. simpl. congruence.
    + revert h' o. clear E. revert h.
      change (Mpres (rec (Call_apply f (reason pr)) ;;; return_ VNone)). mpres.
    + intros [= <- _]; apply evolves_refl.
  - unfold done. mpres.
  - unfold then_. mpres.
  - unfold Promise_value. mpres.
  - unfold Promise_rejection. mpres.
  - unfold _promisify, invoke_done, invoke_then. mpres.
  - unfold listPromise. case_bool_decide; [mpres|].
    apply Mpres_bind; [mpres|]. intros r.
    apply Mpres_bind; [mpres|]. intros c.
    destruct r; try apply Mpres_none. destruct c; try apply Mpres_none.
    apply Mpres_bind; [apply Mpres_listPromise_loop|]. intros; mpres.
  - unfold apply, callAndFulfill, callAndReject, handleSuccess.
    destruct f; try apply Mpres_raise. destruct c; mpres.
    intros h h' o [= <- _]. apply evolves_refl.
Qed.
End Preservation.

Lemma exec_evolves u n c : Mpres (exec u n c).
Proof.
  revert c. induction n as [|n IH]; intros c; [apply Mpres_none|].
  simpl. by apply step_pres.
Qed.

(** A settled promise is the same record after any call. *)
Lemma settled_stable u n c h h' o p pr :
  exec u n c h = Some (h', o) →
  h !! p = Some (OPromise pr) → _state pr ≠ PENDING →
  h' !! p = Some (OPromise pr).
Proof. intros He. eapply evolves_settled. by eapply exec_evolves. Qed.

(** ** Observations on the heap *)

Definition is_UserFn (f : val) : bool :=
  match f with VFun (UserFn _) => true | _ => false end.

(** A plain value: neither a [Promise] nor an object with [done] or [then]. *)
Definition plain (x : val) : bool := negb (_isPromise x).

Definition fulfilled_rec (pr : Promise) (v : val) : Promise :=
  {| _state := FULFILLED; value := v; reason := reason pr;
     _callbacks := None; _errbacks := _errbacks pr |}.

Definition rejected_rec (pr : Promise) (r : val) : Promise :=
  {| _state := REJECTED; value := value pr; reason := r;
     _callbacks := _callbacks pr; _errbacks := None |}.

Definition pending (h : heap) (p : ref) : Prop :=
  ∃ pr, h !! p = Some (OPromise pr) ∧ _state pr = PENDING.

Definition fulfilled_with (h : heap) (p : ref) (v : val) : Prop :=
  ∃ pr, h !! p = Some (OPromise pr) ∧ _state pr = FULFILLED ∧ value pr = v.

Definition rejected_with (h : heap) (p : ref) (r : val) : Prop :=
  ∃ pr, h !! p = Some (OPromise pr) ∧ _state pr = REJECTED ∧ reason pr = r.

(** A pending promise all of whose reactions so far are functions of the
    caller (which run to completion and leave the heap alone). *)
Definition quiet (h : heap) (p : ref) : bool :=
  match h !! p with
  | Some (OPromise (mkPromise PENDING _ _ (Some cbs) (Some ebs))) =>
      forallb is_UserFn cbs && forallb is_UserFn ebs
  | _ => false
  end.

Lemma quiet_inv h p :
  quiet h p = true →
  ∃ v r cbs ebs,
    h !! p = Some (OPromise (mkPromise PENDING v r (Some cbs) (Some ebs))) ∧
    forallb is_UserFn cbs = true ∧ forallb is_UserFn ebs = true.
Proof.
  unfold quiet. destruct (h !! p) as [[[[] v r [cbs|] [ebs|]]| |]|]; try done.
  intros [? ?]%andb_true_iff. eauto 10.
Qed.

Lemma quiet_pending h p : quiet h p = true → pending h p.
Proof.
  intros (v & r & cbs & ebs & Hp & _)%quiet_inv. eexists. split; [done|done].
Qed.

Lemma plain_not_self p x : plain x = true → is_ p x = false.
Proof. by destruct x. Qed.

Lemma plain_no_then x : plain x = true → has_then x = false.
Proof. destruct x as [| | | | | |r d t| |]; try done. unfold plain; simpl. by destruct d, t. Qed.

(** ** A fulfilled promise holds a plain value

    [_fulfill] is reached from [fulfill] only, and only with a value that is
    neither a promise nor a thenable; so no call of the public interface
    stores a thenable as the value of a promise. *)

Definition values_plain (h : heap) : Prop :=
  ∀ r pr, h !! r = Some (OPromise pr) → _state pr = FULFILLED →
          plain (value pr) = true.

(** The calls a caller makes: every call except a direct [_fulfill] with a
    promise or thenable. *)
Definition public (c : call) : bool :=
  match c with
  | Call__fulfill _ v => plain v
  | _ => true
  end.

Definition Mkeeps (m : M) : Prop :=
  ∀ h h' o, m h = Some (h', o) → values_plain h → values_plain h'.

Lemma values_plain_alloc h o :
  (∀ pr, o = OPromise pr → _state pr ≠ FULFILLED) →
  values_plain h → values_plain (h ++ [o]).
Proof.
  intros Ho Hh r pr Hr Hs. apply lookup_app_Some in Hr as [Hr|[_ Hr]].
  - by eapply Hh.
  - apply list_lookup_singleton_Some in Hr as [_ ->]. by destruct (Ho pr).
Qed.

Lemma values_plain_insert (h : heap) r o :
  (∀ pr, o = OPromise pr → _state pr = FULFILLED → plain (value pr) = true) →
  values_plain h → values_plain (<[r := o]> h).
Proof.
  intros Ho Hh r' pr Hr Hs.
  apply list_lookup_insert_Some in Hr as [(-> & -> & _)|[_ Hr]]; [by eapply Ho|].
  by eapply Hh.
Qed.

Lemma Mkeeps_return v : Mkeeps (return_ v).
Proof. by intros h h' o [= <- _]. Qed.

Lemma Mkeeps_raise e : Mkeeps (raise e).
Proof. by intros h h' o [= <- _]. Qed.

Lemma Mkeeps_none : Mkeeps (λ _, None).
Proof. by intros h h' o. Qed.

Lemma Mkeeps_bind m k : Mkeeps m → (∀ v, Mkeeps (k v)) → Mkeeps (bind m k).
Proof.
  intros Hm Hk h h' o. unfold bind.
  destruct (m h) as [[h1 [v|e]]|] eqn:E; [| |done].
  - intros Hkv Hh. eapply Hk; [done|]. by eapply Hm.
  - intros [= <- _]. by eapply Hm.
Qed.

Lemma Mkeeps_try_except m k :
  Mkeeps m → (∀ e, Mkeeps (k e)) → Mkeeps (try_except m k).
Proof.
  intros Hm Hk h h' o. unfold try_except.
  destruct (m h) as [[h1 [v|e]]|] eqn:E; [| |done].
  - intros [= <- _]. by eapply Hm.
  - intros Hkv Hh. eapply Hk; [done|]. by eapply Hm.
Qed.

Lemma Mkeeps_assert b : Mkeeps (assert b).
Proof. destruct b; [apply Mkeeps_return|apply Mkeeps_raise]. Qed.

Lemma Mkeeps_Promise_new : Mkeeps Promise_new.
Proof.
  intros h h' o [= <- _]. apply values_plain_alloc. by intros pr [= <-].
Qed.

Lemma Mkeeps_CountdownLatch c : Mkeeps (CountdownLatch c).
Proof.
  apply Mkeeps_bind; [apply Mkeeps_assert|].
  intros _ h h' o [= <- _]. by apply values_plain_alloc.
Qed.

Lemma Mkeeps_dec c : Mkeeps (dec c).
Proof.
  intros h h' o. unfold dec.
  destruct (h !! c) as [[| |]|] eqn:E; try done.
  case_bool_decide; intros [= <- _]; [|done]. by apply values_plain_insert.
Qed.

Lemma Mkeeps_map_value ps acc : Mkeeps (map_value ps acc).
Proof.
  revert acc. induction ps as [|p ps IH]; intros acc; simpl.
  - apply Mkeeps_return.
  - apply Mkeeps_bind; [|intros v; apply IH].
    intros h h' o. unfold get_value. destruct p; try by intros [= <- _].
    destruct (h !! r) as [[| |]|]; try done. by intros [= <- _].
Qed.

Lemma Mkeeps_foreign_register k r a b : Mkeeps (foreign_register k r a b).
Proof.
  intros h h' o. unfold foreign_register.
  destruct (h !! r) as [[| |]|] eqn:E; try done.
  intros [= <- _]. by apply values_plain_insert.
Qed.

Ltac mkeeps_step :=
  first
    [ assumption
    | apply Mkeeps_return | apply Mkeeps_raise | apply Mkeeps_none
    | apply Mkeeps_assert | apply Mkeeps_Promise_new
    | apply Mkeeps_CountdownLatch | apply Mkeeps_dec
    | apply Mkeeps_map_value | apply Mkeeps_foreign_register
    | apply Mkeeps_bind; [|intros ?]
    | apply Mkeeps_try_except; [|intros ?]
    | match goal with
      | H : ∀ c, public c = true → Mkeeps (?r c) |- Mkeeps (?r _) =>
          apply H; reflexivity
      | |- Mkeeps (if ?b then _ else _) => destruct b
      | |- Mkeeps (match ?x with _ => _ end) => destruct x
      end ].
Ltac mkeeps := unfold try_pass; repeat mkeeps_step.

Section PlainValues.
Variable user_call : nat → val → outcome.
Variable rec : call → M.
Hypothesis Hrec : ∀ c, public c = true → Mkeeps (rec c).

Lemma Mkeeps_dispatch l v : Mkeeps (dispatch rec l v).
Proof. induction l as [|f l IH]; simpl; mkeeps. Qed.

Lemma Mkeeps_listPromise_loop a b l : Mkeeps (listPromise_loop rec a b l).
Proof. induction l as [|f l IH]; simpl; unfold invoke_done; mkeeps. Qed.

Lemma step_keeps c : public c = true → Mkeeps (step user_call rec c).
Proof.
  destruct c; simpl; intros Hpub.
  - unfold fulfill, invoke_done, invoke_then.
    destruct (is_ self x); [mkeeps|].
    destruct (_isPromise x) eqn:Hx; [mkeeps|].
    destruct (has_then x); [mkeeps|].
    apply Hrec. simpl. unfold plain. by rewrite Hx.
  - intros h h' o. unfold _fulfill.
    destruct (h !! self) as [[pr| |]|] eqn:E; try done.
    case_bool_decide; [|by intros [= <- _]].
    destruct (_callbacks pr).
    + intros Hd Hh. eapply Mkeeps_dispatch; [done|].
      apply values_plain_insert; [|done]. by intros pr' [= <-].
    + intros [= <- _] Hh. apply values_plain_insert; [|done]. by intros pr' [= <-].
  - intros h h' o. unfold reject.
    destruct (h !! self) as [[pr| |]|] eqn:E; try done.
    case_bool_decide; [|by intros [= <- _]].
    destruct (_errbacks pr).
    + intros Hd Hh. eapply Mkeeps_dispatch; [done|].
      apply values_plain_insert; [|done]. by intros pr' [= <-].
    + intros [= <- _] Hh. apply values_plain_insert; [|done]. by intros pr' [= <-].
  - unfold addCallback. apply Mkeeps_bind; [apply Mkeeps_assert|]. intros _ h h' o.
    destruct (h !! self) as [[pr| |]|] eqn:E; try done.
    destruct (_state pr) eqn:Es.
    + destruct (_callbacks pr); intros [= <- _] Hh; [|done].
      apply values_plain_insert; [|done]. intros pr' [= <-]. simpl. congruence.
    + by intros [= <- _].
    + revert h' o. clear E. revert h.
      change (Mkeeps (rec (Call_apply f (value pr)) ;;; return_ VNone)). mkeeps.
  - unfold addErrback. apply Mkeeps_bind; [apply Mkeeps_assert|]. intros _ h h' o.
    destruct (h !! self) as [[pr| |]|] eqn:E; try done.
    destruct (_state pr) eqn:Es.
    + destruct (_errbacks pr); intros [= <- _] Hh; [|done].
      apply values_plain_insert; [|done]. intros pr' [= <-]. simpl. congruence.
    + revert h' o. clear E. revert h.
      change (Mkeeps (rec (Call_apply f (reason pr)) ;;; return_ VNone)). mkeeps.
    + by intros [= <- _].
  - unfold done. mkeeps.
  - unfold then_. mkeeps.
  - unfold Promise_value. mkeeps.
  - unfold Promise_rejection. mkeeps.
  - unfold _promisify, invoke_done, invoke_then. mkeeps.
  - unfold listPromise. case_bool_decide; [mkeeps|].
    apply Mkeeps_bind; [mkeeps|]. intros r.
    apply Mkeeps_bind; [mkeeps|]. intros c.
    destruct r; try apply Mkeeps_none. destruct c; try apply Mkeeps_none.
    apply Mkeeps_bind; [apply Mkeeps_listPromise_loop|]. intros; mkeeps.
  - unfold apply, callAndFulfill, callAndReject, handleSuccess.
    destruct f; try apply Mkeeps_raise. destruct c; mkeeps.
    by intros h h' o [= <- _].
Qed.
End PlainValues.

Lemma exec_keeps u n c : public c = true → Mkeeps (exec u n c).
Proof.
  revert c. induction n as [|n IH]; intros c Hc; [apply Mkeeps_none|].
  simpl. by apply step_keeps.
Qed.

(** ** Unfolding equations of the methods *)

Section Equations.
Variable user_call : nat → val → outcome.
Variable rec : call → M.

Lemma fulfill_plain p x :
  plain x = true → fulfill rec p x = rec (Call__fulfill p x).
Proof.
  intros Hx. unfold fulfill.
  rewrite (plain_not_self _ _ Hx), (plain_no_then _ Hx).
  unfold plain in Hx. by destruct (_isPromise x).
Qed.

Lemma fulfill_self p : fulfill rec p (VPromise p) = raise self_resolution_error.
Proof. unfold fulfill. simpl. by rewrite bool_decide_eq_true_2. Qed.

Lemma fulfill_Promise p q :
  q ≠ p →
  fulfill rec p (VPromise q) =
  try_except
    (x <~ rec (Call_promisify (VPromise q)) ;;
     invoke_done rec x (VFun (BoundFulfill p)) (VFun (BoundReject p)))
    (λ e, rec (Call_reject p e)).
Proof. intros Hne. unfold fulfill. simpl. by rewrite bool_decide_eq_false_2. Qed.

Lemma _fulfill_pending h p pr l v :
  h !! p = Some (OPromise pr) → _state pr = PENDING → _callbacks pr = Some l →
  _fulfill rec p v h = dispatch rec l v (<[p := OPromise (fulfilled_rec pr v)]> h).
Proof.
  intros Hp Hs Hl. unfold _fulfill. rewrite Hp, bool_decide_eq_true_2, Hl; done.
Qed.

Lemma _fulfill_settled h p pr v :
  h !! p = Some (OPromise pr) → _state pr ≠ PENDING →
  _fulfill rec p v h = Some (h, Raise assertion_error).
Proof.
  intros Hp Hs. unfold _fulfill. rewrite Hp, bool_decide_eq_false_2; done.
Qed.

Lemma reject_pending h p pr l r :
  h !! p = Some (OPromise pr) → _state pr = PENDING → _errbacks pr = Some l →
  reject rec p r h = dispatch rec l r (<[p := OPromise (rejected_rec pr r)]> h).
Proof.
  intros Hp Hs Hl. unfold reject. rewrite Hp, bool_decide_eq_true_2, Hl; done.
Qed.

Lemma reject_settled h p pr r :
  h !! p = Some (OPromise pr) → _state pr ≠ PENDING →
  reject rec p r h = Some (h, Raise assertion_error).
Proof.
  intros Hp Hs. unfold reject. rewrite Hp, bool_decide_eq_false_2; done.
Qed.

Lemma dispatch_app l1 l2 v h :
  dispatch rec (l1 ++ l2) v h =
  match dispatch rec l1 v h with
  | Some (h', _) => dispatch rec l2 v h'
  | None => None
  end.
Proof.
  revert h. induction l1 as [|f l1 IH]; intros h; simpl; [done|].
  unfold bind, try_pass, try_except, return_.
  destruct (rec (Call_apply f v) h) as [[h1 [w|e]]|]; auto.
Qed.

Lemma dispatch_returns l v h h' o :
  dispatch rec l v h = Some (h', o) → o = Return VNone.
Proof.
  revert h. induction l as [|f l IH]; intros h; simpl.
  - by intros [= _ <-].
  - unfold bind, try_pass, try_except, return_.
    destruct (rec (Call_apply f v) h) as [[h1 [w|e]]|]; eauto. done.
Qed.
End Equations.

(** ** Runs: derived rules for calls that return with enough call depth *)

Section Runs.
Variable u : nat → val → outcome.

(** [runs c h h' o]: with enough call depth, [c] run in [h] ends in [h']
    with outcome [o]. *)
Definition runs (c : call) (h h' : heap) (o : outcome) : Prop :=
  ∃ n, ∀ m, n ≤ m → exec u m c h = Some (h', o).

(** The same for the dispatch loop of [_fulfill] and [reject]. *)
Definition dispatches (l : list val) (v : val) (h h' : heap) : Prop :=
  ∃ n, ∀ m, n ≤ m → dispatch (exec u m) l v h = Some (h', Return VNone).

Lemma runs_of_exec n c h h' o : exec u n c h = Some (h', o) → runs c h h' o.
Proof. intros H. exists n. intros m Hm. by eapply exec_mono. Qed.

Lemma runs_det c h h1 o1 h2 o2 :
  runs c h h1 o1 → runs c h h2 o2 → h1 = h2 ∧ o1 = o2.
Proof.
  intros [n1 H1] [n2 H2].
  specialize (H1 (n1 + n2) ltac:(lia)). specialize (H2 (n1 + n2) ltac:(lia)).
  rewrite H1 in H2. by simplify_eq.
Qed.

Lemma runs_evolves c h h' o : runs c h h' o → evolves h h'.
Proof. intros [n H]. eapply exec_evolves. by apply (H n). Qed.

Lemma exec_unfold n c : exec u (S n) c = step u (exec u n) c.
Proof. done. Qed.

Lemma runs_step c h h' o :
  (∃ n, ∀ m, n ≤ m → step u (exec u m) c h = Some (h', o)) → runs c h h' o.
Proof.
  intros [n H]. exists (S n). intros [|m] Hm; [lia|].
  rewrite exec_unfold. apply H. lia.
Qed.

Lemma dispatches_nil v h : dispatches [] v h h.
Proof. by exists 0. Qed.

Lemma dispatches_cons f l v h h1 o h' :
  runs (Call_apply f v) h h1 o → dispatches l v h1 h' →
  dispatches (f :: l) v h h'.
Proof.
  intros [n1 H1] [n2 H2]. exists (n1 + n2). intros m Hm. simpl.
  unfold bind, try_pass, try_except, return_. rewrite H1 by lia.
  destruct o; apply H2; lia.
Qed.

Lemma dispatches_app l1 l2 v h h1 h' :
  dispatches l1 v h h1 → dispatches l2 v h1 h' → dispatches (l1 ++ l2) v h h'.
Proof.
  intros [n1 H1] [n2 H2]. exists (n1 + n2). intros m Hm.
  rewrite dispatch_app, H1 by lia. apply H2. lia.
Qed.

Lemma runs_apply_user k v h : runs (Call_apply (VFun (UserFn k)) v) h h (u k v).
Proof. exists 1. by intros [|m] Hm; [lia|]. Qed.

Lemma dispatches_users l v h :
  forallb is_UserFn l = true → dispatches l v h h.
Proof.
  induction l as [|f l IH]; simpl; [intros _; apply dispatches_nil|].
  intros [Hf Hl]%andb_true_iff. destruct f as [| | | | | | | |[]]; try done.
  eapply dispatches_cons; [apply runs_apply_user|auto].
Qed.

Lemma runs_fulfill_plain p x h h' o :
  plain x = true → runs (Call__fulfill p x) h h' o →
  runs (Call_fulfill p x) h h' o.
Proof.
  intros Hx [n H]. apply runs_step. exists n. intros m Hm. simpl.
  rewrite fulfill_plain by done. by apply H.
Qed.

Lemma runs__fulfill_pending p v h pr l h' :
  h !! p = Some (OPromise pr) → _state pr = PENDING → _callbacks pr = Some l →
  dispatches l v (<[p := OPromise (fulfilled_rec pr v)]> h) h' →
  runs (Call__fulfill p v) h h' (Return VNone).
Proof.
  intros Hp Hs Hl [n H]. apply runs_step. exists n. intros m Hm. simpl.
  erewrite _fulfill_pending by done. by apply H.
Qed.

Lemma runs_reject_pending p r h pr l h' :
  h !! p = Some (OPromise pr) → _state pr = PENDING → _errbacks pr = Some l →
  dispatches l r (<[p := OPromise (rejected_rec pr r)]> h) h' →
  runs (Call_reject p r) h h' (Return VNone).
Proof.
  intros Hp Hs Hl [n H]. apply runs_step. exists n. intros m Hm. simpl.
  erewrite reject_pending by done. by apply H.
Qed.

Lemma runs__fulfill_settled p v h pr :
  h !! p = Some (OPromise pr) → _state pr ≠ PENDING →
  runs (Call__fulfill p v) h h (Raise assertion_error).
Proof.
  intros Hp Hs. apply runs_step. exists 0. intros m Hm. simpl.
  by erewrite _fulfill_settled.
Qed.

Lemma runs_reject_settled p r h pr :
  h !! p = Some (OPromise pr) → _state pr ≠ PENDING →
  runs (Call_reject p r) h h (Raise assertion_error).
Proof.
  intros Hp Hs. apply runs_step. exists 0. intros m Hm. simpl.
  by erewrite reject_settled.
Qed.

Lemma runs_apply_BoundFulfill p v h h' o :
  runs (Call_fulfill p v) h h' o →
  runs (Call_apply (VFun (BoundFulfill p)) v) h h' o.
Proof. intros [n H]. apply runs_step. exists n. intros m Hm. by apply H. Qed.

Lemma runs_apply_BoundReject p v h h' o :
  runs (Call_reject p v) h h' o →
  runs (Call_apply (VFun (BoundReject p)) v) h h' o.
Proof. intros [n H]. apply runs_step. exists n. intros m Hm. by apply H. Qed.

End Runs.

(** *** Allocation and derived rules for the constructors *)

Lemma lookup_alloc (h : heap) o : (h ++ [o]) !! length h = Some o.
Proof. by apply list_lookup_middle. Qed.

Lemma insert_alloc (h : heap) o o' : <[length h := o']> (h ++ [o]) = h ++ [o'].
Proof.
  rewrite insert_app_r_alt by lia. by rewrite Nat.sub_diag.
Qed.

Lemma quiet_alloc (h : heap) : quiet (h ++ [OPromise new_Promise]) (length h) = true.
Proof. unfold quiet. by rewrite lookup_alloc. Qed.

Section Constructors.
Variable u : nat → val → outcome.

Lemma runs_fulfill_quiet p v h pr :
  h !! p = Some (OPromise pr) → quiet h p = true → plain v = true →
  runs u (Call_fulfill p v) h (<[p := OPromise (fulfilled_rec pr v)]> h)
       (Return VNone).
Proof.
  intros Hp (v' & r' & cbs & ebs & Hq & Hcbs & _)%quiet_inv Hv.
  rewrite Hp in Hq. injection Hq as ->.
  apply runs_fulfill_plain; [done|].
  eapply runs__fulfill_pending; [done..|]. by apply dispatches_users.
Qed.

Lemma runs_reject_quiet p r h pr :
  h !! p = Some (OPromise pr) → quiet h p = true →
  runs u (Call_reject p r) h (<[p := OPromise (rejected_rec pr r)]> h)
       (Return VNone).
Proof.
  intros Hp (v' & r' & cbs & ebs & Hq & _ & Hebs)%quiet_inv.
  rewrite Hp in Hq. injection Hq as ->.
  eapply runs_reject_pending; [done..|]. by apply dispatches_users.
Qed.

Lemma runs_Promise_value x h h' w :
  runs u (Call_fulfill (length h) x) (h ++ [OPromise new_Promise]) h' (Return w) →
  runs u (Call_value x) h h' (Return (VPromise (length h))).
Proof.
  intros [n H]. apply runs_step. exists n. intros m Hm. simpl.
  unfold Promise_value, bind, Promise_new. by rewrite H by lia.
Qed.

Lemma runs_Promise_value_plain x h :
  plain x = true →
  runs u (Call_value x) h (h ++ [OPromise (fulfilled_rec new_Promise x)])
       (Return (VPromise (length h))).
Proof.
  intros Hx. eapply runs_Promise_value.
  rewrite <-(insert_alloc h (OPromise new_Promise)
                         (OPromise (fulfilled_rec new_Promise x))).
  apply runs_fulfill_quiet; [apply lookup_alloc|apply quiet_alloc|done].
Qed.

End Constructors.

(** *** Derived rules for registration *)

Definition add_callback (pr : Promise) (f : val) : Promise :=
  {| _state := _state pr; value := value pr; reason := reason pr;
     _callbacks := (λ l, l ++ [f]) <$> _callbacks pr;
     _errbacks := _errbacks pr |}.

Definition add_errback (pr : Promise) (f : val) : Promise :=
  {| _state := _state pr; value := value pr; reason := reason pr;
     _callbacks := _callbacks pr;
     _errbacks := (λ l, l ++ [f]) <$> _errbacks pr |}.

(** the outcome of a call whose result is dropped: [f(x)] as a statement *)
Definition dropped (o : outcome) : outcome :=
  match o with Return _ => Return VNone | Raise e => Raise e end.

Section Registration.
Variable u : nat → val → outcome.

Lemma runs_addCallback_pending p f h pr l :
  h !! p = Some (OPromise pr) → _state pr = PENDING → _callbacks pr = Some l →
  _isFunction f = true →
  runs u (Call_addCallback p f) h (<[p := OPromise (add_callback pr f)]> h)
       (Return VNone).
Proof.
  intros Hp Hs Hl Hf. apply runs_step. exists 0. intros m _. simpl.
  unfold addCallback, bind. rewrite Hf. simpl. rewrite Hp, Hs, Hl.
  unfold add_callback. by rewrite Hs, Hl.
Qed.

Lemma runs_addCallback_fulfilled p f h pr h' o :
  h !! p = Some (OPromise pr) → _state pr = FULFILLED → _isFunction f = true →
  runs u (Call_apply f (value pr)) h h' o →
  runs u (Call_addCallback p f) h h' (dropped o).
Proof.
  intros Hp Hs Hf [n H]. apply runs_step. exists n. intros m Hm. simpl.
  unfold addCallback, bind. rewrite Hf. simpl. rewrite Hp, Hs.
  rewrite H by lia. by destruct o.
Qed.

Lemma runs_addCallback_rejected p f h pr :
  h !! p = Some (OPromise pr) → _state pr = REJECTED → _isFunction f = true →
  runs u (Call_addCallback p f) h h (Return VNone).
Proof.
  intros Hp Hs Hf. apply runs_step. exists 0. intros m _. simpl.
  unfold addCallback, bind. rewrite Hf. simpl. by rewrite Hp, Hs.
Qed.

Lemma runs_addErrback_pending p f h pr l :
  h !! p = Some (OPromise pr) → _state pr = PENDING → _errbacks pr = Some l →
  _isFunction f = true →
  runs u (Call_addErrback p f) h (<[p := OPromise (add_errback pr f)]> h)
       (Return VNone).
Proof.
  intros Hp Hs Hl Hf. apply runs_step. exists 0. intros m _. simpl.
  unfold addErrback, bind. rewrite Hf. simpl. rewrite Hp, Hs, Hl.
  unfold add_errback. by rewrite Hs, Hl.
Qed.

Lemma runs_addErrback_rejected p f h pr h' o :
  h !! p = Some (OPromise pr) → _state pr = REJECTED → _isFunction f = true →
  runs u (Call_apply f (reason pr)) h h' o →
  runs u (Call_addErrback p f) h h' (dropped o).
Proof.
  intros Hp Hs Hf [n H]. apply runs_step. exists n. intros m Hm. simpl.
  unfold addErrback, bind. rewrite Hf. simpl. rewrite Hp, Hs.
  rewrite H by lia. by destruct o.
Qed.

Lemma runs_addErrback_fulfilled p f h pr :
  h !! p = Some (OPromise pr) → _state pr = FULFILLED → _isFunction f = true →
  runs u (Call_addErrback p f) h h (Return VNone).
Proof.
  intros Hp Hs Hf. apply runs_step. exists 0. intros m _. simpl.
  unfold addErrback, bind. rewrite Hf. simpl. by rewrite Hp, Hs.
Qed.

(** [done] with two callables: the second registration runs only when the
    first returns. *)
Lemma runs_done p s f h h1 w h2 o :
  _isFunction s = true → _isFunction f = true →
  runs u (Call_addCallback p s) h h1 (Return w) →
  runs u (Call_addErrback p f) h1 h2 o →
  runs u (Call_done p s f) h h2 o.
Proof.
  intros Hs Hf [n1 H1] [n2 H2]. apply runs_step. exists (n1 + n2).
  intros m Hm. simpl. unfold done, bind.
  destruct s; try done. destruct f; try done. simpl.
  rewrite H1 by lia. apply H2. lia.
Qed.

Lemma runs_done_raises p s f h h1 e :
  _isFunction s = true →
  runs u (Call_addCallback p s) h h1 (Raise e) →
  runs u (Call_done p s f) h h1 (Raise e).
Proof.
  intros Hs [n1 H1]. apply runs_step. exists n1.
  intros m Hm. simpl. unfold done, bind.
  destruct s; try done. simpl. by rewrite H1 by lia.
Qed.

Lemma runs_then p s f h h' w :
  runs u (Call_done p (VFun (CallAndFulfill (length h) s))
                      (VFun (CallAndReject (length h) f)))
       (h ++ [OPromise new_Promise]) h' (Return w) →
  runs u (Call_then p s f) h h' (Return (VPromise (length h))).
Proof.
  intros [n H]. apply runs_step. exists n. intros m Hm. simpl.
  unfold then_, bind, Promise_new. by rewrite H by lia.
Qed.

Lemma runs_promisify_Promise q h :
  runs u (Call_promisify (VPromise q)) h h (Return (VPromise q)).
Proof. exists 1. by intros [|m] Hm; [lia|]. Qed.

(** [fulfill] with an instance of [Promise]: subscribe both bound methods. *)
Lemma runs_fulfill_Promise p q h h' w :
  q ≠ p →
  runs u (Call_done q (VFun (BoundFulfill p)) (VFun (BoundReject p))) h h'
       (Return w) →
  runs u (Call_fulfill p (VPromise q)) h h' (Return w).
Proof.
  intros Hne [n H]. destruct (runs_promisify_Promise q h) as [n0 H0].
  apply runs_step. exists (n0 + n). intros m Hm.
  simpl step. rewrite fulfill_Promise by done.
  unfold try_except, bind. rewrite H0 by lia. simpl. by rewrite H by lia.
Qed.

Lemma runs_fulfill_Promise_raises p q h h1 e h' o :
  q ≠ p →
  runs u (Call_done q (VFun (BoundFulfill p)) (VFun (BoundReject p))) h h1
       (Raise e) →
  runs u (Call_reject p e) h1 h' o →
  runs u (Call_fulfill p (VPromise q)) h h' o.
Proof.
  intros Hne [n1 H1] [n2 H2]. destruct (runs_promisify_Promise q h) as [n0 H0].
  apply runs_step. exists (n0 + n1 + n2). intros m Hm.
  simpl step. rewrite fulfill_Promise by done.
  unfold try_except, bind. rewrite H0 by lia. simpl. rewrite H1 by lia.
  apply H2. lia.
Qed.

End Registration.

(** ** Chaining with [then] *)

(** The record of a promise settled according to an outcome: fulfilled with
    a returned value, rejected with a raised error. *)
Definition settle_rec (pr : Promise) (o : outcome) : Promise :=
  match o with
  | Return w => fulfilled_rec pr w
  | Raise e => rejected_rec pr e
  end.

Definition plain_outcome (o : outcome) : bool :=
  match o with Return w => plain w | Raise _ => true end.

Section Then.
Variable u : nat → val → outcome.

(** What [callAndFulfill] hands on for a value [v]: the result of the
    caller's handler, or [v] itself when the handler is not callable. *)
Definition on_success (success v : val) : option outcome :=
  match success with
  | VFun (UserFn k) => Some (u k v)
  | VFun _ => None
  | _ => Some (Return v)
  end.

(** What [callAndReject] hands on for a reason [r]: the result of the
    caller's handler, or the rejection itself when it is not callable. *)
Definition on_failure (failure r : val) : option outcome :=
  match failure with
  | VFun (UserFn k) => Some (u k r)
  | VFun _ => None
  | _ => Some (Raise r)
  end.

Lemma runs_settle_quiet r o h pr :
  h !! r = Some (OPromise pr) → quiet h r = true → plain_outcome o = true →
  match o with
  | Return w => runs u (Call_fulfill r w) h (<[r := OPromise (settle_rec pr o)]> h) (Return VNone)
  | Raise e => runs u (Call_reject r e) h (<[r := OPromise (settle_rec pr o)]> h) (Return VNone)
  end.
Proof.
  intros Hr Hq Ho. destruct o as [w|e]; simpl.
  - by apply runs_fulfill_quiet.
  - by apply runs_reject_quiet.
Qed.

Lemma runs_callAndFulfill r success v o h pr :
  on_success success v = Some o → plain_outcome o = true →
  h !! r = Some (OPromise pr) → quiet h r = true →
  runs u (Call_apply (VFun (CallAndFulfill r success)) v) h
       (<[r := OPromise (settle_rec pr o)]> h) (Return VNone).
Proof.
  intros Ho Hplain Hr Hq.
  pose proof (runs_settle_quiet r o h pr Hr Hq Hplain) as Hs.
  destruct (_isFunction success) eqn:Hf.
  - destruct success as [| | | | | | | |[| | | | |k]]; try done.
    simpl in Ho. injection Ho as <-.
    destruct (runs_apply_user u k v h) as [n0 H0].
    destruct (u k v) as [w|e] eqn:E; destruct Hs as [n H];
      apply runs_step; exists (n0 + n); intros m Hm; simpl;
      unfold callAndFulfill, try_except, bind; simpl;
      rewrite H0 by lia; by rewrite H by lia.
  - assert (o = Return v) as -> by (destruct success; simpl in *; congruence).
    destruct Hs as [n H]. apply runs_step. exists n. intros m Hm. simpl.
    unfold callAndFulfill, try_except. rewrite Hf. by rewrite H by lia.
Qed.

Lemma runs_callAndReject r failure v o h pr :
  on_failure failure v = Some o → plain_outcome o = true →
  h !! r = Some (OPromise pr) → quiet h r = true →
  runs u (Call_apply (VFun (CallAndReject r failure)) v) h
       (<[r := OPromise (settle_rec pr o)]> h) (Return VNone).
Proof.
  intros Ho Hplain Hr Hq.
  pose proof (runs_settle_quiet r o h pr Hr Hq Hplain) as Hs.
  destruct (_isFunction failure) eqn:Hf.
  - destruct failure as [| | | | | | | |[| | | | |k]]; try done.
    simpl in Ho. injection Ho as <-.
    destruct (runs_apply_user u k v h) as [n0 H0].
    destruct (u k v) as [w|e] eqn:E; destruct Hs as [n H];
      apply runs_step; exists (n0 + n); intros m Hm; simpl;
      unfold callAndReject, try_except, bind; simpl;
      rewrite H0 by lia; by rewrite H by lia.
  - assert (o = Raise v) as -> by (destruct failure; simpl in *; congruence).
    destruct Hs as [n H]. apply runs_step. exists n. intros m Hm. simpl.
    unfold callAndReject, try_except. rewrite Hf. by rewrite H by lia.
Qed.

(** [then] on a promise that is already fulfilled: the new promise is
    settled before [then] returns. *)
Lemma then_on_fulfilled h p pr s f o :
  h !! p = Some (OPromise pr) → _state pr = FULFILLED →
  on_success s (value pr) = Some o → plain_outcome o = true →
  runs u (Call_then p s f) h (h ++ [OPromise (settle_rec new_Promise o)])
       (Return (VPromise (length h))).
Proof.
  intros Hp Hs Ho Hplain. eapply runs_then, runs_done; [done..| |].
  - eapply (runs_addCallback_fulfilled u p _ _ pr _ (Return VNone));
      [by apply lookup_app_l_Some|done..|].
    eapply runs_callAndFulfill; [done..|apply lookup_alloc|apply quiet_alloc].
  - rewrite insert_alloc.
    eapply (runs_addErrback_fulfilled u p _ _ pr); [|done..].
    by apply lookup_app_l_Some.
Qed.

Lemma then_on_rejected h p pr s f o :
  h !! p = Some (OPromise pr) → _state pr = REJECTED →
  on_failure f (reason pr) = Some o → plain_outcome o = true →
  runs u (Call_then p s f) h (h ++ [OPromise (settle_rec new_Promise o)])
       (Return (VPromise (length h))).
Proof.
  intros Hp Hs Ho Hplain. eapply runs_then, runs_done; [done..| |].
  - eapply (runs_addCallback_rejected u p _ _ pr); [|done..].
    by apply lookup_app_l_Some.
  - rewrite <-(insert_alloc h (OPromise new_Promise)
                           (OPromise (settle_rec new_Promise o))).
    eapply (runs_addErrback_rejected u p _ _ pr _ (Return VNone));
      [by apply lookup_app_l_Some|done..|].
    eapply runs_callAndReject; [done..|apply lookup_alloc|apply quiet_alloc].
Qed.

(** [then] on a pending promise: both closures are appended to its lists. *)
Lemma then_on_pending h p pr cbs ebs s f :
  h !! p = Some (OPromise pr) → _state pr = PENDING →
  _callbacks pr = Some cbs → _errbacks pr = Some ebs →
  runs u (Call_then p s f) h
       (<[p := OPromise
            (add_errback (add_callback pr (VFun (CallAndFulfill (length h) s)))
                         (VFun (CallAndReject (length h) f)))]>
          (<[p := OPromise
               (add_callback pr (VFun (CallAndFulfill (length h) s)))]>
             (h ++ [OPromise new_Promise])))
       (Return (VPromise (length h))).
Proof.
  intros Hp Hs Hc He. eapply runs_then, runs_done; [done..| |].
  - eapply runs_addCallback_pending; [by apply lookup_app_l_Some|done..].
  - eapply runs_addErrback_pending; [|done..].
    apply list_lookup_insert_eq. rewrite length_app.
    apply lookup_lt_Some in Hp. lia.
Qed.

(** A pending promise whose last fulfillment reaction is the closure of a
    [then], fulfilled with a plain value. *)
Lemma then_later_fulfilled h p pr cbs r s prr V o :
  h !! p = Some (OPromise pr) → _state pr = PENDING →
  _callbacks pr = Some (cbs ++ [VFun (CallAndFulfill r s)]) →
  forallb is_UserFn cbs = true →
  p ≠ r → h !! r = Some (OPromise prr) → quiet h r = true →
  plain V = true → on_success s V = Some o → plain_outcome o = true →
  runs u (Call_fulfill p V) h
       (<[r := OPromise (settle_rec prr o)]>
          (<[p := OPromise (fulfilled_rec pr V)]> h))
       (Return VNone).
Proof.
  intros Hp Hs Hc Hu Hne Hr Hq HV Ho Hplain.
  apply runs_fulfill_plain; [done|].
  eapply runs__fulfill_pending; [done..|].
  eapply dispatches_app; [by apply dispatches_users|].
  eapply dispatches_cons; [|apply dispatches_nil].
  eapply runs_callAndFulfill; [done..| |].
  - by rewrite list_lookup_insert_ne.
  - unfold quiet in *. by rewrite list_lookup_insert_ne.
Qed.

Lemma then_later_rejected h p pr ebs r f prr R o :
  h !! p = Some (OPromise pr) → _state pr = PENDING →
  _errbacks pr = Some (ebs ++ [VFun (CallAndReject r f)]) →
  forallb is_UserFn ebs = true →
  p ≠ r → h !! r = Some (OPromise prr) → quiet h r = true →
  on_failure f R = Some o → plain_outcome o = true →
  runs u (Call_reject p R) h
       (<[r := OPromise (settle_rec prr o)]>
          (<[p := OPromise (rejected_rec pr R)]> h))
       (Return VNone).
Proof.
  intros Hp Hs Hc Hu Hne Hr Hq Ho Hplain.
  eapply runs_reject_pending; [done..|].
  eapply dispatches_app; [by apply dispatches_users|].
  eapply dispatches_cons; [|apply dispatches_nil].
  eapply runs_callAndReject; [done..| |].
  - by rewrite list_lookup_insert_ne.
  - unfold quiet in *. by rewrite list_lookup_insert_ne.
Qed.

End Then.

Section ThenHeaps.
Variable u : nat → val → outcome.

Lemma fulfilled_with_insert (h : heap) r pr v :
  r < length h → fulfilled_with (<[r := OPromise (fulfilled_rec pr v)]> h) r v.
Proof. intros Hr. eexists. by rewrite list_lookup_insert_eq. Qed.

Lemma rejected_with_insert (h : heap) r pr e :
  r < length h → rejected_with (<[r := OPromise (rejected_rec pr e)]> h) r e.
Proof. intros Hr. eexists. by rewrite list_lookup_insert_eq. Qed.

Lemma fulfilled_with_insert_ne (h : heap) r p o v :
  r ≠ p → fulfilled_with h p v → fulfilled_with (<[r := o]> h) p v.
Proof. intros Hne (pr & ? & ?). exists pr. by rewrite list_lookup_insert_ne. Qed.

Lemma rejected_with_insert_ne (h : heap) r p o v :
  r ≠ p → rejected_with h p v → rejected_with (<[r := o]> h) p v.
Proof. intros Hne (pr & ? & ?). exists pr. by rewrite list_lookup_insert_ne. Qed.

(** The heap that [then] leaves when called on a quiet promise. *)
Lemma then_on_quiet h p s f :
  quiet h p = true →
  ∃ h1 pr1 cbs ebs,
    runs u (Call_then p s f) h h1 (Return (VPromise (length h))) ∧
    h1 !! p = Some (OPromise pr1) ∧ _state pr1 = PENDING ∧
    _callbacks pr1 = Some (cbs ++ [VFun (CallAndFulfill (length h) s)]) ∧
    _errbacks pr1 = Some (ebs ++ [VFun (CallAndReject (length h) f)]) ∧
    forallb is_UserFn cbs = true ∧ forallb is_UserFn ebs = true ∧
    p < length h ∧ length h1 = S (length h) ∧
    h1 !! length h = Some (OPromise new_Promise).
Proof.
  intros (v & r & cbs & ebs & Hp & Hcbs & Hebs)%quiet_inv.
  pose proof (lookup_lt_Some _ _ _ Hp) as Hlt.
  eexists _, _, cbs, ebs. split; [by eapply then_on_pending|].
  split.
  { apply list_lookup_insert_eq. rewrite length_insert, length_app. lia. }
  repeat split; try done.
  - rewrite !length_insert, length_app. simpl. lia.
  - rewrite !list_lookup_insert_ne by lia. apply lookup_alloc.
Qed.

End ThenHeaps.

(** ** Adopting a thenable *)

(** [feeds h x y]: [x] is pending and the last reactions on its two lists are
    [y.fulfill] and [y.reject] (what [y.fulfill(x)] registers); the reactions
    before them are functions of the caller. *)
Definition feeds (h : heap) (x y : ref) : Prop :=
  ∃ pr cbs ebs,
    h !! x = Some (OPromise pr) ∧ _state pr = PENDING ∧
    _callbacks pr = Some (cbs ++ [VFun (BoundFulfill y)]) ∧
    _errbacks pr = Some (ebs ++ [VFun (BoundReject y)]) ∧
    forallb is_UserFn cbs = true ∧ forallb is_UserFn ebs = true.

(** A chain of adoptions, source first: each promise feeds the next, and the
    last one has only reactions of the caller. *)
Fixpoint chain (h : heap) (l : list ref) : Prop :=
  match l with
  | [] => True
  | x :: l' =>
      match l' with
      | [] => quiet h x = true
      | y :: _ => feeds h x y ∧ chain h l'
      end
  end.

(** Top-level calls made one after the other, each returning normally. *)
Inductive runs_all (u : nat → val → outcome) : list call → heap → heap → Prop :=
| runs_all_nil h : runs_all u [] h h
| runs_all_cons c cs h h1 w h' :
    runs u c h h1 (Return w) → runs_all u cs h1 h' → runs_all u (c :: cs) h h'.

(** x0.fulfill(x1); x1.fulfill(x2); ... for the promises [x0; x1; x2; ...] *)
Fixpoint adopt_calls (l : list ref) : list call :=
  match l with
  | x :: l' =>
      match l' with
      | [] => []
      | y :: _ => Call_fulfill x (VPromise y) :: adopt_calls l'
      end
  | [] => []
  end.

Lemma quiet_insert_ne (h : heap) r o x :
  r ≠ x → quiet (<[r := o]> h) x = quiet h x.
Proof. intros Hne. unfold quiet. by rewrite list_lookup_insert_ne. Qed.

Lemma feeds_insert_ne (h : heap) r o x y :
  r ≠ x → feeds h x y → feeds (<[r := o]> h) x y.
Proof.
  intros Hne (pr & cbs & ebs & Hx & H). exists pr, cbs, ebs.
  by rewrite list_lookup_insert_ne.
Qed.

Lemma chain_insert_ne (h : heap) r o l :
  r ∉ l → chain h l → chain (<[r := o]> h) l.
Proof.
  induction l as [|x [|y l'] IH]; [done| |].
  - intros [Hr _]%not_elem_of_cons Hq. simpl in *. by rewrite quiet_insert_ne.
  - intros Hr [Hf Hc]. split.
    + apply feeds_insert_ne; [|done]. set_solver.
    + apply IH; [|done]. set_solver.
Qed.

Lemma chain_head_pending h x l : chain h (x :: l) → pending h x.
Proof.
  destruct l as [|y l]; simpl.
  - apply quiet_pending.
  - intros [(pr & cbs & ebs & Hx & Hs & _) _]. by exists pr.
Qed.

Lemma chain_pending h l x : chain h l → x ∈ l → pending h x.
Proof.
  induction l as [|y l IH]; [by intros _ ?%elem_of_nil|].
  intros Hc [->|Hx]%elem_of_cons; [by eapply chain_head_pending|].
  apply IH; [|done]. destruct l; [by apply elem_of_nil in Hx|]. by destruct Hc.
Qed.

Section Chains.
Variable u : nat → val → outcome.

(** Fulfilling the source of a chain with a plain value fulfills the whole
    chain with it and touches nothing else. *)
Lemma chain_fulfill l : ∀ x h V,
  chain h (x :: l) → NoDup (x :: l) → plain V = true →
  ∃ h', runs u (Call_fulfill x V) h h' (Return VNone) ∧
        (∀ y, y ∈ x :: l → fulfilled_with h' y V) ∧
        (∀ r, r ∉ x :: l → h' !! r = h !! r) ∧
        length h' = length h.
Proof.
  induction l as [|y l IH]; intros x h V Hc Hnd HV.
  - simpl in Hc. destruct (quiet_inv _ _ Hc) as (v & r & cbs & ebs & Hx & _).
    eexists. split; [by eapply runs_fulfill_quiet|].
    apply lookup_lt_Some in Hx as Hlt. split; [|split].
    + intros y ->%list_elem_of_singleton. by apply fulfilled_with_insert.
    + intros r' Hr. apply list_lookup_insert_ne. set_solver.
    + apply length_insert.
  - destruct Hc as [(pr & cbs & ebs & Hx & Hs & Hcb & Heb & Hcbs & Hebs) Hc].
    apply NoDup_cons in Hnd as [Hxl Hnd].
    apply lookup_lt_Some in Hx as Hlt.
    destruct (IH y (<[x := OPromise (fulfilled_rec pr V)]> h) V)
      as (h2 & Hrun & Hful & Hframe & Hlen); [by apply chain_insert_ne|done..|].
    exists h2. split; [|split; [|split]].
    + apply runs_fulfill_plain; [done|].
      eapply runs__fulfill_pending; [done..|].
      eapply dispatches_app; [by apply dispatches_users|].
      eapply dispatches_cons; [|apply dispatches_nil].
      by apply runs_apply_BoundFulfill.
    + intros z [->|Hz]%elem_of_cons; [|by apply Hful].
      exists (fulfilled_rec pr V). rewrite Hframe by done.
      by rewrite list_lookup_insert_eq.
    + intros r Hr. rewrite Hframe by set_solver.
      apply list_lookup_insert_ne. set_solver.
    + by rewrite Hlen, length_insert.
Qed.

(** Rejecting the source rejects the whole chain with the same reason. *)
Lemma chain_reject l : ∀ x h R,
  chain h (x :: l) → NoDup (x :: l) →
  ∃ h', runs u (Call_reject x R) h h' (Return VNone) ∧
        (∀ y, y ∈ x :: l → rejected_with h' y R) ∧
        (∀ r, r ∉ x :: l → h' !! r = h !! r) ∧
        length h' = length h.
Proof.
  induction l as [|y l IH]; intros x h R Hc Hnd.
  - simpl in Hc. destruct (quiet_inv _ _ Hc) as (v & r & cbs & ebs & Hx & _).
    eexists. split; [by eapply runs_reject_quiet|].
    apply lookup_lt_Some in Hx as Hlt. split; [|split].
    + intros y ->%list_elem_of_singleton. by apply rejected_with_insert.
    + intros r' Hr. apply list_lookup_insert_ne. set_solver.
    + apply length_insert.
  - destruct Hc as [(pr & cbs & ebs & Hx & Hs & Hcb & Heb & Hcbs & Hebs) Hc].
    apply NoDup_cons in Hnd as [Hxl Hnd].
    apply lookup_lt_Some in Hx as Hlt.
    destruct (IH y (<[x := OPromise (rejected_rec pr R)]> h) R)
      as (h2 & Hrun & Hrej & Hframe & Hlen); [by apply chain_insert_ne|done..|].
    exists h2. split; [|split; [|split]].
    + eapply runs_reject_pending; [done..|].
      eapply dispatches_app; [by apply dispatches_users|].
      eapply dispatches_cons; [|apply dispatches_nil].
      by apply runs_apply_BoundReject.
    + intros z [->|Hz]%elem_of_cons; [|by apply Hrej].
      exists (rejected_rec pr R). rewrite Hframe by done.
      by rewrite list_lookup_insert_eq.
    + intros r Hr. rewrite Hframe by set_solver.
      apply list_lookup_insert_ne. set_solver.
    + by rewrite Hlen, length_insert.
Qed.

End Chains.

Section Adoption.
Variable u : nat → val → outcome.

(** [fulfill] with any promise-like value other than the promise itself:
    adapt it, then subscribe both bound methods to the adapted promise. *)
Lemma runs_fulfill_thenable p x h q h1 h2 w :
  is_ p x = false → _isPromise x = true →
  runs u (Call_promisify x) h h1 (Return (VPromise q)) →
  runs u (Call_done q (VFun (BoundFulfill p)) (VFun (BoundReject p))) h1 h2
       (Return w) →
  runs u (Call_fulfill p x) h h2 (Return w).
Proof.
  intros Hself Hx [n1 H1] [n2 H2]. apply runs_step. exists (n1 + n2).
  intros m Hm. simpl step. unfold fulfill. rewrite Hself, Hx.
  unfold try_except, bind. rewrite H1 by lia. simpl. by rewrite H2 by lia.
Qed.

(** Registering [y.fulfill] and [y.reject] on a pending promise [x]. *)
Lemma runs_done_pending x f g h pr cbs ebs :
  h !! x = Some (OPromise pr) → _state pr = PENDING →
  _callbacks pr = Some cbs → _errbacks pr = Some ebs →
  _isFunction f = true → _isFunction g = true →
  runs u (Call_done x f g) h
       (<[x := OPromise (add_errback (add_callback pr f) g)]>
          (<[x := OPromise (add_callback pr f)]> h))
       (Return VNone).
Proof.
  intros Hx Hs Hc He Hf Hg. eapply runs_done; [done..| |].
  - by eapply runs_addCallback_pending.
  - eapply runs_addErrback_pending; [|done..].
    apply list_lookup_insert_eq. by eapply lookup_lt_Some.
Qed.

(** [y.fulfill(x)] for a quiet [x]: afterwards [x] feeds [y], and nothing
    else has changed. *)
Lemma adopt_quiet h y x :
  y ≠ x → quiet h x = true →
  ∃ h1, runs u (Call_fulfill y (VPromise x)) h h1 (Return VNone) ∧
        feeds h1 x y ∧ length h1 = length h ∧
        (∀ r, r ≠ x → h1 !! r = h !! r).
Proof.
  intros Hne (v & r & cbs & ebs & Hx & Hcbs & Hebs)%quiet_inv.
  apply lookup_lt_Some in Hx as Hlt.
  eexists. split; [|split; [|split]].
  - apply runs_fulfill_Promise; [done|]. by eapply runs_done_pending.
  - eexists _, cbs, ebs. split.
    { apply list_lookup_insert_eq. by rewrite length_insert. }
    done.
  - by rewrite !length_insert.
  - intros r' Hr. by rewrite !list_lookup_insert_ne.
Qed.

Lemma chain_frame h h' l :
  (∀ r, r ∈ l → h' !! r = h !! r) → chain h l → chain h' l.
Proof.
  induction l as [|x [|y l'] IH]; [done| |]; intros Heq.
  - simpl. unfold quiet. rewrite Heq; [done|]. apply list_elem_of_here.
  - intros [(pr & cbs & ebs & Hx & H) Hc]. split.
    + exists pr, cbs, ebs. rewrite Heq; [done|]. apply list_elem_of_here.
    + apply IH; [|done]. intros r Hr. apply Heq. by apply list_elem_of_further.
Qed.

(** Building a chain: x0.fulfill(x1); x1.fulfill(x2); ... on quiet promises
    leaves the heap with the chain [...; x2; x1; x0]. *)
Lemma build_chain rest : ∀ y acc h,
  chain h (y :: acc) → (∀ x, x ∈ rest → quiet h x = true) →
  NoDup rest → (∀ x, x ∈ rest → x ∉ y :: acc) →
  ∃ h', runs_all u (adopt_calls (y :: rest)) h h' ∧
        chain h' (reverse rest ++ y :: acc) ∧ length h' = length h.
Proof.
  induction rest as [|z rest IH]; intros y acc h Hc Hq Hnd Hfresh.
  - exists h. split; [constructor|done].
  - apply NoDup_cons in Hnd as [Hz Hnd].
    destruct (adopt_quiet h y z) as (h1 & Hrun & Hfeeds & Hlen & Hframe).
    { intros ->. eapply Hfresh; apply list_elem_of_here. }
    { apply Hq, list_elem_of_here. }
    destruct (IH z (y :: acc) h1) as (h' & Hruns & Hchain & Hlen'); [| |done| |].
    + split; [done|]. eapply chain_frame; [|done].
      intros r Hr. apply Hframe. intros ->.
      by eapply (Hfresh z); [apply list_elem_of_here|].
    + intros x Hx. unfold quiet. rewrite Hframe by (intros ->; done).
      apply Hq. by apply list_elem_of_further.
    + intros x Hx [->|Hin]%elem_of_cons; [done|].
      by eapply (Hfresh x); [apply list_elem_of_further|].
    + exists h'. split; [by econstructor|]. split; [|congruence].
      by rewrite reverse_cons, <-app_assoc.
Qed.

End Adoption.

Section Foreign.
Variable u : nat → val → outcome.

(** Adapting a foreign thenable: a fresh promise is created and its two
    bound methods are handed to the thenable's [done] ([then] when it has no
    [done]). *)
Lemma runs_promisify_foreign h b d t regs :
  d || t = true → h !! b = Some (OForeign regs) →
  runs u (Call_promisify (VForeign b d t)) h
       (<[b := OForeign (regs ++ [(if d then ByDone else ByThen,
                                   VFun (BoundFulfill (length h)),
                                   VFun (BoundReject (length h)))])]>
          (h ++ [OPromise new_Promise]))
       (Return (VPromise (length h))).
Proof.
  intros Hdt Hb. apply runs_step. exists 0. intros m _. simpl.
  unfold _promisify. simpl.
  destruct d, t; try done; simpl;
    unfold bind, Promise_new, foreign_register;
    by rewrite (lookup_app_l_Some _ _ _ _ Hb).
Qed.

Lemma adopt_foreign h A b d t regs :
  d || t = true → h !! b = Some (OForeign regs) →
  ∃ h1, runs u (Call_fulfill A (VForeign b d t)) h h1 (Return VNone) ∧
        h1 !! b = Some (OForeign
          (regs ++ [(if d then ByDone else ByThen,
                     VFun (BoundFulfill (length h)),
                     VFun (BoundReject (length h)))])) ∧
        feeds h1 (length h) A ∧
        (∀ r, r ≠ b → r < length h → h1 !! r = h !! r) ∧
        length h1 = S (length h).
Proof.
  intros Hdt Hb. apply lookup_lt_Some in Hb as Hlt.
  set (h0 := <[b := OForeign (regs ++ [(if d then ByDone else ByThen,
                                   VFun (BoundFulfill (length h)),
                                   VFun (BoundReject (length h)))])]>
          (h ++ [OPromise new_Promise])).
  assert (h0 !! length h = Some (OPromise new_Promise)) as Hnew.
  { unfold h0. rewrite list_lookup_insert_ne by lia. apply lookup_alloc. }
  assert (length h0 = S (length h)) as Hlen0.
  { unfold h0. rewrite length_insert, length_app. simpl. lia. }
  eexists. split; [|split; [|split; [|split]]].
  - eapply runs_fulfill_thenable; [done| |by apply runs_promisify_foreign|].
    { unfold _isPromise. simpl. by destruct d, t. }
    by eapply runs_done_pending.
  - do 2 rewrite list_lookup_insert_ne by lia.
    apply list_lookup_insert_eq. rewrite length_app. lia.
  - eexists _, [], []. split.
    { apply list_lookup_insert_eq. rewrite length_insert. fold h0. lia. }
    done.
  - intros r Hr Hrlt. do 2 rewrite list_lookup_insert_ne by lia.
    rewrite list_lookup_insert_ne by done. by apply lookup_app_l.
  - rewrite !length_insert, length_app. simpl. lia.
Qed.

Lemma NoDup_chain_reverse (A S : ref) mid :
  NoDup (A :: mid ++ [S]) → NoDup (S :: reverse mid ++ [A]).
Proof.
  intros H.
  assert (S :: reverse mid ++ [A] ≡ₚ A :: mid ++ [S]) as ->; [|done].
  rewrite reverse_Permutation.
  rewrite <-(Permutation_cons_append mid A), <-(Permutation_cons_append mid S).
  apply perm_swap.
Qed.

Lemma elem_of_chain_reverse (A S x : ref) mid :
  x ∈ A :: mid ++ [S] → x ∈ S :: reverse mid ++ [A].
Proof.
  rewrite !elem_of_cons, !elem_of_app, elem_of_reverse, !list_elem_of_singleton.
  naive_solver.
Qed.

End Foreign.

(** ** The sequence combinator on fulfilled inputs *)

(** [awaits h p f g]: [p] is pending and the last reactions on its two lists
    are [f] and [g]; the reactions before them are functions of the caller. *)
Definition awaits (h : heap) (p : ref) (f g : val) : Prop :=
  ∃ pr cbs ebs,
    h !! p = Some (OPromise pr) ∧ _state pr = PENDING ∧
    _callbacks pr = Some (cbs ++ [f]) ∧ _errbacks pr = Some (ebs ++ [g]) ∧
    forallb is_UserFn cbs = true ∧ forallb is_UserFn ebs = true.

(** p.fulfill(v) for each pair, in the order of the list *)
Definition fulfill_calls (l : list (ref * val)) : list call :=
  (λ pv, Call_fulfill pv.1 pv.2) <$> l.

Lemma runs_all_app u cs1 cs2 h h1 h2 :
  runs_all u cs1 h h1 → runs_all u cs2 h1 h2 → runs_all u (cs1 ++ cs2) h h2.
Proof.
  induction 1 as [|c cs h h' w h1 Hc Hcs IH]; intros H2; [done|].
  simpl. econstructor; [done|]. by apply IH.
Qed.

Lemma map_value_fulfilled (inputs : list (ref * val)) (h : heap) : ∀ acc,
  Forall (λ pv, fulfilled_with h pv.1 pv.2) inputs →
  map_value (VPromise <$> inputs.*1) acc h =
  Some (h, Return (VList (acc ++ inputs.*2))).
Proof.
  induction inputs as [|[p v] inputs IH]; intros acc Hall; simpl.
  - by rewrite app_nil_r.
  - apply Forall_cons in Hall as [(pr & Hp & _ & Hv) Hall]. simpl in *.
    unfold bind. simpl. rewrite Hp, Hv, IH by done. by rewrite <-app_assoc.
Qed.

Section Sequence.
Variable u : nat → val → outcome.
(** the inputs with the values they are fulfilled with, the result promise
    and the latch of one call of [listPromise] *)
Variable inputs : list (ref * val).
Variables ret ctr : ref.

Definition hs : val := VFun (HandleSuccess ret ctr (VPromise <$> inputs.*1)).
Definition rj : val := VFun (BoundReject ret).

(** [loops l h h']: the registration loop of [listPromise] over [l]. *)
Definition loops (l : list val) (h h' : heap) : Prop :=
  ∃ n, ∀ m, n ≤ m →
    listPromise_loop (exec u m) hs rj l h = Some (h', Return VNone).

Lemma loops_nil h : loops [] h h.
Proof. by exists 0. Qed.

Lemma loops_cons p l h h1 w h' :
  runs u (Call_done p hs rj) h h1 (Return w) → loops l h1 h' →
  loops (VPromise p :: l) h h'.
Proof.
  intros [n1 H1] [n2 H2]. destruct (runs_promisify_Promise u p h) as [n0 H0].
  exists (n0 + n1 + n2). intros m Hm. simpl. unfold bind. simpl.
  rewrite H0 by lia. simpl. rewrite H1 by lia. apply H2. lia.
Qed.

(** the heap after [handleSuccess] has run with the latch at [k] *)
Definition after_success (h : heap) (k : Z) : heap :=
  if bool_decide (k - 1 = 0)%Z
  then <[ret := OPromise (fulfilled_rec new_Promise (VList inputs.*2))]>
         (<[ctr := OLatch 0]> h)
  else <[ctr := OLatch (k - 1)]> h.

Lemma runs_handleSuccess h k x :
  h !! ctr = Some (OLatch k) → (0 < k)%Z → ret ≠ ctr →
  ((k - 1 = 0)%Z →
   Forall (λ pv, fulfilled_with h pv.1 pv.2) inputs ∧
   h !! ret = Some (OPromise new_Promise)) →
  runs u (Call_apply hs x) h (after_success h k) (Return VNone).
Proof.
  intros Hc Hk Hne Hlast. unfold after_success. case_bool_decide as Hz.
  - destruct (Hlast Hz) as [Hall Hret].
    assert (Forall (λ pv, fulfilled_with (<[ctr := OLatch 0]> h) pv.1 pv.2)
              inputs) as Hall'.
    { eapply Forall_impl; [done|]. intros [p v] (pr & Hp & Hs). simpl in *.
      exists pr. split; [|done]. rewrite list_lookup_insert_ne; [done|].
      intros <-. congruence. }
    destruct (runs_fulfill_quiet u ret (VList inputs.*2)
                (<[ctr := OLatch 0]> h) new_Promise) as [n H].
    { by rewrite list_lookup_insert_ne. }
    { unfold quiet. by rewrite list_lookup_insert_ne, Hret. }
    { done. }
    apply runs_step. exists n. intros m Hm. simpl.
    unfold handleSuccess, bind, dec. rewrite Hc.
    rewrite bool_decide_eq_true_2 by done. rewrite Hz.
    rewrite map_value_fulfilled by done. simpl. by rewrite H by lia.
  - apply runs_step. exists 0. intros m _. simpl.
    unfold handleSuccess, bind, dec. rewrite Hc.
    rewrite bool_decide_eq_true_2 by done.
    by destruct (k - 1)%Z.
Qed.

(** Which inputs are fulfilled only after the call of [listPromise]. *)
Variable late : ref → bool.

(** The state of one run of [listPromise] while the result is pending:
    [rest] are the inputs the loop has not reached, [reg] the pending inputs
    it has registered on, and the latch counts both (plus [d] reactions that
    are about to run). *)
Record Waiting (d : nat) (h : heap) (rest reg : list (ref * val)) : Prop := {
  w_latch :
    h !! ctr = Some (OLatch (Z.of_nat (length rest + length reg + d)));
  w_ret : h !! ret = Some (OPromise new_Promise);
  w_reg : ∀ p v, (p, v) ∈ reg → awaits h p hs rj ∧ plain v = true;
  w_rest : ∀ p v, (p, v) ∈ rest →
    if late p then quiet h p = true ∧ plain v = true else fulfilled_with h p v;
  w_all :
    Forall (λ pv, fulfilled_with h pv.1 pv.2 ∨ pv ∈ reg ∨ pv ∈ rest) inputs;
  w_nodup : NoDup (rest ++ reg).*1;
  w_fresh : ∀ p v, (p, v) ∈ rest ++ reg → p ≠ ret ∧ p ≠ ctr
}.

Definition Finished (h : heap) : Prop := fulfilled_with h ret (VList inputs.*2).

Definition State (h : heap) (rest reg : list (ref * val)) : Prop :=
  (rest ++ reg = [] ∧ Finished h) ∨ (rest ++ reg ≠ [] ∧ Waiting 0 h rest reg).

Lemma awaits_insert_ne (h : heap) r o p f g :
  r ≠ p → awaits h p f g → awaits (<[r := o]> h) p f g.
Proof.
  intros Hne (pr & cbs & ebs & Hx & H). exists pr, cbs, ebs.
  by rewrite list_lookup_insert_ne.
Qed.

Lemma Waiting_ret_ne_ctr d h rest reg : Waiting d h rest reg → ret ≠ ctr.
Proof. intros [Hl Hr _ _ _ _ _] Heq. rewrite Heq in Hr. congruence. Qed.

(** A change of the heap at a reference that is no input still awaited. *)
Lemma Waiting_frame d d' h rest reg r o :
  Waiting d h rest reg →
  <[r := o]> h !! ctr
  = Some (OLatch (Z.of_nat (length rest + length reg + d'))) →
  r ≠ ret → (∀ p v, (p, v) ∈ rest ++ reg → r ≠ p) →
  (∀ p v, fulfilled_with h p v → fulfilled_with (<[r := o]> h) p v) →
  Waiting d' (<[r := o]> h) rest reg.
Proof.
  intros [Hl Hr Hreg Hrest Hall Hnd Hfr] Hl' Hret Hne Hful. split; try done.
  - by rewrite list_lookup_insert_ne.
  - intros p v Hin. destruct (Hreg p v Hin). split; [|done].
    apply awaits_insert_ne; [|done]. eapply Hne. apply elem_of_app; eauto.
  - intros p v Hin. specialize (Hrest p v Hin).
    destruct (late p); [|by apply Hful].
    rewrite quiet_insert_ne; [done|]. eapply Hne. apply elem_of_app; eauto.
  - eapply Forall_impl; [done|]. intros [p v] [H|H]; [left|by right].
    by apply Hful.
Qed.

(** The loop reaches an input that is already fulfilled. *)
Lemma Waiting_head_fulfilled h p v rest reg :
  Waiting 0 h ((p, v) :: rest) reg → late p = false → Waiting 1 h rest reg.
Proof.
  intros [Hl Hr Hreg Hrest Hall Hnd Hfr] Hlate. split; try done.
  - rewrite Hl. do 3 f_equal. simpl. lia.
  - intros q w Hin. apply Hrest. by apply list_elem_of_further.
  - eapply Forall_impl; [done|]. intros [q w] [H|[H|H]]; auto.
    apply elem_of_cons in H as [[= -> ->]|H]; auto.
    left. specialize (Hrest p v (list_elem_of_here _ _)). by rewrite Hlate in Hrest.
  - simpl in Hnd. by apply NoDup_cons in Hnd as [_ ?].
  - intros q w Hin. apply (Hfr q w). by apply list_elem_of_further.
Qed.

(** The loop reaches an input that is still pending and registers on it. *)
Lemma Waiting_head_registered h p v pr rest reg :
  Waiting 0 h ((p, v) :: rest) reg → late p = true →
  h !! p = Some (OPromise pr) →
  Waiting 0 (<[p := OPromise (add_errback (add_callback pr hs) rj)]> h)
          rest (reg ++ [(p, v)]).
Proof.
  intros [Hl Hr Hreg Hrest Hall Hnd Hfr] Hlate Hp.
  pose proof (Hrest p v (list_elem_of_here _ _)) as Hq. rewrite Hlate in Hq.
  destruct Hq as [Hq Hv].
  destruct (quiet_inv _ _ Hq) as (v0 & r0 & cbs & ebs & Hp' & Hcbs & Hebs).
  rewrite Hp in Hp'. injection Hp' as ->.
  destruct (Hfr p v (list_elem_of_here _ _)) as [Hpret Hpctr].
  simpl in Hnd. apply NoDup_cons in Hnd as [Hpnd Hnd].
  assert (∀ q w, (q, w) ∈ rest ++ reg → p ≠ q) as Hne.
  { intros q w Hin ->. apply Hpnd. apply list_elem_of_fmap. by exists (q, w). }
  assert (∀ q w, fulfilled_with h q w →
            fulfilled_with (<[p := OPromise (add_errback (add_callback
              (mkPromise PENDING v0 r0 (Some cbs) (Some ebs)) hs) rj)]> h) q w)
    as Hful.
  { intros q w (pr' & Hq' & Hs & Hw). exists pr'.
    rewrite list_lookup_insert_ne; [done|]. intros <-. by simplify_eq. }
  split.
  - rewrite list_lookup_insert_ne by done. rewrite Hl. do 3 f_equal.
    rewrite length_app. simpl. lia.
  - by rewrite list_lookup_insert_ne.
  - intros q w [Hin|[= -> ->]%list_elem_of_singleton]%elem_of_app.
    + destruct (Hreg q w Hin). split; [|done].
      apply awaits_insert_ne; [|done]. eapply Hne. apply elem_of_app; eauto.
    + split; [|done]. eexists _, cbs, ebs. split.
      { apply list_lookup_insert_eq. by eapply lookup_lt_Some. }
      done.
  - intros q w Hin. specialize (Hrest q w (list_elem_of_further _ _ _ Hin)).
    destruct (late q); [|by apply Hful].
    rewrite quiet_insert_ne; [done|]. eapply Hne. apply elem_of_app; eauto.
  - eapply Forall_impl; [done|]. intros [q w] [H|[H|H]].
    + left. by apply Hful.
    + right; left. apply elem_of_app; auto.
    + apply elem_of_cons in H as [->|H]; [|auto].
      right; left. apply elem_of_app. right. apply list_elem_of_here.
  - rewrite app_assoc, fmap_app. simpl. apply NoDup_app. split; [done|].
    split; [|apply NoDup_singleton].
    intros q Hq' ->%list_elem_of_singleton. done.
  - intros q w Hin. apply (Hfr q w). rewrite app_assoc in Hin.
    apply elem_of_app in Hin as [Hin|[= -> ->]%list_elem_of_singleton];
      [by apply list_elem_of_further|apply list_elem_of_here].
Qed.

(** A registered input is fulfilled: it leaves the awaited ones, and its
    [handleSuccess] is about to run. *)
Lemma Waiting_registered_fulfilled h p v pr reg :
  Waiting 0 h [] ((p, v) :: reg) → h !! p = Some (OPromise pr) →
  Waiting 1 (<[p := OPromise (fulfilled_rec pr v)]> h) [] reg.
Proof.
  intros HW Hp. pose proof HW as [Hl Hr Hreg Hrest Hall Hnd Hfr].
  destruct (Hfr p v (list_elem_of_here _ _)) as [Hpret Hpctr].
  simpl in Hnd. apply NoDup_cons in Hnd as [Hpnd Hnd].
  destruct (Hreg p v (list_elem_of_here _ _)) as [(pr' & _ & _ & Hp' & Hs & _) _].
  rewrite Hp in Hp'. injection Hp' as <-.
  assert (∀ q w, fulfilled_with h q w →
            fulfilled_with (<[p := OPromise (fulfilled_rec pr v)]> h) q w)
    as Hful.
  { intros q w (pr' & Hq' & Hs' & Hw). exists pr'.
    rewrite list_lookup_insert_ne; [done|]. intros <-. simplify_eq. congruence. }
  split.
  - rewrite list_lookup_insert_ne by done. rewrite Hl. do 3 f_equal.
    simpl. lia.
  - by rewrite list_lookup_insert_ne.
  - intros q w Hin. destruct (Hreg q w (list_elem_of_further _ _ _ Hin)).
    split; [|done]. apply awaits_insert_ne; [|done].
    intros <-. apply Hpnd. apply list_elem_of_fmap. by exists (p, w).
  - by intros q w Hin%elem_of_nil.
  - eapply Forall_impl; [done|]. intros [q w] [H|[H|H]].
    + left. by apply Hful.
    + apply elem_of_cons in H as [[= -> ->]|H]; [|auto].
      left. apply fulfilled_with_insert. by eapply lookup_lt_Some.
    + by apply elem_of_nil in H.
  - done.
  - intros q w Hin. apply (Hfr q w). by apply list_elem_of_further.
Qed.

Lemma Waiting_runs_success h rest reg x :
  Waiting 1 h rest reg →
  runs u (Call_apply hs x) h
       (after_success h (Z.of_nat (length rest + length reg + 1)))
       (Return VNone).
Proof.
  intros HW. pose proof HW as [Hl Hr Hreg Hrest Hall Hnd Hfr].
  apply runs_handleSuccess; [done|lia|by eapply Waiting_ret_ne_ctr|].
  intros Hz. split; [|done].
  destruct rest; [|simpl in Hz; lia]. destruct reg; [|simpl in Hz; lia].
  eapply Forall_impl; [done|].
  intros pv [H|[H%elem_of_nil|H%elem_of_nil]]; done.
Qed.

(** After [handleSuccess]: the result is fulfilled with the values in input
    order when nothing is awaited any more, and untouched otherwise. *)
Lemma Waiting_after_success h rest reg :
  Waiting 1 h rest reg →
  State (after_success h (Z.of_nat (length rest + length reg + 1))) rest reg.
Proof.
  intros HW. pose proof HW as [Hl Hr Hreg Hrest Hall Hnd Hfr].
  pose proof (Waiting_ret_ne_ctr _ _ _ _ HW) as Hne.
  unfold after_success. case_bool_decide as Hz.
  - left. destruct rest; [|simpl in Hz; lia]. destruct reg; [|simpl in Hz; lia].
    split; [done|]. apply fulfilled_with_insert. rewrite length_insert.
    by eapply lookup_lt_Some.
  - right. split.
    { intros Hnil. apply Hz. rewrite <-(length_app rest reg), Hnil. simpl. lia. }
    eapply Waiting_frame; [done| |done| |].
    + rewrite list_lookup_insert_eq by (by eapply lookup_lt_Some).
      do 2 f_equal. lia.
    + intros p v Hin. by destruct (Hfr p v Hin).
    + intros p v (pr & Hp & Hs). exists pr.
      rewrite list_lookup_insert_ne; [done|]. intros <-. congruence.
Qed.

Lemma Waiting_Permutation d h rest reg reg' :
  reg ≡ₚ reg' → Waiting d h rest reg → Waiting d h rest reg'.
Proof.
  intros Hp [Hl Hr Hreg Hrest Hall Hnd Hfr]. split; try done.
  - by rewrite <-Hp.
  - intros p v Hin. apply Hreg. by rewrite Hp.
  - eapply Forall_impl; [done|]. intros pv [H|[H|H]]; auto.
    right; left. by rewrite <-Hp.
  - by rewrite <-Hp.
  - intros p v Hin. apply (Hfr p v). by rewrite Hp.
Qed.

Lemma State_Permutation h rest reg reg' :
  reg ≡ₚ reg' → State h rest reg → State h rest reg'.
Proof.
  intros Hp [[Hnil HF]|[Hne HW]].
  - left. split; [|done]. apply app_eq_nil in Hnil as [-> ->].
    by apply Permutation_nil_l in Hp as <-.
  - right. split; [|by eapply Waiting_Permutation].
    intros [-> ->]%app_eq_nil. apply Permutation_nil_r in Hp as ->. by apply Hne.
Qed.

Lemma after_success_lookup_ne h k p :
  p ≠ ret → p ≠ ctr → after_success h k !! p = h !! p.
Proof.
  intros H1 H2. unfold after_success.
  case_bool_decide; by rewrite !list_lookup_insert_ne.
Qed.

(** The registration loop, from any state the loop can be in. *)
Lemma registration_loop rest : ∀ reg h,
  State h rest reg →
  ∃ h', loops (VPromise <$> rest.*1) h h' ∧
        State h' [] (reg ++ filter (λ pv, late pv.1 = true) rest).
Proof.
  induction rest as [|[p v] rest IH]; intros reg h HS.
  - exists h. split; [apply loops_nil|]. by rewrite filter_nil, app_nil_r.
  - destruct HS as [[Hnil _]|[_ HW]]; [done|].
    pose proof HW as [Hl Hr Hreg Hrest Hall Hnd Hfr].
    destruct (Hfr p v (list_elem_of_here _ _)) as [Hpret Hpctr].
    pose proof (Hrest p v (list_elem_of_here _ _)) as Hp.
    destruct (late p) eqn:Hlate.
    + destruct Hp as [Hq Hv].
      destruct (quiet_inv _ _ Hq) as (v0 & r0 & cbs & ebs & Hp & Hcbs & Hebs).
      pose proof (Waiting_head_registered _ _ _ _ _ _ HW Hlate Hp) as HW'.
      destruct (IH (reg ++ [(p, v)])
                  (<[p := OPromise (add_errback (add_callback
                     (mkPromise PENDING v0 r0 (Some cbs) (Some ebs)) hs) rj)]> h))
        as (h' & Hloop & HS').
      { right. split; [by destruct rest, reg|done]. }
      exists h'. split.
      * eapply loops_cons; [|done].
        rewrite <-(list_insert_insert_eq h p _
                     (OPromise (add_callback
                        (mkPromise PENDING v0 r0 (Some cbs) (Some ebs)) hs))).
        by eapply runs_done_pending.
      * rewrite filter_cons_True by done. by rewrite <-app_assoc in HS'.
    + destruct Hp as (pr & Hp & Hs & Hv).
      pose proof (Waiting_head_fulfilled _ _ _ _ _ HW Hlate) as HW1.
      destruct (IH reg _ (Waiting_after_success _ _ _ HW1))
        as (h' & Hloop & HS').
      exists h'. split.
      * eapply loops_cons; [|done]. eapply runs_done; [done..| |].
        -- eapply (runs_addCallback_fulfilled u p _ _ pr _ (Return VNone));
             [done..|]. by apply Waiting_runs_success.
        -- eapply (runs_addErrback_fulfilled u p _ _ pr); [|done..].
           by rewrite after_success_lookup_ne.
      * rewrite filter_cons_False; [done|]. simpl. by rewrite Hlate.
Qed.

(** Fulfilling the registered inputs, in the order of the list. *)
Lemma fulfill_registered reg : ∀ h,
  State h [] reg →
  ∃ h', runs_all u (fulfill_calls reg) h h' ∧ Finished h'.
Proof.
  induction reg as [|[p v] reg IH]; intros h HS.
  - destruct HS as [[_ HF]|[Hne _]]; [|done]. exists h. split; [constructor|done].
  - destruct HS as [[Hnil _]|[_ HW]]; [done|].
    pose proof HW as [Hl Hr Hreg Hrest Hall Hnd Hfr].
    destruct (Hreg p v (list_elem_of_here _ _))
      as [(pr & cbs & ebs & Hp & Hs & Hcb & Heb & Hcbs & Hebs) Hv].
    pose proof (Waiting_registered_fulfilled _ _ _ _ _ HW Hp) as HW1.
    destruct (IH _ (Waiting_after_success _ _ _ HW1)) as (h' & Hruns & HF).
    exists h'. split; [|done]. simpl. econstructor; [|done].
    apply runs_fulfill_plain; [done|].
    eapply runs__fulfill_pending; [done..|].
    eapply dispatches_app; [by apply dispatches_users|].
    eapply dispatches_cons; [|apply dispatches_nil].
    by apply Waiting_runs_success.
Qed.

(** The call of [listPromise], in both of its argument forms, reduced to
    its registration loop. *)
Lemma runs_listPromise h0 h1 :
  inputs ≠ [] → ret = length h0 → ctr = S (length h0) →
  loops (VPromise <$> inputs.*1)
        (h0 ++ [OPromise new_Promise; OLatch (Z.of_nat (length inputs))]) h1 →
  runs u (Call_listPromise (VPromise <$> inputs.*1)) h0 h1
       (Return (VPromise ret)) ∧
  runs u (Call_listPromise [VList (VPromise <$> inputs.*1)]) h0 h1
       (Return (VPromise ret)).
Proof.
  intros Hne Hret Hctr [n H].
  assert (∀ m, n ≤ m →
    (r <~ Promise_new ;;
     c <~ CountdownLatch (Z.of_nat (length (VPromise <$> inputs.*1))) ;;
     match r, c with
     | VPromise ret_, VLatch counter =>
         listPromise_loop (exec u m)
           (VFun (HandleSuccess ret_ counter (VPromise <$> inputs.*1)))
           (VFun (BoundReject ret_)) (VPromise <$> inputs.*1) ;;;
         return_ (VPromise ret_)
     | _, _ => λ _, None
     end) h0 = Some (h1, Return (VPromise ret))) as Hbody.
  { intros m Hm. unfold bind at 1. unfold Promise_new.
    unfold CountdownLatch, bind, assert.
    rewrite bool_decide_eq_true_2 by lia. simpl.
    rewrite !length_fmap, length_app, <-app_assoc. simpl.
    replace (length h0 + 1) with ctr by lia. rewrite <-Hret.
    unfold hs, rj in H. by rewrite H by done. }
  split; apply runs_step; exists n; intros m Hm; simpl; unfold listPromise.
  - destruct inputs as [|[p v] l]; [done|]. by apply Hbody.
  - simpl. by apply Hbody.
Qed.

End Sequence.

Lemma filter_all {A} (P : A → Prop) `{∀ x, Decision (P x)} (l : list A) :
  (∀ x, x ∈ l → P x) → filter P l = l.
Proof.
  induction l as [|x l IH]; intros Hl; [done|].
  rewrite filter_cons_True by (apply Hl, list_elem_of_here).
  f_equal. apply IH. intros y Hy. by apply Hl, list_elem_of_further.
Qed.

Lemma filter_none {A} (P : A → Prop) `{∀ x, Decision (P x)} (l : list A) :
  (∀ x, x ∈ l → ¬ P x) → filter P l = [].
Proof.
  induction l as [|x l IH]; intros Hl; [done|].
  rewrite filter_cons_False by (apply Hl, list_elem_of_here).
  apply IH. intros y Hy. by apply Hl, list_elem_of_further.
Qed.

Section Inputs.
Variable u : nat → val → outcome.

(** Fulfilling quiet promises one after the other, each with a plain value. *)
Lemma fulfill_quiet_all (l : list (ref * val)) : ∀ h,
  NoDup l.*1 →
  (∀ p v, (p, v) ∈ l → quiet h p = true ∧ plain v = true) →
  ∃ h0, runs_all u (fulfill_calls l) h h0 ∧
        (∀ p v, (p, v) ∈ l → fulfilled_with h0 p v) ∧
        (∀ r, r ∉ l.*1 → h0 !! r = h !! r) ∧
        length h0 = length h.
Proof.
  induction l as [|[p v] l IH]; intros h Hnd Hq.
  - exists h. split; [constructor|]. split; [|done].
    by intros p v Hin%elem_of_nil.
  - simpl in Hnd. apply NoDup_cons in Hnd as [Hp Hnd].
    destruct (Hq p v (list_elem_of_here _ _)) as [Hqp Hv].
    destruct (quiet_inv _ _ Hqp) as (v0 & r0 & cbs & ebs & Hlk & _).
    destruct (IH (<[p := OPromise (fulfilled_rec
                   (mkPromise PENDING v0 r0 (Some cbs) (Some ebs)) v)]> h) Hnd)
      as (h0 & Hruns & Hful & Hframe & Hlen).
    { intros q w Hin. destruct (Hq q w (list_elem_of_further _ _ _ Hin)).
      split; [|done]. rewrite quiet_insert_ne; [done|].
      intros ->. apply Hp. apply list_elem_of_fmap. by exists (q, w). }
    exists h0. split; [|split; [|split]].
    + simpl. econstructor; [|done]. by apply runs_fulfill_quiet.
    + intros q w [[= -> ->]|Hin]%elem_of_cons; [|by apply Hful].
      eexists. rewrite Hframe by done. split.
      { apply list_lookup_insert_eq. by eapply lookup_lt_Some. }
      done.
    + intros r Hr. simpl in Hr. apply not_elem_of_cons in Hr as [Hrp Hr].
      rewrite Hframe by done. by apply list_lookup_insert_ne.
    + by rewrite Hlen, length_insert.
Qed.

End Inputs.

(** ** What a settling call leaves, whenever it returns

    These hold for promises with any reactions: the reactions run after the
    state is written and cannot change a settled promise. *)

Section Results.
Variable u : nat → val → outcome.

Lemma exec_reject_pending_result n p r h pr h' o :
  h !! p = Some (OPromise pr) → _state pr = PENDING →
  exec u n (Call_reject p r) h = Some (h', o) →
  h' !! p = Some (OPromise (rejected_rec pr r)).
Proof.
  intros Hp Hs. destruct n as [|n]; [done|]. rewrite exec_unfold. simpl.
  unfold reject. rewrite Hp, bool_decide_eq_true_2 by done.
  assert (<[p:=OPromise (rejected_rec pr r)]> h !! p
          = Some (OPromise (rejected_rec pr r))) as Hnew.
  { apply list_lookup_insert_eq. by eapply lookup_lt_Some. }
  destruct (_errbacks pr) as [l|].
  - intros Hd. eapply evolves_settled; [|exact Hnew|done].
    eapply Mpres_dispatch; [|exact Hd]. apply exec_evolves.
  - by intros [= <- _].
Qed.

Lemma exec_fulfill_pending_result n p v h pr h' o :
  plain v = true → h !! p = Some (OPromise pr) → _state pr = PENDING →
  exec u n (Call_fulfill p v) h = Some (h', o) →
  h' !! p = Some (OPromise (fulfilled_rec pr v)).
Proof.
  intros Hv Hp Hs. destruct n as [|n]; [done|]. rewrite exec_unfold. simpl.
  rewrite fulfill_plain by done.
  destruct n as [|n]; [done|]. rewrite exec_unfold. simpl.
  unfold _fulfill. rewrite Hp, bool_decide_eq_true_2 by done.
  assert (<[p:=OPromise (fulfilled_rec pr v)]> h !! p
          = Some (OPromise (fulfilled_rec pr v))) as Hnew.
  { apply list_lookup_insert_eq. by eapply lookup_lt_Some. }
  destruct (_callbacks pr) as [l|].
  - intros Hd. eapply evolves_settled; [|exact Hnew|done].
    eapply Mpres_dispatch; [|exact Hd]. apply exec_evolves.
  - by intros [= <- _].
Qed.

Lemma dispatch_users_inv n l v h h' o :
  forallb is_UserFn l = true →
  dispatch (exec u n) l v h = Some (h', o) → h' = h.
Proof.
  revert h. induction l as [|f l IH]; intros h; simpl.
  - by intros _ [= <- _].
  - intros [Hf Hl]%andb_true_iff. destruct f as [| | | | | | | |[]]; try done.
    unfold bind, try_pass, try_except, return_.
    destruct n as [|n]; [done|]. rewrite exec_unfold. simpl.
    destruct (u f v); by apply IH.
Qed.

(** A pending promise [x] whose last fulfillment reaction is [y.fulfill],
    fulfilled with a plain value: whenever the call returns, [y] (pending,
    with any reactions) is fulfilled with that value. *)
Lemma feeds_fulfill_result n x y v h prx cbs pry h' o :
  plain v = true → x ≠ y →
  h !! x = Some (OPromise prx) → _state prx = PENDING →
  _callbacks prx = Some (cbs ++ [VFun (BoundFulfill y)]) →
  forallb is_UserFn cbs = true →
  h !! y = Some (OPromise pry) → _state pry = PENDING →
  exec u n (Call_fulfill x v) h = Some (h', o) →
  h' !! y = Some (OPromise (fulfilled_rec pry v)).
Proof.
  intros Hv Hne Hx Hsx Hcb Hcbs Hy Hsy.
  destruct n as [|n]; [done|]. rewrite exec_unfold. simpl.
  rewrite fulfill_plain by done.
  destruct n as [|n]; [done|]. rewrite exec_unfold. simpl.
  erewrite _fulfill_pending by done. rewrite dispatch_app.
  destruct (dispatch (exec u n) cbs v _) as [[h1 o1]|] eqn:Hd; [|done].
  apply dispatch_users_inv in Hd as ->; [|done].
  simpl. unfold bind, try_pass, try_except, return_.
  destruct n as [|n]; [done|]. rewrite exec_unfold. simpl.
  destruct (exec u n (Call_fulfill y v) _) as [[h2 o2]|] eqn:Hf; [|done].
  eapply exec_fulfill_pending_result in Hf; [|done| |done].
  - by destruct o2; intros [= <- _].
  - by rewrite list_lookup_insert_ne.
Qed.

Lemma feeds_reject_result n x y r h prx ebs pry h' o :
  x ≠ y →
  h !! x = Some (OPromise prx) → _state prx = PENDING →
  _errbacks prx = Some (ebs ++ [VFun (BoundReject y)]) →
  forallb is_UserFn ebs = true →
  h !! y = Some (OPromise pry) → _state pry = PENDING →
  exec u n (Call_reject x r) h = Some (h', o) →
  h' !! y = Some (OPromise (rejected_rec pry r)).
Proof.
  intros Hne Hx Hsx Heb Hebs Hy Hsy.
  destruct n as [|n]; [done|]. rewrite exec_unfold. simpl.
  erewrite reject_pending by done. rewrite dispatch_app.
  destruct (dispatch (exec u n) ebs r _) as [[h1 o1]|] eqn:Hd; [|done].
  apply dispatch_users_inv in Hd as ->; [|done].
  simpl. unfold bind, try_pass, try_except, return_.
  destruct n as [|n]; [done|]. rewrite exec_unfold. simpl.
  destruct (exec u n (Call_reject y r) _) as [[h2 o2]|] eqn:Hf; [|done].
  eapply exec_reject_pending_result in Hf; [| |done].
  - by destruct o2; intros [= <- _].
  - by rewrite list_lookup_insert_ne.
Qed.

End Results.

(** * The claims *)

(** ** Concrete callers, used to run the methods on examples *)

Definition ValueError (msg : string) : val := VExc (OtherError "ValueError") msg.

(** Function 0 returns its argument, function 1 raises ValueError("boom"),
    function 2 returns 42, every other function returns None. *)
Definition user_example (f : nat) (arg : val) : outcome :=
  match f with
  | 0 => Return arg
  | 1 => Raise (ValueError "boom")
  | 2 => Return (VInt 42)
  | _ => Return VNone
  end.

Definition pending_promise : obj := OPromise new_Promise.
Definition fulfilled_promise (v : val) : obj :=
  OPromise (fulfilled_rec new_Promise v).
Definition rejected_promise (r : val) : obj :=
  OPromise (rejected_rec new_Promise r).

Lemma NoDup_012 : NoDup [0; 1; 2].
Proof. repeat (apply NoDup_cons; split; [set_solver|]). apply NoDup_nil_2. Qed.

(** ** Settlement happens at most once (C1, C2) *)

(** C1, as amended: on a settled promise every further [reject], and every
    further [fulfill] with a plain value, raises the assertion error in an
    unchanged heap; a further [fulfill] with the promise itself raises the
    self-resolution [TypeError]; a further [fulfill] with a pending promise
    only subscribes to it and returns normally; and whatever a further
    [fulfill] or [reject] is given, and whether it raises or returns, the
    promise's record (state, value, reason) is what it was. *)
Theorem settled_promise_is_final (u : nat → val → outcome) h p pr :
  h !! p = Some (OPromise pr) → _state pr ≠ PENDING →
  (∀ r, runs u (Call_reject p r) h h (Raise assertion_error)) ∧
  (∀ x, plain x = true → runs u (Call_fulfill p x) h h (Raise assertion_error)) ∧
  runs u (Call_fulfill p (VPromise p)) h h (Raise self_resolution_error) ∧
  (∀ q, quiet h q = true →
     ∃ h', runs u (Call_fulfill p (VPromise q)) h h' (Return VNone) ∧
           h' !! p = Some (OPromise pr)) ∧
  (∀ n x h' o, exec u n (Call_fulfill p x) h = Some (h', o) →
               h' !! p = Some (OPromise pr)) ∧
  (∀ n r h' o, exec u n (Call_reject p r) h = Some (h', o) →
               h' !! p = Some (OPromise pr)).
Proof.
  intros Hp Hs. repeat split.
  - intros r. by eapply runs_reject_settled.
  - intros x Hx. apply runs_fulfill_plain; [done|]. by eapply runs__fulfill_settled.
  - apply runs_step. exists 0. intros m _. simpl. by rewrite fulfill_self.
  - intros q Hq.
    assert (p ≠ q) as Hne.
    { intros ->. destruct (quiet_pending _ _ Hq) as (pr' & Hq' & Hs').
      congruence. }
    destruct (adopt_quiet u h p q Hne Hq) as (h' & Hrun & _ & _ & Hframe).
    exists h'. split; [done|]. by rewrite Hframe.
  - intros n x h' o He. by eapply settled_stable.
  - intros n r h' o He. by eapply settled_stable.
Qed.

(** A settled promise fulfilled with a pending promise: the call returns
    normally (it only subscribes to the other promise), so not every further
    [fulfill] raises; and fulfilled with itself it raises the [TypeError],
    not the assertion error. *)
Lemma settled_fulfill_may_return_normally :
  let h := [fulfilled_promise (VInt 1); pending_promise] in
  fulfilled_with h 0 (VInt 1) ∧
  runs user_example (Call_fulfill 0 (VPromise 1)) h
       [fulfilled_promise (VInt 1);
        OPromise (add_errback (add_callback new_Promise (VFun (BoundFulfill 0)))
                              (VFun (BoundReject 0)))]
       (Return VNone) ∧
  runs user_example (Call_fulfill 0 (VPromise 0)) h h
       (Raise self_resolution_error).
Proof.
  split; [by eexists|]. split.
  - by apply (runs_of_exec _ 4).
  - by apply (runs_of_exec _ 1).
Qed.

(** On a promise fulfilled with 1, [reject(7)] and [fulfill(7)] raise. *)
Lemma settled_promise_is_final_witness :
  let h := [fulfilled_promise (VInt 1); pending_promise] in
  runs user_example (Call_reject 0 (VInt 7)) h h (Raise assertion_error) ∧
  runs user_example (Call_fulfill 0 (VInt 7)) h h (Raise assertion_error).
Proof.
  pose proof (settled_promise_is_final user_example
    [fulfilled_promise (VInt 1); pending_promise] 0
    (fulfilled_rec new_Promise (VInt 1)) eq_refl ltac:(done)) as (H1 & H2 & _).
  split; [apply H1|by apply H2].
Defined.

(** C2, as amended: [p.fulfill(p)] raises the self-resolution [TypeError] to
    its caller and changes nothing: [p] is not rejected, and no object of the
    heap is touched. *)
Theorem fulfill_with_itself_raises (u : nat → val → outcome) h p :
  runs u (Call_fulfill p (VPromise p)) h h (Raise self_resolution_error).
Proof.
  apply runs_step. exists 0. intros m _. simpl. by rewrite fulfill_self.
Qed.

(** A pending promise fulfilled with itself: the error reaches the caller and
    the promise is still pending, not rejected. *)
Lemma fulfill_with_itself_not_rejected :
  let h := [pending_promise] in
  runs user_example (Call_fulfill 0 (VPromise 0)) h h
       (Raise self_resolution_error) ∧
  pending h 0.
Proof.
  split; [by apply (runs_of_exec _ 1)|by eexists].
Qed.

(** ** Adoption of thenables (C3) *)

(** C3: fulfilling a pending promise [A] with a thenable [B] does not settle
    [A] with [B]; [A] takes [B]'s outcome.
    (1) [B] a pending promise, possibly the first of a chain [mid ++ [S]] of
    promises each fulfilled with the next: after the adoptions every member
    is still pending, and once the last one [S] is fulfilled with a plain
    value [V] (rejected with [R]) all of them, [A] included, are FULFILLED
    with [V] (REJECTED with [R]).
    (2) [B] a promise that is already settled: [A] is settled at once with
    [B]'s value or reason.
    (3) [B] a foreign object with a callable [done] or [then]: [B] receives a
    pair of handlers, [A] stays pending, and when [B]'s owner calls the
    fulfillment handler with [V] (the rejection handler with [R]), [A] is
    FULFILLED with [V] (REJECTED with [R]).
    (4) [A] a pending promise with any reactions whatever and [B] a pending
    promise: [A] stays as it is, and whenever the call that settles [B]
    returns, [A] is FULFILLED with [B]'s value (REJECTED with its reason). *)
Theorem fulfill_with_thenable_mirrors_outcome (u : nat → val → outcome) :
  (∀ h A mid S,
     NoDup (A :: mid ++ [S]) → forallb (quiet h) (A :: mid ++ [S]) = true →
     ∃ h1, runs_all u (adopt_calls (A :: mid ++ [S])) h h1 ∧
           (∀ x, x ∈ A :: mid ++ [S] → pending h1 x) ∧
           (∀ V, plain V = true →
              ∃ h2, runs u (Call_fulfill S V) h1 h2 (Return VNone) ∧
                    ∀ x, x ∈ A :: mid ++ [S] → fulfilled_with h2 x V) ∧
           (∀ R,
              ∃ h2, runs u (Call_reject S R) h1 h2 (Return VNone) ∧
                    ∀ x, x ∈ A :: mid ++ [S] → rejected_with h2 x R)) ∧
  (∀ h A B prB,
     A ≠ B → quiet h A = true → h !! B = Some (OPromise prB) →
     (_state prB = FULFILLED → plain (value prB) = true →
      ∃ h', runs u (Call_fulfill A (VPromise B)) h h' (Return VNone) ∧
            fulfilled_with h' A (value prB)) ∧
     (_state prB = REJECTED →
      ∃ h', runs u (Call_fulfill A (VPromise B)) h h' (Return VNone) ∧
            rejected_with h' A (reason prB))) ∧
  (∀ h A b d t regs,
     d || t = true → quiet h A = true → h !! b = Some (OForeign regs) →
     ∃ h1 k onF onR,
       runs u (Call_fulfill A (VForeign b d t)) h h1 (Return VNone) ∧
       pending h1 A ∧
       h1 !! b = Some (OForeign (regs ++ [(k, onF, onR)])) ∧
       (∀ V, plain V = true →
          ∃ h2, runs u (Call_apply onF V) h1 h2 (Return VNone) ∧
                fulfilled_with h2 A V) ∧
       (∀ R,
          ∃ h2, runs u (Call_apply onR R) h1 h2 (Return VNone) ∧
                rejected_with h2 A R)) ∧
  (∀ h A B prA,
     A ≠ B → h !! A = Some (OPromise prA) → _state prA = PENDING →
     quiet h B = true →
     ∃ h1, runs u (Call_fulfill A (VPromise B)) h h1 (Return VNone) ∧
           h1 !! A = Some (OPromise prA) ∧
           (∀ n V h2 o, plain V = true →
              exec u n (Call_fulfill B V) h1 = Some (h2, o) →
              fulfilled_with h2 A V) ∧
           (∀ n R h2 o,
              exec u n (Call_reject B R) h1 = Some (h2, o) →
              rejected_with h2 A R)).
Proof.
  split; [|split; [|split]]; cycle 3.
  - intros h A B prA Hne HA Hs Hq.
    destruct (adopt_quiet u h A B Hne Hq)
      as (h1 & Hrun & (prB & cbs & ebs & HB & HsB & Hcb & Heb & Hcbs & Hebs)
          & _ & Hframe).
    assert (h1 !! A = Some (OPromise prA)) as HA1 by (by rewrite Hframe).
    exists h1. split; [done|]. split; [done|]. split.
    + intros n V h2 o HV He. exists (fulfilled_rec prA V). split; [|done].
      by eapply (feeds_fulfill_result u n B A).
    + intros n R h2 o He. exists (rejected_rec prA R). split; [|done].
      by eapply (feeds_reject_result u n B A).
  - intros h A mid S Hnd Hq.
    assert (∀ x, x ∈ A :: mid ++ [S] → quiet h x = true) as Hq'.
    { intros x Hx%list_elem_of_In. by eapply forallb_forall in Hq. }
    clear Hq. rename Hq' into Hq.
    pose proof (NoDup_chain_reverse _ _ _ Hnd) as Hnd'.
    apply NoDup_cons in Hnd as [HA Hnd].
    destruct (build_chain u (mid ++ [S]) A [] h) as (h1 & Hruns & Hchain & Hlen).
    { simpl. apply Hq, list_elem_of_here. }
    { intros x Hx. by apply Hq, list_elem_of_further. }
    { done. }
    { intros x Hx ->%list_elem_of_singleton. done. }
    rewrite reverse_app, reverse_singleton in Hchain.
    change (chain h1 (S :: reverse mid ++ [A])) in Hchain.
    exists h1. split; [done|]. split; [|split].
    + intros x Hx. eapply chain_pending; [done|]. by apply elem_of_chain_reverse.
    + intros V HV.
      destruct (chain_fulfill u _ S h1 V Hchain Hnd' HV) as (h2 & Hrun & Hful & _).
      exists h2. split; [done|]. intros x Hx. by apply Hful, elem_of_chain_reverse.
    + intros R.
      destruct (chain_reject u _ S h1 R Hchain Hnd') as (h2 & Hrun & Hrej & _).
      exists h2. split; [done|]. intros x Hx. by apply Hrej, elem_of_chain_reverse.
  - intros h A B prB Hne Hq HB.
    destruct (quiet_inv _ _ Hq) as (v & r & cbs & ebs & HA & _).
    apply lookup_lt_Some in HA as Hlt. split.
    + intros Hs Hv. eexists. split; [|by apply fulfilled_with_insert].
      apply runs_fulfill_Promise; [done|]. eapply runs_done; [done..| |].
      * eapply (runs_addCallback_fulfilled u B _ _ prB _ (Return VNone)); [done..|].
        apply runs_apply_BoundFulfill. by apply runs_fulfill_quiet.
      * eapply (runs_addErrback_fulfilled u B _ _ prB); [|done..].
        by rewrite list_lookup_insert_ne.
    + intros Hs. eexists. split; [|by apply rejected_with_insert].
      apply runs_fulfill_Promise; [done|]. eapply runs_done; [done..| |].
      * by eapply (runs_addCallback_rejected u B _ _ prB).
      * eapply (runs_addErrback_rejected u B _ _ prB _ (Return VNone)); [done..|].
        apply runs_apply_BoundReject. by apply runs_reject_quiet.
  - intros h A b d t regs Hdt Hq Hb.
    destruct (adopt_foreign u h A b d t regs Hdt Hb)
      as (h1 & Hrun & Hb1 & Hfeeds & Hframe & Hlen).
    destruct (quiet_inv _ _ Hq) as (v & r & cbs & ebs & HA & _).
    apply lookup_lt_Some in HA as Hlt.
    assert (A ≠ b) as Hne by (intros ->; congruence).
    assert (chain h1 [length h; A]) as Hchain.
    { split; [done|]. simpl. unfold quiet. rewrite Hframe by done. apply Hq. }
    assert (NoDup [length h; A]) as Hnd.
    { apply NoDup_cons. split; [|apply NoDup_singleton].
      intros Heq%list_elem_of_singleton. lia. }
    eexists h1, _, _, _. split; [done|]. split; [|split; [done|split]].
    + eexists. by rewrite Hframe.
    + intros V HV.
      destruct (chain_fulfill u _ _ h1 V Hchain Hnd HV) as (h2 & Hrun2 & Hful & _).
      exists h2. split; [by apply runs_apply_BoundFulfill|].
      apply Hful. set_solver.
    + intros R.
      destruct (chain_reject u _ _ h1 R Hchain Hnd) as (h2 & Hrun2 & Hrej & _).
      exists h2. split; [by apply runs_apply_BoundReject|].
      apply Hrej. set_solver.
Qed.

(** A chain of three promises, a rejected promise, and a foreign thenable
    that exposes [then] only. *)
Lemma fulfill_with_thenable_mirrors_outcome_witness :
  (∃ h1 h2,
     runs_all user_example (adopt_calls [0; 1; 2])
              [pending_promise; pending_promise; pending_promise] h1 ∧
     pending h1 0 ∧
     runs user_example (Call_fulfill 2 (VInt 7)) h1 h2 (Return VNone) ∧
     fulfilled_with h2 0 (VInt 7)) ∧
  (∃ h', runs user_example (Call_fulfill 0 (VPromise 1))
              [pending_promise; rejected_promise (VInt 7)] h' (Return VNone) ∧
         rejected_with h' 0 (VInt 7)) ∧
  (∃ h1 k onF onR h2,
     runs user_example (Call_fulfill 0 (VForeign 1 false true))
          [pending_promise; OForeign []] h1 (Return VNone) ∧
     h1 !! 1 = Some (OForeign [(k, onF, onR)]) ∧
     runs user_example (Call_apply onF (VInt 7)) h1 h2 (Return VNone) ∧
     fulfilled_with h2 0 (VInt 7)).
Proof.
  destruct (fulfill_with_thenable_mirrors_outcome user_example)
    as (Hchain & Hsettled & Hforeign & _).
  split; [|split].
  - destruct (Hchain [pending_promise; pending_promise; pending_promise]
                0 [1] 2 NoDup_012 eq_refl) as (h1 & Hruns & Hpend & Hful & _).
    destruct (Hful (VInt 7) eq_refl) as (h2 & Hrun & Hall).
    exists h1, h2. split; [done|]. split; [apply Hpend; set_solver|].
    split; [done|]. apply Hall. set_solver.
  - destruct (Hsettled [pending_promise; rejected_promise (VInt 7)] 0 1
                (rejected_rec new_Promise (VInt 7)) ltac:(done) eq_refl eq_refl)
      as [_ Hrej].
    exact (Hrej eq_refl).
  - destruct (Hforeign [pending_promise; OForeign []] 0 1 false true []
                eq_refl eq_refl eq_refl)
      as (h1 & k & onF & onR & Hrun & _ & Hb & Hful & _).
    destruct (Hful (VInt 7) eq_refl) as (h2 & Hrun2 & HA).
    by exists h1, k, onF, onR, h2.
Defined.

(** ** Chaining with [then] (C4, C5) *)

(** C4: [p.then(success, failure)] with neither handler callable returns a
    promise that takes [p]'s outcome unchanged: FULFILLED with [p]'s value,
    REJECTED with [p]'s reason; at once when [p] is already settled, and as
    soon as [p] is settled when [p] is still pending at the call. *)
Theorem then_without_handlers_passes_through (u : nat → val → outcome) h p pr success failure :
  _isFunction success = false → _isFunction failure = false →
  h !! p = Some (OPromise pr) →
  (_state pr = FULFILLED → plain (value pr) = true →
   ∃ h', runs u (Call_then p success failure) h h' (Return (VPromise (length h))) ∧
         fulfilled_with h' (length h) (value pr)) ∧
  (_state pr = REJECTED →
   ∃ h', runs u (Call_then p success failure) h h' (Return (VPromise (length h))) ∧
         rejected_with h' (length h) (reason pr)) ∧
  (quiet h p = true →
   ∃ h1, runs u (Call_then p success failure) h h1 (Return (VPromise (length h))) ∧
         pending h1 (length h) ∧
         (∀ V, plain V = true →
            ∃ h2, runs u (Call_fulfill p V) h1 h2 (Return VNone) ∧
                  fulfilled_with h2 p V ∧ fulfilled_with h2 (length h) V) ∧
         (∀ R,
            ∃ h2, runs u (Call_reject p R) h1 h2 (Return VNone) ∧
                  rejected_with h2 p R ∧ rejected_with h2 (length h) R)).
Proof.
  intros Hs Hf Hp.
  assert (∀ v, on_success u success v = Some (Return v)) as Hos
    by (intros v; by destruct success).
  assert (∀ r, on_failure u failure r = Some (Raise r)) as Hof
    by (intros r; by destruct failure).
  split; [|split].
  - intros Hst Hv. eexists. split; [by eapply then_on_fulfilled|].
    rewrite <-(insert_alloc h (OPromise new_Promise)).
    apply fulfilled_with_insert. rewrite length_app; simpl; lia.
  - intros Hst. eexists. split; [by eapply then_on_rejected|].
    rewrite <-(insert_alloc h (OPromise new_Promise)).
    apply rejected_with_insert. rewrite length_app; simpl; lia.
  - intros Hq.
    destruct (then_on_quiet u h p success failure Hq)
      as (h1 & pr1 & cbs & ebs & Hrun & Hp1 & Hst1 & Hc1 & He1 & Hcbs & Hebs
          & Hlt & Hlen & Hret).
    assert (quiet h1 (length h) = true) as Hqr by (unfold quiet; by rewrite Hret).
    exists h1. split; [done|]. split; [by eexists|]. split.
    + intros V HV. eexists. split.
      { eapply then_later_fulfilled; try done. lia. }
      split.
      * apply fulfilled_with_insert_ne; [lia|].
        apply fulfilled_with_insert. lia.
      * apply (fulfilled_with_insert _ _ new_Promise). rewrite length_insert. lia.
    + intros R. eexists. split.
      { eapply then_later_rejected; try done. lia. }
      split.
      * apply rejected_with_insert_ne; [lia|].
        apply rejected_with_insert. lia.
      * apply (rejected_with_insert _ _ new_Promise). rewrite length_insert. lia.
Qed.

(** [then] on a fulfilled, on a rejected and on a pending promise. *)
Lemma then_without_handlers_passes_through_witness :
  (∃ h', runs user_example (Call_then 0 VNone VNone)
              [fulfilled_promise (VInt 7)] h' (Return (VPromise 1)) ∧
         fulfilled_with h' 1 (VInt 7)) ∧
  (∃ h', runs user_example (Call_then 0 (VInt 5) (VStr "x"))
              [rejected_promise (ValueError "no")] h' (Return (VPromise 1)) ∧
         rejected_with h' 1 (ValueError "no")) ∧
  (∃ h1 h2, runs user_example (Call_then 0 VNone VNone)
                 [pending_promise] h1 (Return (VPromise 1)) ∧
            runs user_example (Call_fulfill 0 (VInt 7)) h1 h2 (Return VNone) ∧
            fulfilled_with h2 1 (VInt 7)).
Proof.
  split; [|split].
  - apply (then_without_handlers_passes_through user_example
             [fulfilled_promise (VInt 7)] 0 _ VNone VNone
             eq_refl eq_refl eq_refl); reflexivity.
  - apply (then_without_handlers_passes_through user_example
             [rejected_promise (ValueError "no")] 0 _ (VInt 5) (VStr "x")
             eq_refl eq_refl eq_refl); reflexivity.
  - destruct (then_without_handlers_passes_through user_example
             [pending_promise] 0 _ VNone VNone eq_refl eq_refl eq_refl)
      as (_ & _ & Hq).
    destruct (Hq eq_refl) as (h1 & Hrun & _ & Hful & _).
    destruct (Hful (VInt 7) eq_refl) as (h2 & Hrun2 & _ & Hret).
    by exists h1, h2.
Defined.

(** C5, as amended: [ret = p.then(success, failure)] with both handlers
    functions of the caller.  When [p] is fulfilled with [V]: if [success(V)] returns a plain
    value [W], [ret] is FULFILLED with [W]; if it raises [E], [ret] is
    REJECTED with [E].  When [p] is rejected with [R]: if [failure(R)]
    returns a plain value [W], [ret] is FULFILLED with [W] (recovery); if it
    raises [E], [ret] is REJECTED with [E].  This holds when [p] is settled
    before the call and when it is settled after it. *)
Theorem then_with_handlers (u : nat → val → outcome) h p pr ks kf :
  h !! p = Some (OPromise pr) →
  (_state pr = FULFILLED →
   (∀ W, u ks (value pr) = Return W → plain W = true →
      ∃ h', runs u (Call_then p (VFun (UserFn ks)) (VFun (UserFn kf))) h h'
                 (Return (VPromise (length h))) ∧
            fulfilled_with h' (length h) W) ∧
   (∀ E, u ks (value pr) = Raise E →
      ∃ h', runs u (Call_then p (VFun (UserFn ks)) (VFun (UserFn kf))) h h'
                 (Return (VPromise (length h))) ∧
            rejected_with h' (length h) E)) ∧
  (_state pr = REJECTED →
   (∀ W, u kf (reason pr) = Return W → plain W = true →
      ∃ h', runs u (Call_then p (VFun (UserFn ks)) (VFun (UserFn kf))) h h'
                 (Return (VPromise (length h))) ∧
            fulfilled_with h' (length h) W) ∧
   (∀ E, u kf (reason pr) = Raise E →
      ∃ h', runs u (Call_then p (VFun (UserFn ks)) (VFun (UserFn kf))) h h'
                 (Return (VPromise (length h))) ∧
            rejected_with h' (length h) E)) ∧
  (quiet h p = true →
   ∃ h1, runs u (Call_then p (VFun (UserFn ks)) (VFun (UserFn kf))) h h1
              (Return (VPromise (length h))) ∧
         pending h1 (length h) ∧
         (∀ V W, plain V = true → u ks V = Return W → plain W = true →
            ∃ h2, runs u (Call_fulfill p V) h1 h2 (Return VNone) ∧
                  fulfilled_with h2 (length h) W) ∧
         (∀ V E, plain V = true → u ks V = Raise E →
            ∃ h2, runs u (Call_fulfill p V) h1 h2 (Return VNone) ∧
                  rejected_with h2 (length h) E) ∧
         (∀ R W, u kf R = Return W → plain W = true →
            ∃ h2, runs u (Call_reject p R) h1 h2 (Return VNone) ∧
                  fulfilled_with h2 (length h) W) ∧
         (∀ R E, u kf R = Raise E →
            ∃ h2, runs u (Call_reject p R) h1 h2 (Return VNone) ∧
                  rejected_with h2 (length h) E)).
Proof.
  intros Hp.
  assert (∀ o : outcome,
    match o with
    | Return W => fulfilled_with (h ++ [OPromise (settle_rec new_Promise o)]) (length h) W
    | Raise E => rejected_with (h ++ [OPromise (settle_rec new_Promise o)]) (length h) E
    end) as Hnew.
  { intros [W|E]; eexists; by rewrite lookup_alloc. }
  split; [|split].
  - intros Hst. split.
    + intros W HW Hplain. eexists. split; [|apply (Hnew (Return W))].
      eapply then_on_fulfilled; [done..|by simpl; rewrite HW|done].
    + intros E HE. eexists. split; [|apply (Hnew (Raise E))].
      eapply then_on_fulfilled; [done..|by simpl; rewrite HE|done].
  - intros Hst. split.
    + intros W HW Hplain. eexists. split; [|apply (Hnew (Return W))].
      eapply then_on_rejected; [done..|by simpl; rewrite HW|done].
    + intros E HE. eexists. split; [|apply (Hnew (Raise E))].
      eapply then_on_rejected; [done..|by simpl; rewrite HE|done].
  - intros Hq.
    destruct (then_on_quiet u h p (VFun (UserFn ks)) (VFun (UserFn kf)) Hq)
      as (h1 & pr1 & cbs & ebs & Hrun & Hp1 & Hst1 & Hc1 & He1 & Hcbs & Hebs
          & Hlt & Hlen & Hret).
    assert (quiet h1 (length h) = true) as Hqr by (unfold quiet; by rewrite Hret).
    assert (p ≠ length h) as Hne by lia.
    exists h1. split; [done|]. split; [by eexists|].
    split; [|split; [|split]].
    + intros V W HV HW Hplain. eexists. split.
      { eapply (then_later_fulfilled u h1 p pr1 cbs (length h) _ _ V (Return W));
          try done. by simpl; rewrite HW. }
      apply (fulfilled_with_insert _ _ new_Promise). rewrite length_insert. lia.
    + intros V E HV HE. eexists. split.
      { eapply (then_later_fulfilled u h1 p pr1 cbs (length h) _ _ V (Raise E));
          try done. by simpl; rewrite HE. }
      apply (rejected_with_insert _ _ new_Promise). rewrite length_insert. lia.
    + intros R W HW Hplain. eexists. split.
      { eapply (then_later_rejected u h1 p pr1 ebs (length h) _ _ R (Return W));
          try done. by simpl; rewrite HW. }
      apply (fulfilled_with_insert _ _ new_Promise). rewrite length_insert. lia.
    + intros R E HE. eexists. split.
      { eapply (then_later_rejected u h1 p pr1 ebs (length h) _ _ R (Raise E));
          try done. by simpl; rewrite HE. }
      apply (rejected_with_insert _ _ new_Promise). rewrite length_insert. lia.
Qed.

(** A caller whose functions all return the value [w]. *)
Definition user_returns (w : val) : nat → val → outcome := λ _ _, Return w.

(** The failure handler returns normally, and the result is not fulfilled
    with what it returned: when it returns the result promise itself, the
    result is REJECTED with the self-resolution [TypeError]; when it returns
    a pending promise, the result stays PENDING (it has adopted that
    promise). *)
Lemma then_recovery_with_promise_result :
  (let u := user_returns (VPromise 1) in
   ∃ h1 h2,
     runs u (Call_then 0 VNone (VFun (UserFn 0))) [pending_promise] h1
          (Return (VPromise 1)) ∧
     runs u (Call_reject 0 (ValueError "no")) h1 h2 (Return VNone) ∧
     rejected_with h2 1 self_resolution_error) ∧
  (let u := user_returns (VPromise 1) in
   ∃ h',
     runs u (Call_then 0 VNone (VFun (UserFn 0)))
          [rejected_promise (ValueError "no"); pending_promise] h'
          (Return (VPromise 2)) ∧
     pending h' 2 ∧ ¬ fulfilled_with h' 2 (VPromise 1)).
Proof.
  split.
  - do 2 eexists.
    split; [apply (runs_of_exec _ 4); vm_compute; reflexivity|].
    split; [apply (runs_of_exec _ 6); vm_compute; reflexivity|by eexists].
  - eexists. split; [apply (runs_of_exec _ 9); vm_compute; reflexivity|].
    split; [by eexists|]. intros (pr & Hp & Hs & _).
    simpl in Hp. injection Hp as <-. done.
Qed.

(** A handler that returns 42, a handler that raises, and a recovery. *)
Lemma then_with_handlers_witness :
  (∃ h', runs user_example (Call_then 0 (VFun (UserFn 2)) (VFun (UserFn 0)))
              [fulfilled_promise (VInt 7)] h' (Return (VPromise 1)) ∧
         fulfilled_with h' 1 (VInt 42)) ∧
  (∃ h', runs user_example (Call_then 0 (VFun (UserFn 1)) (VFun (UserFn 0)))
              [fulfilled_promise (VInt 7)] h' (Return (VPromise 1)) ∧
         rejected_with h' 1 (ValueError "boom")) ∧
  (∃ h1 h2, runs user_example (Call_then 0 (VFun (UserFn 1)) (VFun (UserFn 2)))
                 [pending_promise] h1 (Return (VPromise 1)) ∧
            runs user_example (Call_reject 0 (ValueError "no")) h1 h2
                 (Return VNone) ∧
            fulfilled_with h2 1 (VInt 42)).
Proof.
  split; [|split].
  - destruct (then_with_handlers user_example [fulfilled_promise (VInt 7)] 0 _
                2 0 eq_refl) as (Hf & _).
    destruct (Hf eq_refl) as [Hret _]. exact (Hret (VInt 42) eq_refl eq_refl).
  - destruct (then_with_handlers user_example [fulfilled_promise (VInt 7)] 0 _
                1 0 eq_refl) as (Hf & _).
    destruct (Hf eq_refl) as [_ Hraise]. exact (Hraise _ eq_refl).
  - destruct (then_with_handlers user_example [pending_promise] 0 _
                1 2 eq_refl) as (_ & _ & Hq).
    destruct (Hq eq_refl) as (h1 & Hrun & _ & _ & _ & Hrec & _).
    destruct (Hrec (ValueError "no") (VInt 42) eq_refl eq_refl) as (h2 & Hrun2 & Hret).
    by exists h1, h2.
Defined.

(** ** Errors of reactions (C6) *)

(** C6 (the code departs from it on late registration): on a settled
    promise [addCallback] and [addErrback] call the reaction with no handler
    around the call, so the reaction's error reaches the registering caller;
    the same reaction registered while the promise is pending has its error
    discarded by the settling [fulfill] or [reject]. *)
Theorem late_reaction_error_reaches_caller :
  let raising := VFun (UserFn 1) in
  runs user_example (Call_addCallback 0 raising)
       [fulfilled_promise (VInt 1)] [fulfilled_promise (VInt 1)]
       (Raise (ValueError "boom")) ∧
  runs user_example (Call_addErrback 0 raising)
       [rejected_promise (VInt 1)] [rejected_promise (VInt 1)]
       (Raise (ValueError "boom")) ∧
  (∃ h1 h2,
     runs user_example (Call_addCallback 0 raising) [pending_promise] h1
          (Return VNone) ∧
     runs user_example (Call_fulfill 0 (VInt 1)) h1 h2 (Return VNone) ∧
     fulfilled_with h2 0 (VInt 1)) ∧
  (∃ h1 h2,
     runs user_example (Call_addErrback 0 raising) [pending_promise] h1
          (Return VNone) ∧
     runs user_example (Call_reject 0 (VInt 1)) h1 h2 (Return VNone) ∧
     rejected_with h2 0 (VInt 1)).
Proof.
  repeat split.
  - by apply (runs_of_exec _ 2).
  - by apply (runs_of_exec _ 2).
  - do 2 eexists. split; [by apply (runs_of_exec _ 1)|].
    split; [by apply (runs_of_exec _ 3)|by eexists].
  - do 2 eexists. split; [by apply (runs_of_exec _ 1)|].
    split; [by apply (runs_of_exec _ 2)|by eexists].
Qed.

(** ** The sequence combinator (C7, C8, C9) *)

(** C7 (the code departs from it for the one-argument form): the call with
    no argument returns a promise already FULFILLED with the empty list; the
    call with one argument that is an empty list passes the emptiness test
    before the list is unwrapped, builds a latch of zero and registers
    nothing, so the promise it returns is PENDING. *)
Theorem listPromise_empty_inputs u (h : heap) :
  runs u (Call_listPromise []) h (h ++ [fulfilled_promise (VList [])])
       (Return (VPromise (length h))) ∧
  runs u (Call_listPromise [VList []]) h (h ++ [pending_promise; OLatch 0])
       (Return (VPromise (length h))).
Proof.
  split.
  - destruct (runs_Promise_value_plain u (VList []) h eq_refl) as [n H].
    apply runs_step. exists n. intros m Hm. by apply H.
  - apply runs_step. exists 0. intros m _. simpl.
    unfold listPromise, bind, Promise_new, CountdownLatch, bind. simpl.
    unfold return_. by rewrite <-app_assoc.
Qed.

(** C8: the inputs are distinct promises, each fulfilled with a plain value,
    some before the call of [listPromise] ([before]) and the others after it
    ([after]), in any order ([before ++ after] is any permutation of the
    inputs).  In both argument forms the call returns a promise [ret] that is
    still pending while inputs are outstanding, and once all are fulfilled
    [ret] is FULFILLED with the list of the inputs' values in input order. *)
Theorem listPromise_collects_in_input_order (u : nat → val → outcome) h inputs before after :
  inputs ≠ [] → NoDup inputs.*1 →
  forallb (quiet h) inputs.*1 = true → forallb plain inputs.*2 = true →
  before ++ after ≡ₚ inputs →
  ∃ h0 h1 h2,
    runs_all u (fulfill_calls before) h h0 ∧
    runs u (Call_listPromise (VPromise <$> inputs.*1)) h0 h1
         (Return (VPromise (length h0))) ∧
    runs u (Call_listPromise [VList (VPromise <$> inputs.*1)]) h0 h1
         (Return (VPromise (length h0))) ∧
    (after ≠ [] → pending h1 (length h0)) ∧
    runs_all u (fulfill_calls after) h1 h2 ∧
    fulfilled_with h2 (length h0) (VList inputs.*2).
Proof.
  intros Hne Hnd Hquiet Hplain Hperm.
  assert (∀ p v, (p, v) ∈ inputs → quiet h p = true ∧ plain v = true) as Hq.
  { intros p v Hin. split.
    - eapply forallb_forall in Hquiet; [done|]. apply list_elem_of_In.
      apply list_elem_of_fmap. by exists (p, v).
    - eapply forallb_forall in Hplain; [done|]. apply list_elem_of_In.
      apply list_elem_of_fmap. by exists (p, v). }
  assert (NoDup (before.*1 ++ after.*1)) as Hnd'.
  { by rewrite <-fmap_app, Hperm. }
  apply NoDup_app in Hnd' as (Hndb & Hdisj & Hnda).
  assert (∀ p v, (p, v) ∈ inputs ↔ (p, v) ∈ before ∨ (p, v) ∈ after) as Hin.
  { intros p v. by rewrite <-Hperm, elem_of_app. }
  destruct (fulfill_quiet_all u before h Hndb)
    as (h0 & Hruns0 & Hful0 & Hframe0 & Hlen0).
  { intros p v Hb. apply Hq, Hin. by left. }
  set (ret := length h0). set (ctr := S (length h0)).
  set (late := λ p : ref, bool_decide (p ∈ after.*1)).
  set (hstart := h0 ++ [OPromise new_Promise;
                        OLatch (Z.of_nat (length inputs))]).
  assert (∀ p o, h0 !! p = Some o → hstart !! p = Some o) as Hstart.
  { intros p o Hp. by apply lookup_app_l_Some. }
  assert (Waiting inputs ret ctr late 0 hstart inputs []) as HW.
  { split.
    - unfold hstart, ctr. change (h0 ++ [_; ?b]) with (h0 ++ [OPromise new_Promise] ++ [b]).
      rewrite app_assoc.
      replace (S (length h0)) with (length (h0 ++ [OPromise new_Promise]))
        by (rewrite length_app; simpl; lia).
      rewrite lookup_alloc. do 3 f_equal. simpl. lia.
    - unfold hstart, ret. by apply list_lookup_middle.
    - by intros p v Hr%elem_of_nil.
    - intros p v Hpv. unfold late. case_bool_decide as Hl.
      + destruct (Hq p v Hpv) as [Hqp Hv]. split; [|done].
        destruct (quiet_inv _ _ Hqp) as (v0 & r0 & cbs & ebs & Hlk & Hus).
        unfold quiet. erewrite Hstart; [|rewrite Hframe0; [done|]].
        * simpl. by apply andb_true_iff.
        * intros Hb. by eapply Hdisj.
      + apply Hin in Hpv as [Hb|Ha].
        * destruct (Hful0 p v Hb) as (pr & Hp & Hs). exists pr. eauto.
        * exfalso. apply Hl. apply list_elem_of_fmap. by exists (p, v).
    - apply Forall_forall. intros [p v] Hpv. by right; right.
    - by rewrite app_nil_r.
    - intros p v Hpv. rewrite app_nil_r in Hpv.
      destruct (Hq p v Hpv) as [Hqp _].
      destruct (quiet_inv _ _ Hqp) as (v0 & r0 & cbs & ebs & Hlk & _).
      apply lookup_lt_Some in Hlk. unfold ret, ctr. lia. }
  destruct (registration_loop u inputs ret ctr late inputs [] hstart)
    as (h1 & Hloop & HS1).
  { right. split; [|done]. by rewrite app_nil_r. }
  assert (filter (λ pv : ref * val, late pv.1 = true) inputs ≡ₚ after) as Hfilter.
  { rewrite <-Hperm, filter_app.
    rewrite (filter_none _ before), (filter_all _ after); [done| |].
    - intros [p v] Ha. unfold late. apply bool_decide_eq_true.
      apply list_elem_of_fmap. by exists (p, v).
    - intros [p v] Hb. unfold late. simpl. intros Hl%bool_decide_eq_true.
      eapply Hdisj; [|done]. apply list_elem_of_fmap. by exists (p, v). }
  simpl in HS1. eapply State_Permutation in HS1; [|exact Hfilter].
  destruct (fulfill_registered u inputs ret ctr late after h1 HS1)
    as (h2 & Hruns2 & HF).
  destruct (runs_listPromise u inputs ret ctr h0 h1 Hne eq_refl eq_refl Hloop)
    as [Hrun1 Hrun1'].
  exists h0, h1, h2. repeat split; try done.
  intros Ha. destruct HS1 as [[Hnil _]|[_ [_ Hr _ _ _ _ _]]]; [done|].
  by eexists.
Qed.

(** Three inputs: the third fulfilled before the call, then the second and
    the first after it. *)
Lemma listPromise_collects_in_input_order_witness :
  let h := [pending_promise; pending_promise; pending_promise] in
  ∃ h0 h1 h2,
    runs_all user_example (fulfill_calls [(2, VInt 3)]) h h0 ∧
    runs user_example (Call_listPromise [VPromise 0; VPromise 1; VPromise 2])
         h0 h1 (Return (VPromise (length h0))) ∧
    runs user_example
         (Call_listPromise [VList [VPromise 0; VPromise 1; VPromise 2]])
         h0 h1 (Return (VPromise (length h0))) ∧
    ([(1, VInt 2); (0, VInt 1)] ≠ [] → pending h1 (length h0)) ∧
    runs_all user_example (fulfill_calls [(1, VInt 2); (0, VInt 1)]) h1 h2 ∧
    fulfilled_with h2 (length h0) (VList [VInt 1; VInt 2; VInt 3]).
Proof.
  exact (listPromise_collects_in_input_order user_example
           [pending_promise; pending_promise; pending_promise]
           [(0, VInt 1); (1, VInt 2); (2, VInt 3)]
           [(2, VInt 3)] [(1, VInt 2); (0, VInt 1)]
           ltac:(done) NoDup_012 eq_refl eq_refl
           (reverse_Permutation [(0, VInt 1); (1, VInt 2); (2, VInt 3)])).
Defined.

(** C9 (the code departs from it when two inputs are already rejected): the
    second input's [addErrback] calls [ret.reject] at once, on a result that
    the first input has already rejected; the assertion error is raised with
    no handler on the way, so [listPromise] itself raises.  When the inputs
    are rejected after the call, the first rejection settles the result and
    the second attempt's error is discarded by the dispatch loop. *)
Theorem listPromise_rejected_inputs :
  (let h := [rejected_promise (ValueError "a");
             rejected_promise (ValueError "b")] in
   ∃ h', runs user_example (Call_listPromise [VPromise 0; VPromise 1]) h h'
              (Raise assertion_error) ∧
         rejected_with h' 2 (ValueError "a")) ∧
  (let h := [pending_promise; pending_promise] in
   ∃ h1 h2 h3,
     runs user_example (Call_listPromise [VPromise 0; VPromise 1]) h h1
          (Return (VPromise 2)) ∧
     runs user_example (Call_reject 1 (ValueError "b")) h1 h2 (Return VNone) ∧
     rejected_with h2 2 (ValueError "b") ∧
     runs user_example (Call_reject 0 (ValueError "a")) h2 h3 (Return VNone) ∧
     rejected_with h3 2 (ValueError "b")).
Proof.
  split.
  - eexists. split; [apply (runs_of_exec _ 6); vm_compute; reflexivity|].
    by eexists.
  - do 3 eexists.
    split; [apply (runs_of_exec _ 6); vm_compute; reflexivity|].
    split; [apply (runs_of_exec _ 4); vm_compute; reflexivity|].
    split; [by eexists|].
    split; [apply (runs_of_exec _ 4); vm_compute; reflexivity|by eexists].
Qed.

(** ** Rejection (C10) *)

(** C10: [reject(r)] on a pending promise stores [r] as it is given, whatever
    [r] is (a promise and a thenable included): whenever the call returns the
    promise is REJECTED with reason [r], and on a promise whose reactions are
    functions of the caller it returns normally having changed that promise
    alone, so nothing was registered on [r]. *)
Theorem reject_stores_reason_verbatim (u : nat → val → outcome) h p pr r :
  h !! p = Some (OPromise pr) → _state pr = PENDING →
  (∀ n h' o, exec u n (Call_reject p r) h = Some (h', o) →
             h' !! p = Some (OPromise (rejected_rec pr r))) ∧
  (quiet h p = true →
   runs u (Call_reject p r) h (<[p := OPromise (rejected_rec pr r)]> h)
        (Return VNone)).
Proof.
  intros Hp Hs. split.
  - intros n h' o. by apply exec_reject_pending_result.
  - intros Hq. by apply runs_reject_quiet.
Qed.

(** A pending promise rejected with another promise as the reason. *)
Lemma reject_stores_reason_verbatim_witness :
  let h := [pending_promise; pending_promise] in
  runs user_example (Call_reject 0 (VPromise 1)) h
       [rejected_promise (VPromise 1); pending_promise] (Return VNone).
Proof.
  apply (reject_stores_reason_verbatim user_example
           [pending_promise; pending_promise] 0 new_Promise (VPromise 1)
           eq_refl eq_refl).
  reflexivity.
Defined.

(** ** Further properties of the state machine *)

(** Once a promise is settled its record (state, value, reason, lists) is
    never changed again: it is the same after any call, whatever the call
    and however deep it runs. *)
Theorem settled_record_never_changes (u : nat → val → outcome) n c h h' o p pr :
  exec u n c h = Some (h', o) →
  h !! p = Some (OPromise pr) → _state pr ≠ PENDING →
  h' !! p = Some (OPromise pr).
Proof. apply settled_stable. Qed.

Lemma settled_record_never_changes_witness :
  [rejected_promise (VInt 1); fulfilled_promise (VInt 5)] !! 0
  = Some (rejected_promise (VInt 1)).
Proof.
  apply (settled_record_never_changes user_example 3 (Call_fulfill 1 (VInt 5))
           [rejected_promise (VInt 1); pending_promise] _ (Return VNone)
           0 _ eq_refl eq_refl).
  done.
Defined.

(** No call of the interface stores a promise or a thenable as the value of
    a fulfilled promise: if every fulfilled promise holds a plain value
    before a call, so it is after it. *)
Theorem fulfilled_value_is_plain (u : nat → val → outcome) n c h h' o :
  public c = true → values_plain h →
  exec u n c h = Some (h', o) → values_plain h'.
Proof. intros Hc Hh He. by eapply exec_keeps. Qed.

Lemma values_plain_pending : values_plain [pending_promise; pending_promise].
Proof.
  intros [|[|r]] pr Hr Hs; simpl in Hr; [| |done]; by injection Hr as <-.
Qed.

Lemma fulfilled_value_is_plain_witness :
  values_plain
    [pending_promise;
     OPromise (add_errback (add_callback new_Promise (VFun (BoundFulfill 0)))
                           (VFun (BoundReject 0)))].
Proof.
  apply (fulfilled_value_is_plain user_example 4 (Call_fulfill 0 (VPromise 1))
           [pending_promise; pending_promise] _ (Return VNone)
           eq_refl values_plain_pending eq_refl).
Defined.

(** A [then] handler that returns a pending promise [Q]: the promise [then]
    returned adopts [Q], it stays pending, and takes [Q]'s outcome when [Q]
    is settled. *)
Theorem then_handler_returning_promise (u : nat → val → outcome) h p pr ks kf Q :
  h !! p = Some (OPromise pr) → _state pr = FULFILLED →
  u ks (value pr) = Return (VPromise Q) → quiet h Q = true →
  ∃ h1, runs u (Call_then p (VFun (UserFn ks)) (VFun (UserFn kf))) h h1
             (Return (VPromise (length h))) ∧
        pending h1 (length h) ∧
        (∀ V, plain V = true →
           ∃ h2, runs u (Call_fulfill Q V) h1 h2 (Return VNone) ∧
                 fulfilled_with h2 (length h) V) ∧
        (∀ R,
           ∃ h2, runs u (Call_reject Q R) h1 h2 (Return VNone) ∧
                 rejected_with h2 (length h) R).
Proof.
  intros Hp Hs Hks HQ.
  destruct (quiet_inv _ _ HQ) as (v0 & r0 & cbs & ebs & HlQ & _).
  apply lookup_lt_Some in HlQ as HltQ.
  assert (length h ≠ Q) as Hne by lia.
  assert (quiet (h ++ [OPromise new_Promise]) Q = true) as HQ'.
  { unfold quiet in *. by rewrite lookup_app_l by done. }
  destruct (adopt_quiet u (h ++ [OPromise new_Promise]) (length h) Q Hne HQ')
    as (h1 & [n1 Hrun] & Hfeeds & Hlen & Hframe).
  assert (h1 !! p = Some (OPromise pr)) as Hp1.
  { rewrite Hframe; [by apply lookup_app_l_Some|]. intros ->.
    destruct (quiet_pending _ _ HQ) as (pr' & HQl & HQs). congruence. }
  assert (chain h1 [Q; length h]) as Hchain.
  { split; [done|]. simpl. unfold quiet. rewrite Hframe by done.
    by rewrite lookup_alloc. }
  assert (NoDup [Q; length h]) as Hnd.
  { apply NoDup_cons. split; [|apply NoDup_singleton].
    intros Heq%list_elem_of_singleton. lia. }
  exists h1. split; [|split; [|split]].
  - eapply runs_then, runs_done; [done..| |].
    + eapply (runs_addCallback_fulfilled u p _ _ pr _ (Return VNone));
        [by apply lookup_app_l_Some|done..|].
      destruct (runs_apply_user u ks (value pr) (h ++ [OPromise new_Promise]))
        as [n0 H0].
      apply runs_step. exists (n0 + n1). intros m Hm. simpl.
      unfold callAndFulfill, try_except, bind. simpl.
      rewrite H0 by lia. rewrite Hks. by rewrite Hrun by lia.
    + by eapply (runs_addErrback_fulfilled u p _ _ pr).
  - eapply chain_pending; [done|]. set_solver.
  - intros V HV.
    destruct (chain_fulfill u _ _ h1 V Hchain Hnd HV) as (h2 & Hrun2 & Hful & _).
    exists h2. split; [done|]. apply Hful. set_solver.
  - intros R.
    destruct (chain_reject u _ _ h1 R Hchain Hnd) as (h2 & Hrun2 & Hrej & _).
    exists h2. split; [done|]. apply Hrej. set_solver.
Qed.

Lemma then_handler_returning_promise_witness :
  let u := user_returns (VPromise 1) in
  ∃ h1 h2,
    runs u (Call_then 0 (VFun (UserFn 0)) (VFun (UserFn 0)))
         [fulfilled_promise (VInt 7); pending_promise] h1
         (Return (VPromise 2)) ∧
    pending h1 2 ∧
    runs u (Call_fulfill 1 (VInt 9)) h1 h2 (Return VNone) ∧
    fulfilled_with h2 2 (VInt 9).
Proof.
  destruct (then_handler_returning_promise (user_returns (VPromise 1))
              [fulfilled_promise (VInt 7); pending_promise] 0 _ 0 0 1
              eq_refl eq_refl eq_refl eq_refl)
    as (h1 & Hrun & Hpend & Hful & _).
  destruct (Hful (VInt 9) eq_refl) as (h2 & Hrun2 & Hret).
  by exists h1, h2.
Defined.

(** * Outcomes, invariants and chains *)

(** ** What a settling call returns

    The dispatch loops of [_fulfill] and [reject] discard what a reaction
    raises, so settling a pending promise returns [None] whatever its
    reactions do. *)

Section Outcomes.
Variable u : nat → val → outcome.

Lemma exec_reject_pending_outcome n p r h pr ebs h' o :
  h !! p = Some (OPromise pr) → _state pr = PENDING → _errbacks pr = Some ebs →
  exec u n (Call_reject p r) h = Some (h', o) → o = Return VNone.
Proof.
  intros Hp Hs He. destruct n as [|n]; [done|]. rewrite exec_unfold. simpl.
  erewrite reject_pending by done. apply dispatch_returns.
Qed.

Lemma exec_fulfill_plain_outcome n p v h pr cbs h' o :
  plain v = true →
  h !! p = Some (OPromise pr) → _state pr = PENDING → _callbacks pr = Some cbs →
  exec u n (Call_fulfill p v) h = Some (h', o) → o = Return VNone.
Proof.
  intros Hv Hp Hs Hc. destruct n as [|n]; [done|]. rewrite exec_unfold. simpl.
  rewrite fulfill_plain by done.
  destruct n as [|n]; [done|]. rewrite exec_unfold. simpl.
  erewrite _fulfill_pending by done. apply dispatch_returns.
Qed.

Lemma has_then_isPromise x : has_then x = true → _isPromise x = true.
Proof. unfold _isPromise. intros ->. by rewrite orb_true_r. Qed.

Lemma is_other p x : x ≠ VPromise p → is_ p x = false.
Proof.
  intros Hx. destruct x; try done. simpl. apply bool_decide_eq_false. congruence.
Qed.

(** [q.done(p.fulfill, p.reject)] for a pending [p]: the call returns
    [None], or it raises and [p] is as it was. *)
Lemma exec_done_bound n q p h pr cbs ebs h1 o :
  q ≠ p →
  h !! p = Some (OPromise pr) → _state pr = PENDING →
  _callbacks pr = Some cbs → _errbacks pr = Some ebs →
  values_plain h →
  exec u n (Call_done q (VFun (BoundFulfill p)) (VFun (BoundReject p))) h
  = Some (h1, o) →
  o = Return VNone ∨ (∃ e, o = Raise e ∧ h1 !! p = Some (OPromise pr)).
Proof.
  intros Hne Hp Hs Hc He Hplain.
  destruct n as [|n]; [done|]. rewrite exec_unfold. simpl. unfold done. simpl.
  unfold bind at 1.
  destruct n as [|n]; [done|]. rewrite !exec_unfold. simpl.
  unfold addCallback at 1. unfold bind at 1. simpl.
  destruct (h !! q) as [[prq| |]|] eqn:Hq; try done.
  destruct (_state prq) eqn:Hsq.
  - (* q is pending *)
    destruct (_callbacks prq) as [l|] eqn:Hl; [|intros [= <- <-]; eauto].
    unfold addErrback, bind. simpl.
    rewrite list_lookup_insert_eq by (by eapply lookup_lt_Some). simpl.
    try rewrite Hsq. destruct (_errbacks prq) as [l'|]; intros [= <- <-]; [by left|].
    right. eexists. split; [done|]. by rewrite list_lookup_insert_ne.
  - (* q is rejected *)
    unfold addErrback, bind. simpl. rewrite Hq, Hsq.
    destruct n as [|n]; [done|]. rewrite exec_unfold. simpl.
    destruct (exec u n (Call_reject p (reason prq)) h) as [[h2 o2]|] eqn:Hr;
      [|done].
    apply exec_reject_pending_outcome with (pr := pr) (ebs := ebs) in Hr as ->;
      [|done..].
    intros [= <- <-]. by left.
  - (* q is fulfilled *)
    unfold bind at 1.
    destruct n as [|n]; [done|]. rewrite exec_unfold. simpl.
    destruct (exec u n (Call_fulfill p (value prq)) h) as [[h2 o2]|] eqn:Hf;
      [|done].
    pose proof (settled_stable _ _ _ _ _ _ q prq Hf Hq ltac:(congruence)) as Hq2.
    apply exec_fulfill_plain_outcome with (pr := pr) (cbs := cbs) in Hf as ->;
      [|by eapply Hplain|done..].
    simpl. unfold addErrback, bind. simpl. rewrite Hq2, Hsq.
    intros [= <- <-]. by left.
Qed.

(** What [_promisify] returns on a promise-like value. *)
Lemma exec_promisify_inv n x h h0 o :
  _isPromise x = true →
  exec u n (Call_promisify x) h = Some (h0, o) →
  (∃ q, x = VPromise q ∧ h0 = h ∧ o = Return (VPromise q)) ∨
  (∃ b d t regs k,
     x = VForeign b d t ∧ h !! b = Some (OForeign regs) ∧
     h0 = <[b := OForeign (regs ++ [(k, VFun (BoundFulfill (length h)),
                                       VFun (BoundReject (length h)))])]>
            (h ++ [OPromise new_Promise]) ∧
     o = Return (VPromise (length h))).
Proof.
  intros Hx. destruct n as [|n]; [done|]. rewrite exec_unfold. simpl.
  unfold _promisify. destruct x as [| | | | |q|b d t| |]; try done; simpl.
  - intros [= <- <-]. left. eauto.
  - unfold _isPromise in Hx. simpl in Hx.
    destruct d; simpl.
    + unfold bind, Promise_new, foreign_register.
      destruct (h !! b) as [[| |regs]|] eqn:Hb.
      * by rewrite (lookup_app_l_Some _ _ _ _ Hb).
      * by rewrite (lookup_app_l_Some _ _ _ _ Hb).
      * rewrite (lookup_app_l_Some _ _ _ _ Hb). intros [= <- <-].
        right. by eexists b, true, t, regs, ByDone.
      * destruct (decide (b = length h)) as [->|Hbl].
        -- by rewrite lookup_alloc.
        -- rewrite lookup_app_r, lookup_ge_None_2; [done| |];
             apply lookup_ge_None in Hb; simpl; lia.
    + destruct t; [|done]. simpl.
      unfold bind, Promise_new, foreign_register.
      destruct (h !! b) as [[| |regs]|] eqn:Hb.
      * by rewrite (lookup_app_l_Some _ _ _ _ Hb).
      * by rewrite (lookup_app_l_Some _ _ _ _ Hb).
      * rewrite (lookup_app_l_Some _ _ _ _ Hb). intros [= <- <-].
        right. by eexists b, false, true, regs, ByThen.
      * destruct (decide (b = length h)) as [->|Hbl].
        -- by rewrite lookup_alloc.
        -- rewrite lookup_app_r, lookup_ge_None_2; [done| |];
             apply lookup_ge_None in Hb; simpl; lia.
Qed.

(** [p.fulfill(x)] on a pending [p], for any [x] but [p] itself: whenever
    the call returns, it returns [None]. *)
Lemma exec_fulfill_pending_outcome n p x h pr cbs ebs h' o :
  h !! p = Some (OPromise pr) → _state pr = PENDING →
  _callbacks pr = Some cbs → _errbacks pr = Some ebs →
  values_plain h → x ≠ VPromise p →
  exec u n (Call_fulfill p x) h = Some (h', o) → o = Return VNone.
Proof.
  intros Hp Hs Hc He Hplain Hx.
  destruct (_isPromise x) eqn:Hpx.
  - destruct n as [|n]; [done|]. rewrite exec_unfold. simpl.
    unfold fulfill. rewrite (is_other _ _ Hx), Hpx.
    unfold try_except, bind.
    destruct (exec u n (Call_promisify x) h) as [[h0 o0]|] eqn:Hq; [|done].
    assert (∃ q, o0 = Return (VPromise q) ∧ q ≠ p ∧
                 h0 !! p = Some (OPromise pr) ∧ values_plain h0)
      as (q & -> & Hqp & Hp0 & Hplain0).
    { apply exec_promisify_inv in Hq; [|done].
      destruct Hq
        as [(q & -> & -> & ->)|(b & d & t & regs & k & -> & Hb & -> & ->)].
      - exists q. split; [done|]. split; [congruence|done].
      - exists (length h). split; [done|].
        apply lookup_lt_Some in Hp as Hlt. split; [lia|]. split.
        + rewrite list_lookup_insert_ne by congruence.
          by apply lookup_app_l_Some.
        + apply values_plain_insert; [done|].
          apply values_plain_alloc; [|done]. by intros pr' [= <-]. }
    simpl.
    destruct (exec u n (Call_done q _ _) h0) as [[h1 o1]|] eqn:Hd; [|done].
    eapply exec_done_bound in Hd as [->|(e & -> & Hp1)]; [| |done..].
    + by intros [= _ <-].
    + by apply exec_reject_pending_outcome with (pr := pr) (ebs := ebs).
  - apply exec_fulfill_plain_outcome with (pr := pr) (cbs := cbs); [|done..].
    unfold plain. by rewrite Hpx.
Qed.

End Outcomes.

(** ** [then] never raises

    Both closures of [then] run the handler and the settlement of the new
    promise inside [try], and reject the new promise in the [except] clause. *)


Section ThenOutcome.
Variable u : nat → val → outcome.

(** try: ret.fulfill(w)  except Exception as e: ret.reject(e) *)
Lemma exec_fulfill_or_reject_outcome n m ret w h pr cbs ebs h' o :
  h !! ret = Some (OPromise pr) → _state pr = PENDING →
  _callbacks pr = Some cbs → _errbacks pr = Some ebs → values_plain h →
  try_except (exec u n (Call_fulfill ret w))
             (λ e, exec u m (Call_reject ret e)) h = Some (h', o) →
  o = Return VNone.
Proof.
  intros Hr Hs Hc He Hplain. unfold try_except.
  destruct (is_ ret w) eqn:Hw.
  - assert (w = VPromise ret) as ->.
    { destruct w; try done. simpl in Hw. by apply bool_decide_eq_true in Hw as ->. }
    destruct n as [|n]; [done|]. rewrite exec_unfold. simpl.
    rewrite fulfill_self. simpl.
    by apply exec_reject_pending_outcome with (pr := pr) (ebs := ebs).
  - destruct (exec u n (Call_fulfill ret w) h) as [[h1 o1]|] eqn:Hf; [|done].
    apply exec_fulfill_pending_outcome with (pr := pr) (cbs := cbs) (ebs := ebs)
      in Hf as ->; [by intros [= _ <-]|done..|].
    intros ->. simpl in Hw. by rewrite bool_decide_eq_true_2 in Hw.
Qed.




End ThenOutcome.

(** ** Reaction lists follow the state, latches stay non-negative

    [obj_ok]: a pending promise has both reaction lists; a fulfilled one has
    [_callbacks = None] (and still holds its list of errbacks), a rejected
    one has [_errbacks = None] (and still holds its list of callbacks); the
    count of a latch is not negative. *)

Definition obj_ok (o : obj) : Prop :=
  match o with
  | OPromise pr =>
      match _state pr with
      | PENDING => is_Some (_callbacks pr) ∧ is_Some (_errbacks pr)
      | FULFILLED => _callbacks pr = None ∧ is_Some (_errbacks pr)
      | REJECTED => is_Some (_callbacks pr) ∧ _errbacks pr = None
      end
  | OLatch c => (0 ≤ c)%Z
  | OForeign _ => True
  end.

Definition coherent (h : heap) : Prop := Forall obj_ok h.

Definition Mcoh (m : M) : Prop :=
  ∀ h h' o, m h = Some (h', o) → coherent h → coherent h'.

Lemma coherent_alloc h o : obj_ok o → coherent h → coherent (h ++ [o]).
Proof. intros Ho Hh. apply Forall_app. split; [done|]. by apply Forall_singleton. Qed.

Lemma coherent_insert (h : heap) r o : obj_ok o → coherent h → coherent (<[r := o]> h).
Proof. intros Ho Hh. by apply Forall_insert. Qed.

Lemma coherent_lookup (h : heap) r o : coherent h → h !! r = Some o → obj_ok o.
Proof. intros Hh Hr. by eapply Forall_lookup_1. Qed.

Lemma Mcoh_return v : Mcoh (return_ v).
Proof. by intros h h' o [= <- _]. Qed.

Lemma Mcoh_raise e : Mcoh (raise e).
Proof. by intros h h' o [= <- _]. Qed.

Lemma Mcoh_none : Mcoh (λ _, None).
Proof. by intros h h' o. Qed.

Lemma Mcoh_bind m k : Mcoh m → (∀ v, Mcoh (k v)) → Mcoh (bind m k).
Proof.
  intros Hm Hk h h' o. unfold bind.
  destruct (m h) as [[h1 [v|e]]|] eqn:E; [| |done].
  - intros Hkv Hh. eapply Hk; [done|]. by eapply Hm.
  - intros [= <- _]. by eapply Hm.
Qed.

Lemma Mcoh_try_except m k : Mcoh m → (∀ e, Mcoh (k e)) → Mcoh (try_except m k).
Proof.
  intros Hm Hk h h' o. unfold try_except.
  destruct (m h) as [[h1 [v|e]]|] eqn:E; [| |done].
  - intros [= <- _]. by eapply Hm.
  - intros Hkv Hh. eapply Hk; [done|]. by eapply Hm.
Qed.

Lemma Mcoh_assert b : Mcoh (assert b).
Proof. destruct b; [apply Mcoh_return|apply Mcoh_raise]. Qed.

Lemma Mcoh_Promise_new : Mcoh Promise_new.
Proof.
  intros h h' o [= <- _]. apply coherent_alloc. simpl. split; by eexists.
Qed.

Lemma Mcoh_CountdownLatch c : Mcoh (CountdownLatch c).
Proof.
  unfold CountdownLatch, assert, bind. intros h h' o.
  case_bool_decide; simpl; intros [= <- _]; [|done]. by apply coherent_alloc.
Qed.

Lemma Mcoh_dec c : Mcoh (dec c).
Proof.
  intros h h' o. unfold dec.
  destruct (h !! c) as [[| |]|] eqn:E; try done.
  case_bool_decide; intros [= <- _]; [|done].
  apply coherent_insert. simpl. lia.
Qed.

Lemma Mcoh_map_value ps acc : Mcoh (map_value ps acc).
Proof.
  revert acc. induction ps as [|p ps IH]; intros acc; simpl.
  - apply Mcoh_return.
  - apply Mcoh_bind; [|intros v; apply IH].
    intros h h' o. unfold get_value. destruct p; try by intros [= <- _].
    destruct (h !! r) as [[| |]|]; try done. by intros [= <- _].
Qed.

Lemma Mcoh_foreign_register k r a b : Mcoh (foreign_register k r a b).
Proof.
  intros h h' o. unfold foreign_register.
  destruct (h !! r) as [[| |]|] eqn:E; try done.
  intros [= <- _]. by apply coherent_insert.
Qed.

Ltac mcoh_step :=
  first
    [ assumption
    | apply Mcoh_return | apply Mcoh_raise | apply Mcoh_none
    | apply Mcoh_assert | apply Mcoh_Promise_new
    | apply Mcoh_CountdownLatch | apply Mcoh_dec
    | apply Mcoh_map_value | apply Mcoh_foreign_register
    | apply Mcoh_bind; [|intros ?]
    | apply Mcoh_try_except; [|intros ?]
    | match goal with
      | H : ∀ c, Mcoh (?r c) |- Mcoh (?r _) => apply H
      | |- Mcoh (if ?b then _ else _) => destruct b
      | |- Mcoh (match ?x with _ => _ end) => destruct x
      end ].
Ltac mcoh := unfold try_pass; repeat mcoh_step.

Section Coherence.
Variable user_call : nat → val → outcome.
Variable rec : call → M.
Hypothesis Hrec : ∀ c, Mcoh (rec c).

Lemma Mcoh_dispatch l v : Mcoh (dispatch rec l v).
Proof. induction l as [|f l IH]; simpl; mcoh. Qed.

Lemma Mcoh_listPromise_loop a b l : Mcoh (listPromise_loop rec a b l).
Proof. induction l as [|f l IH]; simpl; unfold invoke_done; mcoh. Qed.

Lemma step_coherent c : Mcoh (step user_call rec c).
Proof.
  destruct c; simpl.
  - unfold fulfill, invoke_done, invoke_then. mcoh.
  - intros h h' o. unfold _fulfill.
    destruct (h !! self) as [[pr| |]|] eqn:E; try done.
    case_bool_decide as Hs; [|by intros [= <- _]].
    intros Hd Hh. pose proof (coherent_lookup _ _ _ Hh E) as Hok.
    simpl in Hok. rewrite Hs in Hok. destruct Hok as [[cbs Hc] He].
    rewrite Hc in Hd. eapply Mcoh_dispatch; [done|].
    by apply coherent_insert.
  - intros h h' o. unfold reject.
    destruct (h !! self) as [[pr| |]|] eqn:E; try done.
    case_bool_decide as Hs; [|by intros [= <- _]].
    intros Hd Hh. pose proof (coherent_lookup _ _ _ Hh E) as Hok.
    simpl in Hok. rewrite Hs in Hok. destruct Hok as [Hc [ebs He]].
    rewrite He in Hd. eapply Mcoh_dispatch; [done|].
    by apply coherent_insert.
  - unfold addCallback. apply Mcoh_bind; [apply Mcoh_assert|]. intros _ h h' o.
    destruct (h !! self) as [[pr| |]|] eqn:E; try done.
    destruct (_state pr) eqn:Es.
    + destruct (_callbacks pr) eqn:Ec; intros [= <- _] Hh; [|done].
      pose proof (coherent_lookup _ _ _ Hh E) as Hok.
      simpl in Hok. rewrite Es in Hok. destruct Hok as [_ He].
      apply coherent_insert; [|done]. simpl. try rewrite Es. split; [by eexists|done].
    + by intros [= <- _].
    + revert h' o. clear E. revert h.
      change (Mcoh (rec (Call_apply f (value pr)) ;;; return_ VNone)). mcoh.
  - unfold addErrback. apply Mcoh_bind; [apply Mcoh_assert|]. intros _ h h' o.
    destruct (h !! self) as [[pr| |]|] eqn:E; try done.
    destruct (_state pr) eqn:Es.
    + destruct (_errbacks pr) eqn:Ec; intros [= <- _] Hh; [|done].
      pose proof (coherent_lookup _ _ _ Hh E) as Hok.
      simpl in Hok. rewrite Es in Hok. destruct Hok as [Hc _].
      apply coherent_insert; [|done]. simpl. try rewrite Es. split; [done|by eexists].
    + revert h' o. clear E. revert h.
      change (Mcoh (rec (Call_apply f (reason pr)) ;;; return_ VNone)). mcoh.
    + by intros [= <- _].
  - unfold done. mcoh.
  - unfold then_. mcoh.
  - unfold Promise_value. mcoh.
  - unfold Promise_rejection. mcoh.
  - unfold _promisify, invoke_done, invoke_then. mcoh.
  - unfold listPromise. case_bool_decide; [mcoh|].
    apply Mcoh_bind; [mcoh|]. intros r.
    apply Mcoh_bind; [mcoh|]. intros c.
    destruct r; try apply Mcoh_none. destruct c; try apply Mcoh_none.
    apply Mcoh_bind; [apply Mcoh_listPromise_loop|]. intros; mcoh.
  - unfold apply, callAndFulfill, callAndReject, handleSuccess.
    destruct f; try apply Mcoh_raise. destruct c; mcoh.
    by intros h h' o [= <- _].
Qed.
End Coherence.

Lemma exec_coherent u n c : Mcoh (exec u n c).
Proof.
  revert c. induction n as [|n IH]; intros c; [apply Mcoh_none|].
  simpl. by apply step_coherent.
Qed.

(** ** Chains of [then]

    [p.then(s1, f1).then(s2, f2)...]: each link hands the outcome of its
    handler to the next one. *)

(** [p] is fulfilled with a returned value, or rejected with a raised one. *)
Definition settled_as (h : heap) (p : ref) (o : outcome) : Prop :=
  match o with
  | Return v => fulfilled_with h p v
  | Raise e => rejected_with h p e
  end.

(** p.fulfill(v), or p.reject(e) *)
Definition settle_call (p : ref) (o : outcome) : call :=
  match o with
  | Return v => Call_fulfill p v
  | Raise e => Call_reject p e
  end.

(** What one link with the handlers [(success, failure)] makes of the
    outcome of the promise before it. *)
Definition handler_outcome (u : nat → val → outcome) (sf : val * val)
    (o : outcome) : option outcome :=
  match o with
  | Return v => on_success u sf.1 v
  | Raise r => on_failure u sf.2 r
  end.

(** The outcome at the end of a chain of links, as long as every handler
    hands on a plain value or an error. *)
Fixpoint pipeline (u : nat → val → outcome) (hs : list (val * val))
    (o : outcome) : option outcome :=
  match hs with
  | [] => Some o
  | sf :: rest =>
      match handler_outcome u sf o with
      | Some o1 => if plain_outcome o1 then pipeline u rest o1 else None
      | None => None
      end
  end.

(** q1 = p.then(s1, f1); q2 = q1.then(s2, f2); ...; [last] is the promise
    the final call returns ([p] itself for no call). *)
Inductive then_chain (u : nat → val → outcome) :
    ref → list (val * val) → heap → heap → ref → Prop :=
| then_chain_nil p h : then_chain u p [] h h p
| then_chain_cons p s f rest h h1 q h2 last :
    runs u (Call_then p s f) h h1 (Return (VPromise q)) →
    then_chain u q rest h1 h2 last →
    then_chain u p ((s, f) :: rest) h h2 last.

(** The heap a chain of [then] on a pending promise leaves: [p] awaits the
    closures of the first link, whose promise awaits those of the second,
    and so on; the last promise has reactions of the caller only. *)
Fixpoint linked (h : heap) (p : ref) (hs : list (val * val)) (qs : list ref)
    : Prop :=
  match hs, qs with
  | [], [] => quiet h p = true
  | (s, f) :: hs', q :: qs' =>
      awaits h p (VFun (CallAndFulfill q s)) (VFun (CallAndReject q f)) ∧
      linked h q hs' qs'
  | _, _ => False
  end.

Lemma settled_as_insert (h : heap) p pr o :
  p < length h → settled_as (<[p := OPromise (settle_rec pr o)]> h) p o.
Proof.
  intros Hp. destruct o; simpl.
  - by apply fulfilled_with_insert.
  - by apply rejected_with_insert.
Qed.

Lemma settled_as_alloc (h : heap) o :
  settled_as (h ++ [OPromise (settle_rec new_Promise o)]) (length h) o.
Proof. destruct o; eexists; (split; [apply lookup_alloc|done]). Qed.

Lemma awaits_frame h h' p f g : h' !! p = h !! p → awaits h p f g → awaits h' p f g.
Proof. intros Heq (pr & cbs & ebs & H). exists pr, cbs, ebs. by rewrite Heq. Qed.

Lemma linked_frame hs : ∀ h h' p qs,
  (∀ r, r ∈ p :: qs → h' !! r = h !! r) → linked h p hs qs → linked h' p hs qs.
Proof.
  induction hs as [|[s f] hs IH]; intros h h' p [|q qs] Heq; simpl; try done.
  - unfold quiet. rewrite Heq; [done|]. apply list_elem_of_here.
  - intros [Ha Hl]. split.
    + eapply awaits_frame; [|done]. apply Heq, list_elem_of_here.
    + eapply IH; [|done]. intros r Hr. by apply Heq, list_elem_of_further.
Qed.

Lemma linked_last_quiet hs : ∀ h p qs,
  linked h p hs qs → quiet h (default p (last qs)) = true.
Proof.
  induction hs as [|[s f] hs IH]; intros h p [|q qs]; simpl; try done.
  intros [_ Hl]. apply IH in Hl. rewrite last_cons. by destruct (last qs).
Qed.

Section ThenChains.
Variable u : nat → val → outcome.

Lemma runs_callAndFulfill_settle r success v o h h' :
  on_success u success v = Some o →
  runs u (settle_call r o) h h' (Return VNone) →
  runs u (Call_apply (VFun (CallAndFulfill r success)) v) h h' (Return VNone).
Proof.
  intros Ho Hs. destruct (_isFunction success) eqn:Hf.
  - destruct success as [| | | | | | | |[| | | | |k]]; try done.
    simpl in Ho. injection Ho as <-.
    destruct (runs_apply_user u k v h) as [n0 H0].
    destruct (u k v) as [w|e] eqn:E; destruct Hs as [n H];
      apply runs_step; exists (n0 + n); intros m Hm; simpl;
      unfold callAndFulfill, try_except, bind; simpl;
      rewrite H0 by lia; by rewrite H by lia.
  - assert (o = Return v) as -> by (destruct success; simpl in *; congruence).
    destruct Hs as [n H]. apply runs_step. exists n. intros m Hm. simpl.
    unfold callAndFulfill, try_except. rewrite Hf. by rewrite H by lia.
Qed.

Lemma runs_callAndReject_settle r failure v o h h' :
  on_failure u failure v = Some o →
  runs u (settle_call r o) h h' (Return VNone) →
  runs u (Call_apply (VFun (CallAndReject r failure)) v) h h' (Return VNone).
Proof.
  intros Ho Hs. destruct (_isFunction failure) eqn:Hf.
  - destruct failure as [| | | | | | | |[| | | | |k]]; try done.
    simpl in Ho. injection Ho as <-.
    destruct (runs_apply_user u k v h) as [n0 H0].
    destruct (u k v) as [w|e] eqn:E; destruct Hs as [n H];
      apply runs_step; exists (n0 + n); intros m Hm; simpl;
      unfold callAndReject, try_except, bind; simpl;
      rewrite H0 by lia; by rewrite H by lia.
  - assert (o = Raise v) as -> by (destruct failure; simpl in *; congruence).
    destruct Hs as [n H]. apply runs_step. exists n. intros m Hm. simpl.
    unfold callAndReject, try_except. rewrite Hf. by rewrite H by lia.
Qed.

(** Settling the head of a linked chain settles every link in turn. *)
Lemma linked_settle hs : ∀ h p qs o o',
  linked h p hs qs → NoDup (p :: qs) →
  plain_outcome o = true → pipeline u hs o = Some o' →
  ∃ h2, runs u (settle_call p o) h h2 (Return VNone) ∧
        settled_as h2 p o ∧
        settled_as h2 (default p (last qs)) o' ∧
        (∀ r, r ∉ p :: qs → h2 !! r = h !! r).
Proof.
  induction hs as [|[s f] hs IH]; intros h p [|q qs] o o' Hl Hnd Hplain Hpipe;
    simpl in Hl; try done.
  - simpl in Hpipe. injection Hpipe as <-.
    destruct (quiet_inv _ _ Hl) as (v0 & r0 & cbs & ebs & Hp & _).
    apply lookup_lt_Some in Hp as Hlt.
    exists (<[p := OPromise (settle_rec (mkPromise PENDING v0 r0 (Some cbs) (Some ebs)) o)]> h).
    split; [|split; [|split]].
    + pose proof (runs_settle_quiet u p o h _ Hp Hl Hplain) as Hr.
      by destruct o.
    + by apply settled_as_insert.
    + by apply settled_as_insert.
    + intros r Hr. apply list_lookup_insert_ne. set_solver.
  - destruct Hl as [(pr & cbs & ebs & Hp & Hs & Hcb & Heb & Hcbs & Hebs) Hl].
    simpl in Hpipe.
    destruct (handler_outcome u (s, f) o) as [o1|] eqn:Ho; [|done].
    destruct (plain_outcome o1) eqn:Hplain1; [|done].
    apply NoDup_cons in Hnd as [Hpq Hnd].
    apply lookup_lt_Some in Hp as Hlt.
    destruct (IH (<[p := OPromise (settle_rec pr o)]> h) q qs o1 o')
      as (h2 & Hrun & _ & Hlast & Hframe); [|done..|].
    { eapply linked_frame; [|done]. intros r Hr.
      apply list_lookup_insert_ne. by intros ->. }
    exists h2. split; [|split; [|split]].
    + destruct o as [v|e]; simpl in *.
      * apply runs_fulfill_plain; [done|].
        eapply runs__fulfill_pending; [done..|].
        eapply dispatches_app; [by apply dispatches_users|].
        eapply dispatches_cons; [|apply dispatches_nil].
        by eapply runs_callAndFulfill_settle.
      * eapply runs_reject_pending; [done..|].
        eapply dispatches_app; [by apply dispatches_users|].
        eapply dispatches_cons; [|apply dispatches_nil].
        by eapply runs_callAndReject_settle.
    + assert (h2 !! p = Some (OPromise (settle_rec pr o))) as Hp2.
      { rewrite Hframe by done. by apply list_lookup_insert_eq. }
      destruct o; by eexists.
    + rewrite last_cons. by destruct (last qs).
    + intros r Hr. rewrite Hframe by set_solver.
      apply list_lookup_insert_ne. set_solver.
Qed.

(** Building the chain on a promise that is still pending. *)
Lemma then_chain_build hs : ∀ h p,
  quiet h p = true →
  ∃ h1 qs,
    then_chain u p hs h h1 (default p (last qs)) ∧
    linked h1 p hs qs ∧ NoDup (p :: qs) ∧
    (∀ q, q ∈ qs → length h ≤ q) ∧
    (∀ r, r < length h → r ≠ p → h1 !! r = h !! r) ∧
    length h ≤ length h1.
Proof.
  induction hs as [|[s f] hs IH]; intros h p Hq.
  - exists h, []. simpl. repeat split; try done.
    + constructor.
    + apply NoDup_singleton.
    + by intros q Hin%elem_of_nil.
  - destruct (quiet_inv _ _ Hq) as (v0 & r0 & cbs & ebs & Hp & Hcbs & Hebs).
    apply lookup_lt_Some in Hp as Hlt.
    set (pr := mkPromise PENDING v0 r0 (Some cbs) (Some ebs)) in *.
    set (h1 := <[p := OPromise
            (add_errback (add_callback pr (VFun (CallAndFulfill (length h) s)))
                         (VFun (CallAndReject (length h) f)))]>
          (<[p := OPromise
               (add_callback pr (VFun (CallAndFulfill (length h) s)))]>
             (h ++ [OPromise new_Promise]))).
    assert (length h1 = S (length h)) as Hlen1.
    { unfold h1. rewrite !length_insert, length_app. simpl. lia. }
    assert (runs u (Call_then p s f) h h1 (Return (VPromise (length h)))) as Hrun.
    { by eapply then_on_pending. }
    assert (quiet h1 (length h) = true) as Hq1.
    { unfold h1. rewrite !quiet_insert_ne by lia. apply quiet_alloc. }
    destruct (IH h1 (length h) Hq1)
      as (h2 & qs & Hchain & Hlinked & Hnd & Hge & Hframe & Hlen2).
    exists h2, (length h :: qs). split; [|split; [|split; [|split; [|split]]]].
    + rewrite last_cons.
      replace (default p (match last qs with Some y => Some y | None => Some (length h) end))
        with (default (length h) (last qs)) by (by destruct (last qs)).
      by econstructor.
    + simpl. split; [|done].
      exists (add_errback (add_callback pr (VFun (CallAndFulfill (length h) s)))
                          (VFun (CallAndReject (length h) f))), cbs, ebs.
      split; [|done]. rewrite Hframe by lia. unfold h1.
      apply list_lookup_insert_eq. rewrite length_insert, length_app. lia.
    + apply NoDup_cons. split; [|done].
      intros [->|Hin]%elem_of_cons; [lia|]. apply Hge in Hin. lia.
    + intros q [->|Hin]%elem_of_cons; [done|]. apply Hge in Hin. lia.
    + intros r Hr Hrp. rewrite Hframe by lia. unfold h1.
      rewrite !list_lookup_insert_ne by done. by apply lookup_app_l.
    + lia.
Qed.

End ThenChains.

(** ** The sequence combinator when an input is rejected *)

Section FailFast.
Variable u : nat → val → outcome.
Variable inputs : list (ref * val).
Variables ret ctr : ref.
Variable late : ref → bool.

(** Fulfilling some of the registered inputs leaves the others awaited. *)
Lemma fulfill_registered_prefix reg : ∀ h rest,
  rest ≠ [] → State inputs ret ctr late h [] (reg ++ rest) →
  ∃ h', runs_all u (fulfill_calls reg) h h' ∧
        Waiting inputs ret ctr late 0 h' [] rest.
Proof.
  induction reg as [|[p v] reg IH]; intros h rest Hne HS.
  - destruct HS as [[Hnil _]|[_ HW]]; [done|].
    exists h. split; [constructor|done].
  - destruct HS as [[Hnil _]|[_ HW]]; [done|].
    pose proof HW as [Hl Hr Hreg Hrest Hall Hnd Hfr].
    destruct (Hreg p v (list_elem_of_here _ _))
      as [(pr & cbs & ebs & Hp & Hs & Hcb & Heb & Hcbs & Hebs) Hv].
    pose proof (Waiting_registered_fulfilled _ _ _ _ _ _ _ _ _ HW Hp) as HW1.
    destruct (IH _ rest Hne (Waiting_after_success _ _ _ _ _ _ _ HW1))
      as (h' & Hruns & HW').
    exists h'. split; [|done]. simpl. econstructor; [|done].
    apply runs_fulfill_plain; [done|].
    eapply runs__fulfill_pending; [done..|].
    eapply dispatches_app; [by apply dispatches_users|].
    eapply dispatches_cons; [|apply dispatches_nil].
    by eapply Waiting_runs_success.
Qed.

(** Rejecting an awaited input rejects the result at once. *)
Lemma Waiting_reject h p v rest R :
  Waiting inputs ret ctr late 0 h [] ((p, v) :: rest) →
  ∃ h', runs u (Call_reject p R) h h' (Return VNone) ∧
        rejected_with h' p R ∧ rejected_with h' ret R ∧
        (∀ q w, (q, w) ∈ rest → pending h' q).
Proof.
  intros [Hl Hr Hreg Hrest Hall Hnd Hfr].
  destruct (Hreg p v (list_elem_of_here _ _))
    as [(pr & cbs & ebs & Hp & Hs & Hcb & Heb & Hcbs & Hebs) Hv].
  destruct (Hfr p v (list_elem_of_here _ _)) as [Hpret Hpctr].
  apply lookup_lt_Some in Hp as Hplt. apply lookup_lt_Some in Hr as Hrlt.
  simpl in Hnd. apply NoDup_cons in Hnd as [Hpnd Hnd].
  set (h0 := <[p := OPromise (rejected_rec pr R)]> h).
  exists (<[ret := OPromise (rejected_rec new_Promise R)]> h0).
  split; [|split; [|split]].
  - eapply runs_reject_pending; [done..|].
    eapply dispatches_app; [by apply dispatches_users|].
    eapply dispatches_cons; [|apply dispatches_nil].
    apply runs_apply_BoundReject. apply runs_reject_quiet.
    + unfold h0. by rewrite list_lookup_insert_ne.
    + unfold h0. rewrite quiet_insert_ne by done. unfold quiet. by rewrite Hr.
  - apply rejected_with_insert_ne; [congruence|].
    apply rejected_with_insert. done.
  - apply rejected_with_insert. unfold h0. by rewrite length_insert.
  - intros q w Hin.
    destruct (Hreg q w (list_elem_of_further _ _ _ Hin))
      as [(prq & _ & _ & Hq & Hsq & _) _].
    destruct (Hfr q w (list_elem_of_further _ _ _ Hin)) as [Hqret _].
    exists prq. split; [|done]. unfold h0.
    rewrite !list_lookup_insert_ne; [done| |congruence].
    intros ->. apply Hpnd. apply list_elem_of_fmap. by exists (q, w).
Qed.

End FailFast.

(** The call of [listPromise] on distinct inputs, those of [before]
    already fulfilled and those of [after] still pending: afterwards the
    inputs of [after] are awaited. *)
Lemma listPromise_registers (u : nat → val → outcome) h inputs before after :
  inputs ≠ [] → NoDup inputs.*1 →
  forallb (quiet h) inputs.*1 = true → forallb plain inputs.*2 = true →
  before ++ after ≡ₚ inputs →
  ∃ h0 h1,
    runs_all u (fulfill_calls before) h h0 ∧
    runs u (Call_listPromise (VPromise <$> inputs.*1)) h0 h1
         (Return (VPromise (length h0))) ∧
    runs u (Call_listPromise [VList (VPromise <$> inputs.*1)]) h0 h1
         (Return (VPromise (length h0))) ∧
    State inputs (length h0) (S (length h0))
          (λ p, bool_decide (p ∈ after.*1)) h1 [] after.
Proof.
  intros Hne Hnd Hquiet Hplain Hperm.
  assert (∀ p v, (p, v) ∈ inputs → quiet h p = true ∧ plain v = true) as Hq.
  { intros p v Hin. split.
    - eapply forallb_forall in Hquiet; [done|]. apply list_elem_of_In.
      apply list_elem_of_fmap. by exists (p, v).
    - eapply forallb_forall in Hplain; [done|]. apply list_elem_of_In.
      apply list_elem_of_fmap. by exists (p, v). }
  assert (NoDup (before.*1 ++ after.*1)) as Hnd'.
  { by rewrite <-fmap_app, Hperm. }
  apply NoDup_app in Hnd' as (Hndb & Hdisj & Hnda).
  assert (∀ p v, (p, v) ∈ inputs ↔ (p, v) ∈ before ∨ (p, v) ∈ after) as Hin.
  { intros p v. by rewrite <-Hperm, elem_of_app. }
  destruct (fulfill_quiet_all u before h Hndb)
    as (h0 & Hruns0 & Hful0 & Hframe0 & Hlen0).
  { intros p v Hb. apply Hq, Hin. by left. }
  set (ret := length h0). set (ctr := S (length h0)).
  set (late := λ p : ref, bool_decide (p ∈ after.*1)).
  set (hstart := h0 ++ [OPromise new_Promise;
                        OLatch (Z.of_nat (length inputs))]).
  assert (∀ p o, h0 !! p = Some o → hstart !! p = Some o) as Hstart.
  { intros p o Hp. by apply lookup_app_l_Some. }
  assert (Waiting inputs ret ctr late 0 hstart inputs []) as HW.
  { split.
    - unfold hstart, ctr.
      change (h0 ++ [_; ?b]) with (h0 ++ [OPromise new_Promise] ++ [b]).
      rewrite app_assoc.
      replace (S (length h0)) with (length (h0 ++ [OPromise new_Promise]))
        by (rewrite length_app; simpl; lia).
      rewrite lookup_alloc. do 3 f_equal. simpl. lia.
    - unfold hstart, ret. by apply list_lookup_middle.
    - by intros p v Hr%elem_of_nil.
    - intros p v Hpv. unfold late. case_bool_decide as Hl.
      + destruct (Hq p v Hpv) as [Hqp Hv]. split; [|done].
        destruct (quiet_inv _ _ Hqp) as (v0 & r0 & cbs & ebs & Hlk & Hus).
        unfold quiet. erewrite Hstart; [|rewrite Hframe0; [done|]].
        * simpl. by apply andb_true_iff.
        * intros Hb. by eapply Hdisj.
      + apply Hin in Hpv as [Hb|Ha].
        * destruct (Hful0 p v Hb) as (pr & Hp & Hs). exists pr. eauto.
        * exfalso. apply Hl. apply list_elem_of_fmap. by exists (p, v).
    - apply Forall_forall. intros [p v] Hpv. by right; right.
    - by rewrite app_nil_r.
    - intros p v Hpv. rewrite app_nil_r in Hpv.
      destruct (Hq p v Hpv) as [Hqp _].
      destruct (quiet_inv _ _ Hqp) as (v0 & r0 & cbs & ebs & Hlk & _).
      apply lookup_lt_Some in Hlk. unfold ret, ctr. lia. }
  destruct (registration_loop u inputs ret ctr late inputs [] hstart)
    as (h1 & Hloop & HS1).
  { right. split; [|done]. by rewrite app_nil_r. }
  assert (filter (λ pv : ref * val, late pv.1 = true) inputs ≡ₚ after) as Hfilter.
  { rewrite <-Hperm, filter_app.
    rewrite (filter_none _ before), (filter_all _ after); [done| |].
    - intros [p v] Ha. unfold late. apply bool_decide_eq_true.
      apply list_elem_of_fmap. by exists (p, v).
    - intros [p v] Hb. unfold late. simpl. intros Hl%bool_decide_eq_true.
      eapply Hdisj; [|done]. apply list_elem_of_fmap. by exists (p, v). }
  simpl in HS1. eapply State_Permutation in HS1; [|exact Hfilter].
  destruct (runs_listPromise u inputs ret ctr h0 h1 Hne eq_refl eq_refl Hloop)
    as [Hrun1 Hrun1'].
  by exists h0, h1.
Qed.

(** ** The latch *)

(** [k] calls of [counter.dec()] in a row, with what each one returned or
    raised. *)
Fixpoint decs (counter : ref) (k : nat) (h : heap)
    : option (heap * list outcome) :=
  match k with
  | 0 => Some (h, [])
  | S k =>
      match dec counter h with
      | Some (h1, o) =>
          match decs counter k h1 with
          | Some (h2, os) => Some (h2, o :: os)
          | None => None
          end
      | None => None
      end
  end.

Lemma decs_exhausted r j (h : heap) :
  h !! r = Some (OLatch 0) →
  decs r j h = Some (h, replicate j (Raise assertion_error)).
Proof.
  intros Hr. induction j as [|j IH]; [done|]. simpl.
  unfold dec. rewrite Hr. simpl. by rewrite IH.
Qed.

Lemma decs_counts_down n : ∀ r j (h : heap),
  h !! r = Some (OLatch (Z.of_nat n)) →
  decs r (n + j) h =
  Some (<[r := OLatch 0]> h,
        ((λ i, Return (VInt (Z.of_nat n - 1 - Z.of_nat i))) <$> seq 0 n)
        ++ replicate j (Raise assertion_error)).
Proof.
  induction n as [|n IH]; intros r j h Hr.
  - simpl. rewrite list_insert_id by done. by apply decs_exhausted.
  - apply lookup_lt_Some in Hr as Hlt.
    change (S n + j) with (S (n + j)). cbn [decs]. unfold dec. rewrite Hr.
    rewrite bool_decide_eq_true_2 by lia.
    replace (Z.of_nat (S n) - 1)%Z with (Z.of_nat n) by lia.
    rewrite (IH r j); [|by apply list_lookup_insert_eq].
    rewrite list_insert_insert_eq. do 2 f_equal.
    cbn [seq fmap list_fmap app]. f_equal.
    + do 2 f_equal. lia.
    + f_equal. rewrite <-fmap_S_seq, <-list_fmap_compose.
      apply list_fmap_ext. intros i x _. simpl. do 2 f_equal. lia.
Qed.

(** ** The body of a worker *)

(** [body] run with enough call depth ends in [h'] with outcome [o]. *)
Definition ends (body : nat → M) (h h' : heap) (o : outcome) : Prop :=
  ∃ n0, ∀ n, n0 ≤ n → body n h = Some (h', o).

Section Workers.
Variable u : nat → val → outcome.

Lemma run_returning p v h h' :
  runs u (Call_fulfill p v) h h' (Return VNone) →
  ends (λ n, run u n p (Return v)) h h' (Return VNone).
Proof.
  intros [n H]. exists n. intros m Hm. unfold run, try_except, bind.
  by rewrite H by lia.
Qed.

Lemma run_raising p e h h' o :
  runs u (Call_reject p e) h h' o →
  ends (λ n, run u n p (Raise e)) h h' o.
Proof.
  intros [n H]. exists n. intros m Hm. unfold run, try_except, bind.
  by rewrite H by lia.
Qed.

Lemma run_failing p v e h h1 h' o :
  runs u (Call_fulfill p v) h h1 (Raise e) →
  runs u (Call_reject p e) h1 h' o →
  ends (λ n, run u n p (Return v)) h h' o.
Proof.
  intros [n1 H1] [n2 H2]. exists (n1 + n2). intros m Hm.
  unfold run, try_except, bind. rewrite H1 by lia. apply H2. lia.
Qed.

End Workers.

(** * Further properties of the module *)

(** ** Settling never raises *)



(** ** The state and the reaction lists *)

(** Every call keeps the reaction lists in step with the state: a pending
    promise has both lists, so a registration can append; a fulfilled
    promise has no list of callbacks and a rejected one no list of errbacks
    ("prevent future appending"), while the list of the other kind is kept
    as it was; and no latch has a negative count. *)
Theorem reaction_lists_follow_state (u : nat → val → outcome) n c h h' o :
  coherent h → exec u n c h = Some (h', o) → coherent h'.
Proof. intros Hh He. by eapply exec_coherent. Qed.

Lemma reaction_lists_follow_state_witness :
  coherent [rejected_promise (ValueError "a"); rejected_promise (ValueError "b");
            rejected_promise (ValueError "a"); OLatch 2].
Proof.
  assert (coherent [rejected_promise (ValueError "a");
                    rejected_promise (ValueError "b")]) as Hcoh.
  { repeat constructor; simpl; by eexists. }
  exact (reaction_lists_follow_state user_example 6
           (Call_listPromise [VPromise 0; VPromise 1]) _ _ _ Hcoh eq_refl).
Defined.

(** ** [then] never raises *)



(** ** Registration checks its arguments *)

(** [addCallback] and [addErrback] assert that their argument is callable
    before they look at the promise: a value that is not callable raises
    the assertion error and registers nothing, whatever the state of the
    promise.  [done] skips an argument that is [None], and passes any other
    one on: with no arguments it does nothing; a first argument that is not
    callable raises before the second is looked at; and when only the second
    is not callable, the first one is registered and then the error is
    raised ([done] is not all-or-nothing). *)
Theorem registration_checks_its_arguments (u : nat → val → outcome) h p x :
  _isFunction x = false →
  runs u (Call_addCallback p x) h h (Raise assertion_error) ∧
  runs u (Call_addErrback p x) h h (Raise assertion_error) ∧
  runs u (Call_done p VNone VNone) h h (Return VNone) ∧
  (is_not_None x = true →
   (∀ g, runs u (Call_done p x g) h h (Raise assertion_error)) ∧
   (∀ g pr cbs,
      h !! p = Some (OPromise pr) → _state pr = PENDING →
      _callbacks pr = Some cbs → _isFunction g = true →
      runs u (Call_done p g x) h (<[p := OPromise (add_callback pr g)]> h)
           (Raise assertion_error))).
Proof.
  intros Hx.
  assert (∀ h0, runs u (Call_addCallback p x) h0 h0 (Raise assertion_error))
    as Hcb.
  { intros h0. apply runs_step. exists 0. intros m _. simpl.
    unfold addCallback, bind. by rewrite Hx. }
  assert (∀ h0, runs u (Call_addErrback p x) h0 h0 (Raise assertion_error))
    as Heb.
  { intros h0. apply runs_step. exists 0. intros m _. simpl.
    unfold addErrback, bind. by rewrite Hx. }
  split; [apply Hcb|]. split; [apply Heb|]. split.
  { apply runs_step. by exists 0. }
  intros Hnn. split.
  - intros g. destruct (Hcb h) as [n H]. apply runs_step. exists n.
    intros m Hm. simpl. unfold done, bind. rewrite Hnn. by rewrite H by lia.
  - intros g pr cbs Hp Hs Hc Hg.
    destruct (runs_addCallback_pending u p g h pr cbs Hp Hs Hc Hg) as [n1 H1].
    destruct (Heb (<[p := OPromise (add_callback pr g)]> h)) as [n2 H2].
    apply runs_step. exists (n1 + n2). intros m Hm. simpl. unfold done, bind.
    rewrite Hnn. destruct g; try done. simpl.
    rewrite H1 by lia. apply H2. lia.
Qed.

Lemma registration_checks_its_arguments_witness :
  runs user_example (Call_addCallback 0 (VInt 5))
       [fulfilled_promise (VInt 1)] [fulfilled_promise (VInt 1)]
       (Raise assertion_error) ∧
  runs user_example (Call_done 0 (VFun (UserFn 0)) (VInt 5)) [pending_promise]
       [OPromise (add_callback new_Promise (VFun (UserFn 0)))]
       (Raise assertion_error).
Proof.
  destruct (registration_checks_its_arguments user_example
              [fulfilled_promise (VInt 1)] 0 (VInt 5) eq_refl) as (H1 & _).
  destruct (registration_checks_its_arguments user_example
              [pending_promise] 0 (VInt 5) eq_refl) as (_ & _ & _ & H2).
  split; [exact H1|].
  exact (proj2 (H2 eq_refl) (VFun (UserFn 0)) new_Promise [] eq_refl eq_refl
               eq_refl eq_refl).
Defined.

(** ** A foreign thenable is adopted through a promise of its own *)

(** The second thenable branch of [fulfill], which would call [x.then] with
    the promise's own [fulfill] and [reject], is never taken: a value with a
    callable [then] is already caught by the [_isPromise] branch before it.
    So [A.fulfill(x)] with a foreign thenable [x] creates a new promise,
    hands the bound methods of that promise to [x.done] (to [x.then] only
    when [x] has no callable [done]), and subscribes [A] to the new promise;
    nothing else in the heap changes, [A] included. *)
Theorem foreign_thenable_gets_a_promise_of_its_own (u : nat → val → outcome) :
  (∀ rec self x,
     fulfill rec self x =
     if is_ self x then raise self_resolution_error
     else if _isPromise x then
       try_except
         (q <~ rec (Call_promisify x) ;;
          invoke_done rec q (VFun (BoundFulfill self)) (VFun (BoundReject self)))
         (λ e, rec (Call_reject self e))
     else rec (Call__fulfill self x)) ∧
  (∀ h A b d t regs,
     d || t = true → h !! b = Some (OForeign regs) →
     ∃ h1, runs u (Call_fulfill A (VForeign b d t)) h h1 (Return VNone) ∧
           h1 !! b = Some (OForeign
             (regs ++ [(if d then ByDone else ByThen,
                        VFun (BoundFulfill (length h)),
                        VFun (BoundReject (length h)))])) ∧
           feeds h1 (length h) A ∧
           (∀ r, r ≠ b → r < length h → h1 !! r = h !! r) ∧
           length h1 = S (length h)).
Proof.
  split.
  - intros rec self x. unfold fulfill.
    destruct (is_ self x); [done|].
    destruct (_isPromise x) eqn:Hx; [done|].
    destruct (has_then x) eqn:Ht; [|done].
    apply has_then_isPromise in Ht. congruence.
  - intros h A b d t regs Hdt Hb. by apply adopt_foreign.
Qed.

Lemma foreign_thenable_gets_a_promise_of_its_own_witness :
  ∃ h1, runs user_example (Call_fulfill 0 (VForeign 1 true true))
             [pending_promise; OForeign []] h1 (Return VNone) ∧
        h1 !! 1 = Some (OForeign [(ByDone, VFun (BoundFulfill 2),
                                   VFun (BoundReject 2))]) ∧
        h1 !! 0 = Some pending_promise.
Proof.
  destruct (proj2 (foreign_thenable_gets_a_promise_of_its_own user_example)
              [pending_promise; OForeign []] 0 1 true true [] eq_refl eq_refl)
    as (h1 & Hrun & Hb & _ & Hframe & _).
  exists h1. split; [exact Hrun|]. split; [exact Hb|].
  apply Hframe; simpl; lia.
Defined.

(** ** Chains of [then] *)

(** A chain [p.then(s1, f1).then(s2, f2)...] built on a promise that is
    already settled: every call returns, and the last promise is settled
    with what the handlers make of the outcome of [p], one after the other
    (a success handler maps a value, a failure handler maps a reason, a
    missing handler hands the outcome on unchanged, a handler that raises
    turns the outcome into a rejection), as long as each handler hands on a
    plain value or an error. *)
Theorem then_chain_on_settled (u : nat → val → outcome) hs : ∀ h p o o',
  settled_as h p o → pipeline u hs o = Some o' →
  ∃ h' last, then_chain u p hs h h' last ∧ settled_as h' last o'.
Proof.
  induction hs as [|[s f] hs IH]; intros h p o o' Hp Hpipe.
  - simpl in Hpipe. injection Hpipe as <-. exists h, p.
    split; [constructor|done].
  - simpl in Hpipe.
    destruct (handler_outcome u (s, f) o) as [o1|] eqn:Ho; [|done].
    destruct (plain_outcome o1) eqn:Hplain; [|done].
    assert (runs u (Call_then p s f) h
              (h ++ [OPromise (settle_rec new_Promise o1)])
              (Return (VPromise (length h)))) as Hrun.
    { destruct o as [v|e]; destruct Hp as (pr & Hlk & Hs & Hv); subst.
      - by eapply then_on_fulfilled.
      - by eapply then_on_rejected. }
    destruct (IH _ (length h) o1 o' (settled_as_alloc h o1) Hpipe)
      as (h' & last & Hc & Hl).
    exists h', last. split; [by econstructor|done].
Qed.

(** A fulfilled promise, a handler that raises, a link without handlers and
    a failure handler that recovers with 42. *)
Lemma then_chain_on_settled_witness :
  ∃ h' last,
    then_chain user_example 0
      [(VFun (UserFn 1), VNone); (VNone, VNone); (VNone, VFun (UserFn 2))]
      [fulfilled_promise (VInt 7)] h' last ∧
    settled_as h' last (Return (VInt 42)).
Proof.
  apply (then_chain_on_settled user_example _ _ 0 (Return (VInt 7))).
  - eexists. split; [reflexivity|done].
  - reflexivity.
Defined.

(** The same chain built while [p] is still pending: every call returns and
    the last promise is pending; when [p] is settled afterwards, the one
    call of [fulfill] or [reject] runs the whole chain and returns, and the
    last promise is settled with what the handlers make of the outcome. *)
Theorem then_chain_settled_later (u : nat → val → outcome) hs h p :
  quiet h p = true →
  ∃ h1 last,
    then_chain u p hs h h1 last ∧ pending h1 last ∧
    ∀ o o', plain_outcome o = true → pipeline u hs o = Some o' →
      ∃ h2, runs u (settle_call p o) h1 h2 (Return VNone) ∧
            settled_as h2 p o ∧ settled_as h2 last o'.
Proof.
  intros Hq.
  destruct (then_chain_build u hs h p Hq)
    as (h1 & qs & Hchain & Hlinked & Hnd & _ & _ & _).
  exists h1, (default p (last qs)). split; [done|]. split.
  { by eapply quiet_pending, linked_last_quiet. }
  intros o o' Hplain Hpipe.
  destruct (linked_settle u hs h1 p qs o o' Hlinked Hnd Hplain Hpipe)
    as (h2 & Hrun & Hp & Hlast & _).
  by exists h2.
Qed.

Lemma then_chain_settled_later_witness :
  ∃ h1 last h2,
    then_chain user_example 0
      [(VFun (UserFn 1), VNone); (VNone, VNone); (VNone, VFun (UserFn 2))]
      [pending_promise] h1 last ∧
    runs user_example (Call_fulfill 0 (VInt 7)) h1 h2 (Return VNone) ∧
    settled_as h2 last (Return (VInt 42)).
Proof.
  destruct (then_chain_settled_later user_example
              [(VFun (UserFn 1), VNone); (VNone, VNone); (VNone, VFun (UserFn 2))]
              [pending_promise] 0 eq_refl)
    as (h1 & last & Hchain & _ & Hsettle).
  destruct (Hsettle (Return (VInt 7)) (Return (VInt 42)) eq_refl eq_refl)
    as (h2 & Hrun & _ & Hlast).
  by exists h1, last, h2.
Defined.

(** ** The sequence combinator: rejection and invalid arguments *)

(** [listPromise] on distinct promises ([inputs] pairs each of them with a
    plain value): with the inputs of [before] fulfilled before the call and
    those of [after] fulfilled after it, in any order, the result is still
    pending as long as one input [p] remains; rejecting [p] then rejects the
    result at once with the reason of [p], while the inputs of [rest] are
    still pending. *)
Theorem listPromise_rejects_with_first_rejection (u : nat → val → outcome)
    h inputs before after p w rest R :
  NoDup inputs.*1 →
  forallb (quiet h) inputs.*1 = true → forallb plain inputs.*2 = true →
  before ++ after ++ (p, w) :: rest ≡ₚ inputs →
  ∃ h0 h1 h2 h3,
    runs_all u (fulfill_calls before) h h0 ∧
    runs u (Call_listPromise (VPromise <$> inputs.*1)) h0 h1
         (Return (VPromise (length h0))) ∧
    runs_all u (fulfill_calls after) h1 h2 ∧
    pending h2 (length h0) ∧
    runs u (Call_reject p R) h2 h3 (Return VNone) ∧
    rejected_with h3 (length h0) R ∧
    (∀ q v, (q, v) ∈ rest → pending h3 q).
Proof.
  intros Hnd Hquiet Hplain Hperm.
  assert (inputs ≠ []) as Hne.
  { intros ->. apply Permutation_nil_r in Hperm.
    apply app_eq_nil in Hperm as [_ Hperm].
    by apply app_eq_nil in Hperm as [_ Hperm]. }
  destruct (listPromise_registers u h inputs before (after ++ (p, w) :: rest)
              Hne Hnd Hquiet Hplain Hperm)
    as (h0 & h1 & Hruns0 & Hrun1 & _ & HS1).
  destruct (fulfill_registered_prefix u inputs _ _ _ after h1 ((p, w) :: rest)
              ltac:(done) HS1) as (h2 & Hruns2 & HW).
  destruct (Waiting_reject u inputs _ _ _ h2 p w rest R HW)
    as (h3 & Hrun3 & _ & Hret & Hrest).
  exists h0, h1, h2, h3. repeat split; try done.
  destruct HW as [_ Hr _ _ _ _ _]. by eexists.
Qed.

(** Three inputs: the third fulfilled before the call, the first after it,
    then the second rejected. *)
Lemma listPromise_rejects_with_first_rejection_witness :
  let h := [pending_promise; pending_promise; pending_promise] in
  ∃ h0 h1 h2 h3,
    runs_all user_example (fulfill_calls [(2, VInt 3)]) h h0 ∧
    runs user_example (Call_listPromise [VPromise 0; VPromise 1; VPromise 2])
         h0 h1 (Return (VPromise (length h0))) ∧
    runs_all user_example (fulfill_calls [(0, VInt 1)]) h1 h2 ∧
    pending h2 (length h0) ∧
    runs user_example (Call_reject 1 (ValueError "no")) h2 h3 (Return VNone) ∧
    rejected_with h3 (length h0) (ValueError "no") ∧
    (∀ q (v : val), (q, v) ∈ @nil (ref * val) → pending h3 q).
Proof.
  exact (listPromise_rejects_with_first_rejection user_example
           [pending_promise; pending_promise; pending_promise]
           [(0, VInt 1); (1, VNone); (2, VInt 3)]
           [(2, VInt 3)] [(0, VInt 1)] 1 VNone [] (ValueError "no")
           NoDup_012 eq_refl eq_refl
           (perm_trans (perm_swap _ _ _) (perm_skip _ (perm_swap _ _ _)))).
Defined.

Definition isinstance_list (v : val) : bool :=
  match v with VList _ => true | _ => false end.

(** An argument of [listPromise] that is not promise-like raises the
    assertion error (not the [TypeError] of [_promisify]) in both argument
    forms, after the result promise and the latch have been created; and
    the reactions registered on the inputs before it stay registered. *)
Theorem listPromise_rejects_non_promise (u : nat → val → outcome) h x rest :
  _isPromise x = false →
  (isinstance_list x = false ∨ rest ≠ [] →
   runs u (Call_listPromise (x :: rest)) h
        (h ++ [OPromise new_Promise; OLatch (Z.of_nat (S (length rest)))])
        (Raise assertion_error)) ∧
  runs u (Call_listPromise [VList (x :: rest)]) h
       (h ++ [OPromise new_Promise; OLatch (Z.of_nat (S (length rest)))])
       (Raise assertion_error) ∧
  (∀ p pr cbs ebs,
     h !! p = Some (OPromise pr) → _state pr = PENDING →
     _callbacks pr = Some cbs → _errbacks pr = Some ebs →
     ∃ h1, runs u (Call_listPromise [VPromise p; x]) h h1
                (Raise assertion_error) ∧
           h1 !! p = Some (OPromise
             (add_errback
                (add_callback pr
                   (VFun (HandleSuccess (length h) (S (length h)) [VPromise p; x])))
                (VFun (BoundReject (length h)))))).
Proof.
  intros Hx.
  assert (∀ m l,
    (r <~ Promise_new ;;
     c <~ CountdownLatch (Z.of_nat (length (x :: l))) ;;
     match r, c with
     | VPromise ret_, VLatch counter =>
         listPromise_loop (exec u m)
           (VFun (HandleSuccess ret_ counter (x :: l)))
           (VFun (BoundReject ret_)) (x :: l) ;;;
         return_ (VPromise ret_)
     | _, _ => λ _, None
     end) h
    = Some (h ++ [OPromise new_Promise; OLatch (Z.of_nat (S (length l)))],
            Raise assertion_error)) as Hbody.
  { intros m l.
    unfold bind, Promise_new, CountdownLatch, assert, return_.
    rewrite bool_decide_eq_true_2 by lia. simpl.
    rewrite Hx. unfold assert, bind, raise. by rewrite <-app_assoc. }
  split; [|split].
  - intros Hform. apply runs_step. exists 0. intros m _. simpl.
    unfold listPromise. simpl.
    destruct x; try apply Hbody.
    destruct rest; [by destruct Hform|]. apply Hbody.
  - apply runs_step. exists 0. intros m _. simpl. apply Hbody.
  - intros p pr cbs ebs Hp Hs Hc He.
    set (hs := VFun (HandleSuccess (length h) (S (length h)) [VPromise p; x])).
    set (rj := VFun (BoundReject (length h))).
    set (h0 := h ++ [OPromise new_Promise; OLatch 2]).
    assert (h0 !! p = Some (OPromise pr)) as Hp0
      by (by apply lookup_app_l_Some).
    apply lookup_lt_Some in Hp0 as Hlt.
    destruct (runs_done_pending u p hs rj h0 pr cbs ebs Hp0 Hs Hc He
                eq_refl eq_refl) as [n1 H1].
    destruct (runs_promisify_Promise u p h0) as [n0 H0].
    eexists. split.
    + apply runs_step. exists (n0 + n1). intros m Hm. simpl.
      unfold listPromise. simpl.
      unfold bind at 1, Promise_new. unfold bind at 1, CountdownLatch, assert.
      simpl. unfold bind at 1. simpl. rewrite length_app, <-app_assoc. simpl.
      replace (length h + 1) with (S (length h)) by lia.
      unfold bind. simpl. fold h0. rewrite H0 by lia. simpl.
      fold hs rj. rewrite H1 by lia. by rewrite Hx.
    + rewrite list_lookup_insert_eq; [done|]. by rewrite length_insert.
Qed.

Lemma listPromise_rejects_non_promise_witness :
  runs user_example (Call_listPromise [VInt 5]) []
       [pending_promise; OLatch 1] (Raise assertion_error) ∧
  runs user_example (Call_listPromise [VList []; VList []]) []
       [pending_promise; OLatch 2] (Raise assertion_error).
Proof.
  split.
  - exact (proj1 (listPromise_rejects_non_promise user_example [] (VInt 5) []
                    eq_refl) (or_introl eq_refl)).
  - refine (proj1 (listPromise_rejects_non_promise user_example [] (VList [])
                     [VList []] eq_refl) (or_intror _)).
    discriminate.
Defined.

(** ** Reading a settled promise *)

(** [get] on a fulfilled promise returns its value, and on a rejected
    promise it raises a [ValueError] with a fixed message, not the reason of
    the rejection; neither changes anything.  So [Promise.value(x).get()]
    is [x] for a plain [x], and [Promise.rejection(r).get()] raises the
    [ValueError] whatever [r] is.  Once [get] has returned or raised on a
    promise, it does the same after any further call of the module. *)
Theorem get_reads_a_settled_promise (u : nat → val → outcome) h :
  (∀ p pr, h !! p = Some (OPromise pr) → _state pr = FULFILLED →
     get p h = Some (h, Return (value pr)) ∧ wait p h = Some (h, Return VNone) ∧
     isFulfilled p h = Some true ∧ isPending p h = Some false) ∧
  (∀ p pr, h !! p = Some (OPromise pr) → _state pr = REJECTED →
     get p h = Some (h, Raise no_value_error) ∧ wait p h = Some (h, Return VNone) ∧
     isRejected p h = Some true ∧ isPending p h = Some false) ∧
  (∀ x, plain x = true →
     ∃ h', runs u (Call_value x) h h' (Return (VPromise (length h))) ∧
           get (length h) h' = Some (h', Return x)) ∧
  (∀ r,
     ∃ h', runs u (Call_rejection r) h h' (Return (VPromise (length h))) ∧
           rejected_with h' (length h) r ∧
           get (length h) h' = Some (h', Raise no_value_error)) ∧
  (∀ n c h' o p res,
     exec u n c h = Some (h', o) → get p h = Some (h, res) →
     get p h' = Some (h', res)).
Proof.
  assert (∀ (h0 : heap) p pr, h0 !! p = Some (OPromise pr) →
            _state pr = FULFILLED → get p h0 = Some (h0, Return (value pr)))
    as Hful.
  { intros h0 p pr Hp Hs. unfold get, bind, wait. rewrite Hp, Hs. simpl.
    by rewrite Hp, Hs. }
  assert (∀ (h0 : heap) p pr, h0 !! p = Some (OPromise pr) →
            _state pr = REJECTED → get p h0 = Some (h0, Raise no_value_error))
    as Hrej.
  { intros h0 p pr Hp Hs. unfold get, bind, wait. rewrite Hp, Hs. simpl.
    by rewrite Hp, Hs. }
  split; [|split; [|split; [|split]]].
  - intros p pr Hp Hs. split; [by apply Hful|].
    unfold wait, isFulfilled, isPending. by rewrite Hp, Hs.
  - intros p pr Hp Hs. split; [by apply (Hrej h p pr)|].
    unfold wait, isRejected, isPending. by rewrite Hp, Hs.
  - intros x Hx. eexists. split; [by apply runs_Promise_value_plain|].
    by rewrite (Hful _ _ (fulfilled_rec new_Promise x) (lookup_alloc _ _) eq_refl).
  - intros r.
    destruct (runs_reject_quiet u (length h) r (h ++ [OPromise new_Promise])
                new_Promise (lookup_alloc _ _) (quiet_alloc _)) as [n H].
    rewrite insert_alloc in H.
    exists (h ++ [OPromise (rejected_rec new_Promise r)]).
    split; [|split].
    + apply runs_step. exists n. intros m Hm. simpl.
      unfold Promise_rejection, bind, Promise_new. by rewrite H by lia.
    + eexists. by rewrite lookup_alloc.
    + by rewrite (Hrej _ _ (rejected_rec new_Promise r) (lookup_alloc _ _) eq_refl).
  - intros n c h' o p res Hex. unfold get at 1, bind, wait.
    destruct (h !! p) as [[pr| |]|] eqn:Hp; try done.
    case_bool_decide as Hs; [|done].
    pose proof (settled_stable _ _ _ _ _ _ p pr Hex Hp Hs) as Hp'.
    rewrite Hp. destruct (_state pr) eqn:Hst; [done| |]; simpl; intros [= <-].
    + by apply (Hrej h' p pr).
    + by apply (Hful h' p pr).
Qed.

Lemma get_reads_a_settled_promise_witness :
  get 0 [fulfilled_promise (VInt 7); rejected_promise (VInt 8)]
  = Some ([fulfilled_promise (VInt 7); rejected_promise (VInt 8)],
          Return (VInt 7)) ∧
  get 1 [fulfilled_promise (VInt 7); rejected_promise (VInt 8)]
  = Some ([fulfilled_promise (VInt 7); rejected_promise (VInt 8)],
          Raise no_value_error).
Proof.
  destruct (get_reads_a_settled_promise user_example
              [fulfilled_promise (VInt 7); rejected_promise (VInt 8)])
    as (Hf & Hr & _).
  split.
  - exact (proj1 (Hf 0 _ eq_refl eq_refl)).
  - exact (proj1 (Hr 1 _ eq_refl eq_refl)).
Defined.

(** ** The body of a worker *)

(** The body that [background] runs in a thread (and [spawn] in a
    greenlet), on a pending promise whose reactions are functions of the
    caller: when the function returns a plain value the promise is
    fulfilled with it; when it raises, the promise is rejected with the
    error; when it returns the promise itself, the promise is rejected with
    the self-resolution [TypeError] (which [fulfill] raises and the body
    catches); in each case the body returns.  On a pending promise with any
    reactions, the body returns [None] whenever it returns.  When the
    promise has been settled in the meantime, the body raises the assertion
    error (that of [fulfill], then that of [reject] in the [except] clause)
    and the promise is left as it was. *)
Theorem worker_settles_its_promise (u : nat → val → outcome) h p pr :
  h !! p = Some (OPromise pr) →
  (quiet h p = true →
     (∀ v, plain v = true →
        ends (λ n, run u n p (Return v)) h
             (<[p := OPromise (fulfilled_rec pr v)]> h) (Return VNone)) ∧
     (∀ e, ends (λ n, run u n p (Raise e)) h
                (<[p := OPromise (rejected_rec pr e)]> h) (Return VNone)) ∧
     ends (λ n, run u n p (Return (VPromise p))) h
          (<[p := OPromise (rejected_rec pr self_resolution_error)]> h)
          (Return VNone)) ∧
  (_state pr = PENDING → coherent h → values_plain h →
     ∀ n func h' o, run u n p func h = Some (h', o) → o = Return VNone) ∧
  (_state pr ≠ PENDING →
     (∀ v, plain v = true →
        ends (λ n, run u n p (Return v)) h h (Raise assertion_error)) ∧
     (∀ e, ends (λ n, run u n p (Raise e)) h h (Raise assertion_error))) ∧
  (∀ n func, process u n p func = run u n p func).
Proof.
  intros Hp. split; [|split; [|split]].
  - intros Hq. split; [|split].
    + intros v Hv. by apply run_returning, runs_fulfill_quiet.
    + intros e. by apply run_raising, runs_reject_quiet.
    + eapply run_failing; [|by apply runs_reject_quiet].
      apply (runs_of_exec u 1). simpl. by rewrite fulfill_self.
  - intros Hs Hcoh Hplain n func h' o.
    pose proof (coherent_lookup _ _ _ Hcoh Hp) as Hok.
    simpl in Hok. rewrite Hs in Hok. destruct Hok as [[cbs Hc] [ebs He]].
    destruct func as [v|e]; unfold run, bind.
    + by apply exec_fulfill_or_reject_outcome with (pr := pr) (cbs := cbs)
                                                  (ebs := ebs).
    + unfold try_except.
      by apply exec_reject_pending_outcome with (pr := pr) (ebs := ebs).
  - intros Hs. split.
    + intros v Hv. eapply run_failing; [|by eapply runs_reject_settled].
      apply runs_fulfill_plain; [done|]. by eapply runs__fulfill_settled.
    + intros e. by eapply run_raising, runs_reject_settled.
  - done.
Qed.

Lemma worker_settles_its_promise_witness :
  ends (λ n, run user_example n 0 (Return (VInt 7))) [pending_promise]
       [fulfilled_promise (VInt 7)] (Return VNone) ∧
  ends (λ n, run user_example n 0 (Return (VPromise 0))) [pending_promise]
       [rejected_promise self_resolution_error] (Return VNone) ∧
  ends (λ n, run user_example n 0 (Raise (ValueError "boom")))
       [rejected_promise (VInt 1)] [rejected_promise (VInt 1)]
       (Raise assertion_error).
Proof.
  destruct (worker_settles_its_promise user_example [pending_promise] 0 _
              eq_refl) as (Hq & _).
  destruct (Hq eq_refl) as (Hv & _ & Hself).
  destruct (worker_settles_its_promise user_example [rejected_promise (VInt 1)]
              0 _ eq_refl) as (_ & _ & Hs & _).
  split; [exact (Hv (VInt 7) eq_refl)|]. split; [exact Hself|].
  apply Hs. discriminate.
Defined.

(** ** The latch *)

(** [CountdownLatch(c)] raises the assertion error for a negative [c] and
    creates nothing.  A latch created with count [n] allows exactly [n]
    decrements: they return [n-1], ..., [0] in this order, and every further
    [dec] raises the assertion error and leaves the count at [0]. *)
Theorem latch_counts_down_to_zero (h : heap) :
  (∀ c, (c < 0)%Z → CountdownLatch c h = Some (h, Raise assertion_error)) ∧
  (∀ n j : nat,
     ∃ h1, CountdownLatch (Z.of_nat n) h
           = Some (h1, Return (VLatch (length h))) ∧
           count (length h) h1 = Some (Z.of_nat n) ∧
           decs (length h) (n + j) h1
           = Some (<[length h := OLatch 0]> h1,
                   ((λ i, Return (VInt (Z.of_nat n - 1 - Z.of_nat i)))
                      <$> seq 0 n)
                   ++ replicate j (Raise assertion_error)) ∧
           count (length h) (<[length h := OLatch 0]> h1) = Some 0%Z).
Proof.
  split.
  - intros c Hc. unfold CountdownLatch, bind, assert.
    by rewrite bool_decide_eq_false_2 by lia.
  - intros n j. exists (h ++ [OLatch (Z.of_nat n)]).
    split; [|split; [|split]].
    + unfold CountdownLatch, bind, assert.
      by rewrite bool_decide_eq_true_2 by lia.
    + unfold count. by rewrite lookup_alloc.
    + apply decs_counts_down. apply lookup_alloc.
    + unfold count. rewrite insert_alloc. by rewrite lookup_alloc.
Qed.

Lemma latch_counts_down_to_zero_witness :
  CountdownLatch (-1) [] = Some ([], Raise assertion_error) ∧
  decs 0 4 [OLatch 2]
  = Some ([OLatch 0],
          [Return (VInt 1); Return (VInt 0);
           Raise assertion_error; Raise assertion_error]).
Proof.
  destruct (latch_counts_down_to_zero []) as [Hneg Hdec].
  split; [apply Hneg; lia|].
  destruct (Hdec 2 2) as (h1 & Hnew & _ & Hd & _).
  injection Hnew as <-. exact Hd.
Defined.

(** ** [Promise.value] of a promise *)

(** [Promise.value(q)] does not wrap a promise [q] as a value: the promise
    it returns adopts [q].  For a pending [q] it is pending, and it is
    fulfilled with the value, or rejected with the reason, that [q] is
    settled with afterwards. *)
Theorem Promise_value_adopts_a_promise (u : nat → val → outcome) h q :
  quiet h q = true →
  ∃ h1, runs u (Call_value (VPromise q)) h h1 (Return (VPromise (length h))) ∧
        pending h1 (length h) ∧
        (∀ V, plain V = true →
           ∃ h2, runs u (Call_fulfill q V) h1 h2 (Return VNone) ∧
                 fulfilled_with h2 q V ∧ fulfilled_with h2 (length h) V) ∧
        (∀ R,
           ∃ h2, runs u (Call_reject q R) h1 h2 (Return VNone) ∧
                 rejected_with h2 q R ∧ rejected_with h2 (length h) R).
Proof.
  intros Hq.
  destruct (quiet_inv _ _ Hq) as (v0 & r0 & cbs & ebs & Hlk & _).
  apply lookup_lt_Some in Hlk as Hlt.
  assert (quiet (h ++ [OPromise new_Promise]) q = true) as Hq0.
  { unfold quiet in *. by rewrite lookup_app_l. }
  destruct (adopt_quiet u (h ++ [OPromise new_Promise]) (length h) q
              ltac:(lia) Hq0) as (h1 & Hrun & Hfeeds & Hlen & Hframe).
  assert (quiet h1 (length h) = true) as Hnew.
  { unfold quiet. rewrite Hframe by lia. by rewrite lookup_alloc. }
  assert (chain h1 [q; length h]) as Hchain by done.
  assert (NoDup [q; length h]) as Hnd.
  { apply NoDup_cons. split; [|apply NoDup_singleton].
    intros ?%list_elem_of_singleton. lia. }
  exists h1. split; [by eapply runs_Promise_value|]. split.
  { by apply quiet_pending. }
  split.
  - intros V HV.
    destruct (chain_fulfill u [length h] q h1 V Hchain Hnd HV)
      as (h2 & Hrun2 & Hall & _).
    exists h2. split; [done|]. split; apply Hall; set_solver.
  - intros R.
    destruct (chain_reject u [length h] q h1 R Hchain Hnd)
      as (h2 & Hrun2 & Hall & _).
    exists h2. split; [done|]. split; apply Hall; set_solver.
Qed.

Lemma Promise_value_adopts_a_promise_witness :
  ∃ h1 h2,
    runs user_example (Call_value (VPromise 0)) [pending_promise] h1
         (Return (VPromise 1)) ∧
    pending h1 1 ∧
    runs user_example (Call_reject 0 (ValueError "no")) h1 h2 (Return VNone) ∧
    rejected_with h2 1 (ValueError "no").
Proof.
  destruct (Promise_value_adopts_a_promise user_example [pending_promise] 0
              eq_refl) as (h1 & Hrun & Hpend & _ & Hrej).
  destruct (Hrej (ValueError "no")) as (h2 & Hrun2 & _ & Hnew).
  by exists h1, h2.
Defined.

(** ** Several [then] on one promise *)

(** q1 = p.then(s1, f1); q2 = p.then(s2, f2); ... on the same promise [p];
    [qs] are the promises the calls return. *)
Inductive then_each (u : nat → val → outcome) (p : ref) :
    list (val * val) → heap → heap → list ref → Prop :=
| then_each_nil h : then_each u p [] h h []
| then_each_cons s f rest h h1 q h2 qs :
    runs u (Call_then p s f) h h1 (Return (VPromise q)) →
    then_each u p rest h1 h2 qs →
    then_each u p ((s, f) :: rest) h h2 (q :: qs).

Definition success_closures (qs : list ref) (hs : list (val * val)) : list val :=
  zip_with (λ q sf, VFun (CallAndFulfill q sf.1)) qs hs.

Definition failure_closures (qs : list ref) (hs : list (val * val)) : list val :=
  zip_with (λ q sf, VFun (CallAndReject q sf.2)) qs hs.

(** [p] is pending and carries, after reactions of the caller, the closures
    of the calls of [then] with the handlers [hs], whose promises [qs] have
    reactions of the caller only. *)
Definition fans (h : heap) (p : ref) (hs : list (val * val)) (qs : list ref)
    : Prop :=
  length qs = length hs ∧ NoDup (p :: qs) ∧
  (∀ q, q ∈ qs → quiet h q = true) ∧
  ∃ pr cbs ebs,
    h !! p = Some (OPromise pr) ∧ _state pr = PENDING ∧
    _callbacks pr = Some (cbs ++ success_closures qs hs) ∧
    _errbacks pr = Some (ebs ++ failure_closures qs hs) ∧
    forallb is_UserFn cbs = true ∧ forallb is_UserFn ebs = true.

Section FanOut.
Variable u : nat → val → outcome.

Lemma then_each_build hs : ∀ h p hs0 qs0,
  fans h p hs0 qs0 →
  ∃ h1 qs, then_each u p hs h h1 qs ∧ fans h1 p (hs0 ++ hs) (qs0 ++ qs).
Proof.
  induction hs as [|[s f] hs IH]; intros h p hs0 qs0 Hf.
  - exists h, []. split; [constructor|]. by rewrite !app_nil_r.
  - destruct Hf as (Hlen & Hnd & Hqs & pr & cbs & ebs & Hp & Hs & Hc & He & Hu).
    apply lookup_lt_Some in Hp as Hlt.
    set (q := length h).
    set (pr1 := add_errback (add_callback pr (VFun (CallAndFulfill q s)))
                            (VFun (CallAndReject q f))).
    set (h1 := <[p := OPromise pr1]>
                 (<[p := OPromise (add_callback pr (VFun (CallAndFulfill q s)))]>
                    (h ++ [OPromise new_Promise]))).
    assert (runs u (Call_then p s f) h h1 (Return (VPromise q))) as Hrun
      by (by eapply then_on_pending).
    assert (∀ r, r ∈ qs0 → r < length h) as Hlts.
    { intros r Hr. specialize (Hqs r Hr).
      destruct (quiet_inv _ _ Hqs) as (? & ? & ? & ? & Hlk & _).
      by eapply lookup_lt_Some. }
    assert (fans h1 p (hs0 ++ [(s, f)]) (qs0 ++ [q])) as Hf1.
    { split; [by rewrite !length_app, Hlen|]. split.
      { apply NoDup_cons in Hnd as [Hpq Hnd]. apply NoDup_cons. split.
        - intros [Hin|Hin%list_elem_of_singleton]%elem_of_app; [done|].
          unfold q in Hin. lia.
        - apply NoDup_app. split; [done|]. split; [|apply NoDup_singleton].
          intros r Hr ->%list_elem_of_singleton. apply Hlts in Hr.
          unfold q in Hr. lia. }
      split.
      { intros r [Hr | ->%list_elem_of_singleton]%elem_of_app.
        - unfold h1. rewrite !quiet_insert_ne.
          + specialize (Hqs r Hr). unfold quiet in *.
            by rewrite lookup_app_l by (by apply Hlts).
          + intros ->. apply NoDup_cons in Hnd as [Hpq _]. done.
          + intros ->. apply NoDup_cons in Hnd as [Hpq _]. done.
        - unfold h1, q. rewrite !quiet_insert_ne by lia. apply quiet_alloc. }
      exists pr1, cbs, ebs. split.
      { unfold h1. apply list_lookup_insert_eq.
        rewrite length_insert, length_app. lia. }
      split; [done|]. unfold pr1, success_closures, failure_closures. simpl.
      rewrite Hc, He. simpl.
      rewrite !zip_with_app by done. simpl. by rewrite <-!app_assoc. }
    destruct (IH h1 p _ _ Hf1) as (h2 & qs & Heach & Hf2).
    exists h2, (q :: qs). split; [by econstructor|].
    by rewrite <-!app_assoc in Hf2.
Qed.

(** The closures of the calls of [then], run one after the other. *)
Lemma dispatches_closures hs : ∀ qs outs o (h : heap),
  length qs = length hs → NoDup qs →
  (∀ q, q ∈ qs → quiet h q = true) →
  Forall2 (λ sf oi, handler_outcome u sf o = Some oi ∧ plain_outcome oi = true)
          hs outs →
  ∃ h',
    dispatches u (match o with
                  | Return _ => success_closures qs hs
                  | Raise _ => failure_closures qs hs
                  end)
               (match o with Return v => v | Raise e => e end) h h' ∧
    Forall2 (settled_as h') qs outs ∧
    (∀ r, r ∉ qs → h' !! r = h !! r).
Proof.
  induction hs as [|[s f] hs IH]; intros [|q qs] outs o h Hlen Hnd Hq Hall;
    try done.
  - apply Forall2_nil_inv_l in Hall as ->. exists h.
    split; [destruct o; apply dispatches_nil|]. by split; [constructor|].
  - apply Forall2_cons_inv_l in Hall as (o1 & outs' & [Ho1 Hplain1] & Hall & ->).
    apply NoDup_cons in Hnd as [Hqn Hnd]. simpl in Hlen.
    destruct (quiet_inv _ _ (Hq q (list_elem_of_here _ _)))
      as (v0 & r0 & cbs & ebs & Hlk & _).
    apply lookup_lt_Some in Hlk as Hlt.
    set (prq := mkPromise PENDING v0 r0 (Some cbs) (Some ebs)) in *.
    destruct (IH qs outs' o (<[q := OPromise (settle_rec prq o1)]> h))
      as (h' & Hd & Hset & Hframe); [lia|done| |done|].
    { intros r Hr. rewrite quiet_insert_ne by (by intros ->).
      by apply Hq, list_elem_of_further. }
    exists h'. split; [|split].
    + destruct o as [v|e]; simpl in *.
      * eapply dispatches_cons; [|exact Hd].
        eapply runs_callAndFulfill; [done..|]. apply Hq, list_elem_of_here.
      * eapply dispatches_cons; [|exact Hd].
        eapply runs_callAndReject; [done..|]. apply Hq, list_elem_of_here.
    + constructor; [|done].
      assert (h' !! q = Some (OPromise (settle_rec prq o1))) as Hq'.
      { rewrite Hframe by done. by apply list_lookup_insert_eq. }
      destruct o1; by eexists.
    + intros r Hr. apply not_elem_of_cons in Hr as [Hrq Hr].
      rewrite Hframe by done. by apply list_lookup_insert_ne.
Qed.

Lemma fans_settle h p hs qs o outs :
  fans h p hs qs → plain_outcome o = true →
  Forall2 (λ sf oi, handler_outcome u sf o = Some oi ∧ plain_outcome oi = true)
          hs outs →
  ∃ h2, runs u (settle_call p o) h h2 (Return VNone) ∧
        settled_as h2 p o ∧ Forall2 (settled_as h2) qs outs.
Proof.
  intros (Hlen & Hnd & Hqs & pr & cbs & ebs & Hp & Hs & Hc & He & Hcbs & Hebs)
         Hplain Hall.
  apply NoDup_cons in Hnd as [Hpq Hnd].
  apply lookup_lt_Some in Hp as Hlt.
  destruct (dispatches_closures hs qs outs o
              (<[p := OPromise (settle_rec pr o)]> h) Hlen Hnd)
    as (h2 & Hd & Hset & Hframe); [|done|].
  { intros q Hq. rewrite quiet_insert_ne by (by intros ->). by apply Hqs. }
  exists h2. split; [|split; [|done]].
  - destruct o as [v|e]; simpl in *.
    + apply runs_fulfill_plain; [done|].
      eapply runs__fulfill_pending; [done..|].
      eapply dispatches_app; [by apply dispatches_users|done].
    + eapply runs_reject_pending; [done..|].
      eapply dispatches_app; [by apply dispatches_users|done].
  - assert (h2 !! p = Some (OPromise (settle_rec pr o))) as Hp2.
    { rewrite Hframe by done. by apply list_lookup_insert_eq. }
    destruct o; by eexists.
Qed.

End FanOut.

(** Several calls of [then] on the same pending promise: every call returns
    a new pending promise, and when [p] is settled afterwards, the one call
    of [fulfill] or [reject] settles each of them with what its own handlers
    make of the outcome of [p] (as long as they hand on a plain value or an
    error): every subscriber is served, whatever the other handlers do. *)
Theorem then_serves_every_subscriber (u : nat → val → outcome) hs h p :
  quiet h p = true →
  ∃ h1 qs,
    then_each u p hs h h1 qs ∧ length qs = length hs ∧ NoDup (p :: qs) ∧
    (∀ q, q ∈ qs → pending h1 q) ∧
    ∀ o outs, plain_outcome o = true →
      Forall2 (λ sf oi, handler_outcome u sf o = Some oi ∧
                        plain_outcome oi = true) hs outs →
      ∃ h2, runs u (settle_call p o) h1 h2 (Return VNone) ∧
            settled_as h2 p o ∧ Forall2 (settled_as h2) qs outs.
Proof.
  intros Hq.
  destruct (quiet_inv _ _ Hq) as (v0 & r0 & cbs & ebs & Hp & Hcbs & Hebs).
  assert (fans h p [] []) as Hf.
  { split; [done|]. split; [apply NoDup_singleton|].
    split; [by intros q ?%elem_of_nil|].
    eexists _, cbs, ebs. split; [done|]. simpl. by rewrite !app_nil_r. }
  destruct (then_each_build u hs h p [] [] Hf) as (h1 & qs & Heach & Hf1).
  simpl in Hf1. exists h1, qs. split; [done|].
  pose proof Hf1 as (Hlen & Hnd & Hqs & _).
  split; [done|]. split; [done|]. split.
  { intros q Hin. by apply quiet_pending, Hqs. }
  intros o outs Hplain Hall. by eapply fans_settle.
Qed.

(** Three subscribers: one whose handler raises, one without handlers, one
    whose handler returns 42. *)
Lemma then_serves_every_subscriber_witness :
  ∃ h1 qs h2,
    then_each user_example 0
      [(VFun (UserFn 1), VNone); (VNone, VNone); (VFun (UserFn 2), VNone)]
      [pending_promise] h1 qs ∧
    runs user_example (Call_fulfill 0 (VInt 7)) h1 h2 (Return VNone) ∧
    Forall2 (settled_as h2) qs
      [Raise (ValueError "boom"); Return (VInt 7); Return (VInt 42)].
Proof.
  destruct (then_serves_every_subscriber user_example
              [(VFun (UserFn 1), VNone); (VNone, VNone); (VFun (UserFn 2), VNone)]
              [pending_promise] 0 eq_refl)
    as (h1 & qs & Heach & _ & _ & _ & Hsettle).
  destruct (Hsettle (Return (VInt 7))
              [Raise (ValueError "boom"); Return (VInt 7); Return (VInt 42)]
              eq_refl)
    as (h2 & Hrun & _ & Hall).
  { repeat constructor. }
  by exists h1, qs, h2.
Defined.

(** ** The sequence combinator with the same promise several times *)

Section Repeated.
Variable u : nat → val → outcome.
Variable inputs : list (ref * val).
Variables ret ctr : ref.

(** The loop of [listPromise] over [k] occurrences of one pending promise
    appends the two reactions [k] times. *)
Lemma loops_replicate k : ∀ (h : heap) p v r cbs ebs,
  h !! p = Some (OPromise (mkPromise PENDING v r (Some cbs) (Some ebs))) →
  ∃ h', loops u inputs ret ctr (replicate k (VPromise p)) h h' ∧
        h' !! p = Some (OPromise (mkPromise PENDING v r
                    (Some (cbs ++ replicate k (hs inputs ret ctr)))
                    (Some (ebs ++ replicate k (rj ret))))) ∧
        (∀ q, q ≠ p → h' !! q = h !! q).
Proof.
  induction k as [|k IH]; intros h p v r cbs ebs Hp.
  - exists h. split; [apply loops_nil|]. simpl. by rewrite !app_nil_r.
  - apply lookup_lt_Some in Hp as Hlt.
    set (pr := mkPromise PENDING v r (Some cbs) (Some ebs)) in *.
    set (h1 := <[p := OPromise (add_errback (add_callback pr (hs inputs ret ctr))
                                            (rj ret))]>
                 (<[p := OPromise (add_callback pr (hs inputs ret ctr))]> h)).
    destruct (IH h1 p v r (cbs ++ [hs inputs ret ctr]) (ebs ++ [rj ret]))
      as (h' & Hloop & Hp' & Hframe).
    { unfold h1. apply list_lookup_insert_eq. by rewrite length_insert. }
    exists h'. split; [|split].
    + simpl. eapply loops_cons; [|done].
      by eapply (runs_done_pending u p _ _ h pr cbs ebs).
    + rewrite Hp'. simpl. by rewrite <-!app_assoc.
    + intros q Hq. rewrite Hframe by done. unfold h1.
      by rewrite !list_lookup_insert_ne.
Qed.

(** [k] runs of [handleSuccess] with the latch at [k]: the last one
    fulfills the result. *)
Lemma dispatches_handleSuccess k : ∀ (h : heap) x,
  h !! ctr = Some (OLatch (Z.of_nat (S k))) → ret ≠ ctr →
  h !! ret = Some (OPromise new_Promise) →
  Forall (λ pv, fulfilled_with h pv.1 pv.2) inputs →
  ∃ h', dispatches u (replicate (S k) (hs inputs ret ctr)) x h h' ∧
        fulfilled_with h' ret (VList inputs.*2).
Proof.
  induction k as [|k IH]; intros h x Hc Hne Hr Hall.
  - pose proof (runs_handleSuccess u inputs ret ctr h 1 x Hc ltac:(lia) Hne)
      as Hrun.
    eexists. split.
    + eapply dispatches_cons; [apply Hrun; by intros _|apply dispatches_nil].
    + unfold after_success. rewrite bool_decide_eq_true_2 by done.
      apply fulfilled_with_insert. rewrite length_insert.
      by eapply lookup_lt_Some.
  - pose proof (runs_handleSuccess u inputs ret ctr h _ x Hc ltac:(lia) Hne)
      as Hrun.
    unfold after_success in Hrun. rewrite bool_decide_eq_false_2 in Hrun by lia.
    apply lookup_lt_Some in Hc as Hlt.
    destruct (IH (<[ctr := OLatch (Z.of_nat (S (S k)) - 1)]> h) x)
      as (h' & Hd & Hful); [| |by rewrite list_lookup_insert_ne| |].
    { rewrite list_lookup_insert_eq by done. do 2 f_equal. lia. }
    { done. }
    { eapply Forall_impl; [done|]. intros [q w] (pr & Hq & Hs). simpl in *.
      exists pr. rewrite list_lookup_insert_ne; [done|]. intros <-. congruence. }
    exists h'. split; [|done].
    eapply dispatches_cons; [|exact Hd]. apply Hrun. lia.
Qed.

Lemma dispatches_reject_settled k : ∀ (h : heap) pr R,
  h !! ret = Some (OPromise pr) → _state pr ≠ PENDING →
  dispatches u (replicate k (rj ret)) R h h.
Proof.
  induction k as [|k IH]; intros h pr R Hr Hs; [apply dispatches_nil|].
  simpl. eapply dispatches_cons; [|by eapply IH].
  apply runs_apply_BoundReject. by eapply runs_reject_settled.
Qed.

(** [k] runs of [ret.reject]: the first rejects the result, the assertion
    error of the others is discarded by the dispatch loop. *)
Lemma dispatches_reject k (h : heap) R :
  h !! ret = Some (OPromise new_Promise) →
  dispatches u (replicate (S k) (rj ret)) R h
             (<[ret := OPromise (rejected_rec new_Promise R)]> h).
Proof.
  intros Hr. apply lookup_lt_Some in Hr as Hlt. simpl.
  eapply dispatches_cons.
  - apply runs_apply_BoundReject. apply runs_reject_quiet; [done|].
    unfold quiet. by rewrite Hr.
  - eapply dispatches_reject_settled; [by apply list_lookup_insert_eq|done].
Qed.

End Repeated.

(** [listPromise] with the same pending promise given several times: the
    result is fulfilled with one copy of the value for each occurrence when
    the promise is fulfilled, and rejected with its reason when it is
    rejected; in both cases the settling call returns. *)
Theorem listPromise_with_a_repeated_input (u : nat → val → outcome) h p n :
  quiet h p = true →
  ∃ h1,
    runs u (Call_listPromise (replicate (S n) (VPromise p))) h h1
         (Return (VPromise (length h))) ∧
    pending h1 (length h) ∧
    (∀ V, plain V = true →
       ∃ h2, runs u (Call_fulfill p V) h1 h2 (Return VNone) ∧
             fulfilled_with h2 (length h) (VList (replicate (S n) V))) ∧
    (∀ R,
       ∃ h2, runs u (Call_reject p R) h1 h2 (Return VNone) ∧
             rejected_with h2 (length h) R).
Proof.
  intros Hq.
  destruct (quiet_inv _ _ Hq) as (v0 & r0 & cbs & ebs & Hp & Hcbs & Hebs).
  apply lookup_lt_Some in Hp as Hlt.
  set (ret := length h). set (ctr := S (length h)).
  set (inputs := λ V : val, replicate (S n) (p, V)).
  assert (∀ V, VPromise <$> (inputs V).*1 = replicate (S n) (VPromise p)) as Hps.
  { intros V. unfold inputs. by rewrite !fmap_replicate. }
  assert (∀ V, hs (inputs V) ret ctr = hs (inputs VNone) ret ctr) as Hhs.
  { intros V. unfold hs. by rewrite !Hps. }
  set (h0 := h ++ [OPromise new_Promise; OLatch (Z.of_nat (S n))]).
  assert (h0 !! ret = Some (OPromise new_Promise)) as Hret0.
  { unfold h0, ret. by apply list_lookup_middle. }
  assert (h0 !! ctr = Some (OLatch (Z.of_nat (S n)))) as Hctr0.
  { unfold h0, ctr.
    change (h ++ [_; ?b]) with (h ++ [OPromise new_Promise] ++ [b]).
    rewrite app_assoc.
    replace (S (length h)) with (length (h ++ [OPromise new_Promise]))
      by (rewrite length_app; simpl; lia).
    by rewrite lookup_alloc. }
  destruct (loops_replicate u (inputs VNone) ret ctr (S n) h0 p v0 r0 cbs ebs)
    as (h1 & Hloop & Hp1 & Hframe).
  { by apply lookup_app_l_Some. }
  assert (h1 !! ret = Some (OPromise new_Promise)) as Hret1.
  { rewrite Hframe; [done|]. unfold ret. lia. }
  assert (h1 !! ctr = Some (OLatch (Z.of_nat (S n)))) as Hctr1.
  { rewrite Hframe; [done|]. unfold ctr. lia. }
  apply lookup_lt_Some in Hp1 as Hlt1.
  exists h1. split; [|split; [|split]].
  - rewrite <-(Hps VNone).
    apply (runs_listPromise u (inputs VNone) ret ctr h h1); try done.
    rewrite Hps. unfold inputs. by rewrite length_replicate.
  - by eexists.
  - intros V HV.
    set (pr1 := mkPromise PENDING v0 r0
                  (Some (cbs ++ replicate (S n) (hs (inputs VNone) ret ctr)))
                  (Some (ebs ++ replicate (S n) (rj ret)))) in *.
    destruct (dispatches_handleSuccess u (inputs V) ret ctr n
                (<[p := OPromise (fulfilled_rec pr1 V)]> h1) V)
      as (h2 & Hd & Hful).
    { rewrite list_lookup_insert_ne; [done|]. unfold ctr. lia. }
    { unfold ret, ctr. lia. }
    { rewrite list_lookup_insert_ne; [done|]. unfold ret. lia. }
    { apply Forall_forall. intros pv Hin. unfold inputs in Hin.
      apply elem_of_replicate in Hin as [-> _]. simpl.
      by apply fulfilled_with_insert. }
    exists h2. split.
    + apply runs_fulfill_plain; [done|].
      eapply runs__fulfill_pending; [done..|].
      eapply dispatches_app; [by apply dispatches_users|].
      by rewrite <-(Hhs V).
    + unfold inputs in Hful. by rewrite fmap_replicate in Hful.
  - intros R.
    set (pr1 := mkPromise PENDING v0 r0
                  (Some (cbs ++ replicate (S n) (hs (inputs VNone) ret ctr)))
                  (Some (ebs ++ replicate (S n) (rj ret)))) in *.
    eexists. split.
    + eapply runs_reject_pending; [done..|].
      eapply dispatches_app; [by apply dispatches_users|].
      apply dispatches_reject. rewrite list_lookup_insert_ne; [done|].
      unfold ret. lia.
    + apply rejected_with_insert. rewrite length_insert.
      by eapply lookup_lt_Some.
Qed.

Lemma listPromise_with_a_repeated_input_witness :
  ∃ h1 h2,
    runs user_example (Call_listPromise [VPromise 0; VPromise 0])
         [pending_promise] h1 (Return (VPromise 1)) ∧
    runs user_example (Call_fulfill 0 (VInt 7)) h1 h2 (Return VNone) ∧
    fulfilled_with h2 1 (VList [VInt 7; VInt 7]).
Proof.
  destruct (listPromise_with_a_repeated_input user_example [pending_promise]
              0 1 eq_refl) as (h1 & Hrun & _ & Hful & _).
  destruct (Hful (VInt 7) eq_refl) as (h2 & Hrun2 & Hret).
  by exists h1, h2.
Defined.
